(** * Smart Delivery: load packing and route sequencing

    A shallow embedding of the two engines of the repository:

    - [Pack]     : the greedy 3D packer of [pack_dispatch.py];
    - [Routing]  : nearest-neighbour construction and 2-opt improvement of
                   [routing_opt.py], and the nearest-neighbour-only variant
                   of [optimize_route.py];
    - [Geo]      : the two [haversine_km] functions over the real numbers;
    - [GeoFloat] : the same formula, and [route_length], over IEEE
                   binary64 numbers;
    - [Store]    : the table of stops and the functions that rewrite it
                   ([optimize_route], [recompute_dispatch_sequence]).

    The modules [PackFacts], [RoutingFacts], [GeoFacts],
    [GeoFloatFacts] and [StoreFacts] that follow hold what is proved of
    them.

    Conventions.  Centimetre quantities are Python [int]s and are modelled
    by [Z].  Weights and distances are Python [float]s; the algorithms are
    modelled over exact rationals [Q] (every finite double is a rational),
    rounding of the individual additions is not modelled there; what it
    does to a sum is shown on [GeoFloat.route_length].  Database reads
    are modelled by the list of rows they return, and the table of stops
    has the unique key that [optimize_route.py] names. *)

From Stdlib Require Import ZArith QArith Qround List Bool Lia Permutation Sorted.
From Stdlib Require String.
From Stdlib Require Import Reals.
From Stdlib Require Lqa Lra.
From Corelib Require PrimFloat.
Import ListNotations.

(* ================================================================== *)
(** ** The packing engine ([pack_dispatch.py])                          *)
(* ================================================================== *)

Module Pack.

Local Open Scope Z_scope.

(** One row of the data frame returned by [load_packages]. *)
Record PackageRow := mkPackageRow {
  Package_id   : String.string;
  Weight_lbs   : Q;
  Length_cm    : Z;
  Width_cm     : Z;
  Height_cm    : Z;
  Fragile_flag : bool;
  StopSequence : Z
}.

(** One row of the query of [get_truck]. *)
Record TruckRow := mkTruckRow {
  tt_Length_cm      : Z;
  tt_Width_cm       : Z;
  tt_Height_cm      : Z;
  tt_Max_weight_lbs : Q
}.

(** The tuple [(L, W, H, max_weight)] returned by [get_truck]. *)
Record Truck := mkTruck {
  L : Z;
  W : Z;
  H : Z;
  max_weight : Q
}.

(** The dictionary appended to [placed]. *)
Record Placement := mkPlacement {
  p_Package_id   : String.string;
  X_cm           : Z;
  Y_cm           : Z;
  Z_cm           : Z;
  p_Length_cm    : Z;
  p_Width_cm     : Z;
  p_Height_cm    : Z;
  p_Fragile_flag : bool;
  p_StopSequence : Z
}.

(** The local variables of [pack] that the loop updates. *)
Record State := mkState {
  x : Z;
  y : Z;
  z : Z;
  row_depth    : Z;
  layer_height : Z;
  placed       : list Placement;
  total_weight : Q
}.

(** [db.read(sql, [dispatch_id]).iloc[0]]: the first row, [IndexError]
    (here [None]) when the query returns no row. *)
Definition get_truck (rows : list TruckRow) : option Truck :=
  match rows with
  | [] => None
  | row :: _ =>
      Some (mkTruck (tt_Length_cm row) (tt_Width_cm row) (tt_Height_cm row)
                    (tt_Max_weight_lbs row))
  end.

Definition init : State := mkState 0 0 0 0 0 [] 0%Q.

(** "move across X": [if x + r.Length_cm > L: x = 0; y += row_depth;
    row_depth = 0]. *)
Definition wrap_x (t : Truck) (r : PackageRow) (s : State) : State :=
  if L t <? x s + Length_cm r
  then mkState 0 (y s + row_depth s) (z s) 0 (layer_height s)
               (placed s) (total_weight s)
  else s.

(** "new row in Y": [if y + r.Width_cm > W: x = 0; y = 0;
    z += layer_height; layer_height = 0]. *)
Definition wrap_y (t : Truck) (r : PackageRow) (s : State) : State :=
  if W t <? y s + Width_cm r
  then mkState 0 0 (z s + layer_height s) (row_depth s) 0
               (placed s) (total_weight s)
  else s.

(** The append and the four updates that end the loop body. *)
Definition place (r : PackageRow) (s : State) : State :=
  mkState (x s + Length_cm r) (y s) (z s)
          (Z.max (row_depth s) (Width_cm r))
          (Z.max (layer_height s) (Height_cm r))
          (placed s ++
             [mkPlacement (Package_id r) (x s) (y s) (z s)
                          (Length_cm r) (Width_cm r) (Height_cm r)
                          (Fragile_flag r) (StopSequence r)])
          (total_weight s + Weight_lbs r)%Q.

(** The weight test: [total_weight + r.Weight_lbs > max_weight]. *)
Definition over_weight (t : Truck) (s : State) (r : PackageRow) : bool :=
  if Qlt_le_dec (max_weight t) (total_weight s + Weight_lbs r) then true
  else false.

(** One iteration of [for _, r in packages.iterrows()].  Both [continue]s
    keep what was assigned before them: the first leaves the state as it
    was, the second keeps the cursor moved by the two wraps. *)
Definition step (t : Truck) (s : State) (r : PackageRow) : State :=
  if over_weight t s r then s
  else
    let s1 := wrap_x t r s in
    let s2 := wrap_y t r s1 in
    if H t <? z s2 + Height_cm r then s2
    else place r s2.

Definition pack_loop (t : Truck) (s : State) (rows : list PackageRow) : State :=
  fold_left (step t) rows s.

(** Python's [round(v, 1)] on the exact value: nearest tenth, ties to the
    even tenth. *)
Definition round_half_even (q : Q) : Z :=
  let f := Qfloor q in
  let r := (q - inject_Z f)%Q in
  match (r ?= 1 # 2)%Q with
  | Lt => f
  | Gt => f + 1
  | Eq => if Z.even f then f else f + 1
  end.

Definition round1 (q : Q) : Q :=
  (inject_Z (round_half_even (q * 10)) / 10)%Q.

Definition used_volume (ps : list Placement) : Z :=
  fold_right (fun p acc => p_Length_cm p * p_Width_cm p * p_Height_cm p + acc)
             0 ps.

Definition truck_volume (t : Truck) : Z := L t * W t * H t.

(** [round((total_weight / max_weight) * 100, 1) if max_weight > 0 else 0.0] *)
Definition util_weight (t : Truck) (s : State) : Q :=
  if Qlt_le_dec 0 (max_weight t)
  then round1 ((total_weight s / max_weight t) * 100)
  else 0%Q.

(** [round((used_volume / truck_volume) * 100, 1) if truck_volume > 0
    else 0.0] *)
Definition util_volume (t : Truck) (s : State) : Q :=
  if 0 <? truck_volume t
  then round1 ((inject_Z (used_volume (placed s))
                / inject_Z (truck_volume t)) * 100)
  else 0%Q.

(** What [pack] computes and stores: the two utilisation figures of the
    [LoadPlan] row and the list of placements.  The key of the inserted
    row is chosen by the database and is not part of the model. *)
Record LoadPlan := mkLoadPlan {
  Util_weight_pct : Q;
  Util_volume_pct : Q;
  placements      : list Placement
}.

(** [pack], on the rows the two queries return.  [None] is the
    [IndexError] of [get_truck]; no other statement of [pack] raises. *)
Definition pack (trucks : list TruckRow) (packages : list PackageRow)
  : option LoadPlan :=
  match get_truck trucks with
  | None => None
  | Some t =>
      let s := pack_loop t init packages in
      Some (mkLoadPlan (util_weight t s) (util_volume t s) (placed s))
  end.

(** A placement lies inside the truck interior. *)
Definition within_truck (t : Truck) (p : Placement) : Prop :=
  0 <= X_cm p /\ X_cm p + p_Length_cm p <= L t /\
  0 <= Y_cm p /\ Y_cm p + p_Width_cm p <= W t /\
  0 <= Z_cm p /\ Z_cm p + p_Height_cm p <= H t.

(** The input the specification calls invalid. *)
Definition invalid_truck (t : Truck) : Prop :=
  L t <= 0 \/ W t <= 0 \/ H t <= 0.

Definition invalid_package (r : PackageRow) : Prop :=
  (Weight_lbs r < 0)%Q \/ Length_cm r < 0 \/ Width_cm r < 0 \/ Height_cm r < 0.

Definition invalid_input (t : Truck) (rows : list PackageRow) : Prop :=
  invalid_truck t \/ Exists invalid_package rows.

(** A package that is no larger than the truck floor. *)
Definition fits_floor (t : Truck) (r : PackageRow) : Prop :=
  0 <= Length_cm r <= L t /\ 0 <= Width_cm r <= W t /\ 0 <= Height_cm r.

(** The cursor and the two running maxima are not negative. *)
Definition cursor_ok (s : State) : Prop :=
  0 <= x s /\ 0 <= y s /\ 0 <= z s /\ 0 <= row_depth s /\ 0 <= layer_height s.

(** *** Notions used to state further properties of the loop *)

(** Two boxes do not overlap: they are apart along one of the axes. *)
Definition disjoint (p q : Placement) : Prop :=
  X_cm p + p_Length_cm p <= X_cm q \/ X_cm q + p_Length_cm q <= X_cm p \/
  Y_cm p + p_Width_cm p <= Y_cm q \/ Y_cm q + p_Width_cm q <= Y_cm p \/
  Z_cm p + p_Height_cm p <= Z_cm q \/ Z_cm q + p_Height_cm q <= Z_cm p.

(** Where a recorded box lies with respect to the cursor: in a layer
    below the current one, or in the current layer and then in a row
    before the current one, or in the current row before [x]. *)
Definition behind (s : State) (p : Placement) : Prop :=
  Z_cm p + p_Height_cm p <= z s \/
  (Z_cm p = z s /\ p_Height_cm p <= layer_height s /\
   (Y_cm p + p_Width_cm p <= y s \/
    (Y_cm p = y s /\ p_Width_cm p <= row_depth s /\
     X_cm p + p_Length_cm p <= x s))).

Definition nonneg_dims (r : PackageRow) : Prop :=
  0 <= Length_cm r /\ 0 <= Width_cm r /\ 0 <= Height_cm r.

(** [subseq l1 l2]: [l1] is [l2] with some elements left out. *)
Inductive subseq {A : Type} : list A -> list A -> Prop :=
| subseq_nil : subseq [] []
| subseq_skip a l1 l2 : subseq l1 l2 -> subseq l1 (a :: l2)
| subseq_take a l1 l2 : subseq l1 l2 -> subseq (a :: l1) (a :: l2).

(** The placement carries the identifier, the dimensions and the two
    flags of the row. *)
Definition copy_of (r : PackageRow) (p : Placement) : Prop :=
  p_Package_id p = Package_id r /\
  p_Length_cm p = Length_cm r /\ p_Width_cm p = Width_cm r /\
  p_Height_cm p = Height_cm r /\
  p_Fragile_flag p = Fragile_flag r /\ p_StopSequence p = StopSequence r.

(** The weights of the rows added to [w0] one after the other, as
    [total_weight += ...] does. *)
Definition add_weights (w0 : Q) (rows : list PackageRow) : Q :=
  fold_left (fun w r => (w + Weight_lbs r)%Q) rows w0.

(** The cursor stays clear of every recorded box, and the boxes stay
    clear of one another. *)
Definition clear (s : State) : Prop :=
  cursor_ok s /\ Forall (behind s) (placed s) /\
  ForallOrdPairs disjoint (placed s).

End Pack.

(* ================================================================== *)
(** ** Route sequencing ([routing_opt.py], [optimize_route.py])         *)
(* ================================================================== *)

Module Routing.

Local Open Scope Q_scope.

(** [list.remove(v)] and [set.remove(v)]: drop the (first) occurrence of
    [v]; [None] is the [ValueError] or [KeyError] raised when [v] is not
    a member. *)
Fixpoint remove_first (v : nat) (l : list nat) : option (list nat) :=
  match l with
  | [] => None
  | h :: t =>
      if Nat.eqb h v then Some t
      else match remove_first v t with
           | Some t' => Some (h :: t')
           | None => None
           end
  end.

(** The slice assignment [best[i:j + 1] = reversed(best[i:j + 1])]. *)
Definition reverse_segment (i j : nat) (best : list nat) : list nat :=
  firstn i best ++ rev (firstn (j + 1 - i) (skipn i best)) ++ skipn (j + 1) best.

(** The acceptance margin [1e-9] of [two_opt]. *)
Definition eps : Q := 1 # 1000000000.

(** The initial [best_d = 1e12] of [nearest_neighbor_order]. *)
Definition best_d0 : Q := 1000000000000 # 1.

Section Tour.

(** [seg_len i j] is [haversine_km] between [coords[i]] and [coords[j]]
    (rows [i] and [j] of the stops data frame). *)
Variable seg_len : nat -> nat -> Q.

(** [route_length]: [dist = 0.0], then one addition per consecutive pair
    (exact additions; [GeoFloat.route_length] has those of doubles). *)
Fixpoint route_length_from (dist : Q) (order : list nat) : Q :=
  match order with
  | a :: (b :: _) as rest => route_length_from (dist + seg_len a b) rest
  | _ => dist
  end.

Definition route_length (order : list nat) : Q := route_length_from 0 order.

(** The same sum without the accumulator, used to reason about it. *)
Fixpoint route_sum (order : list nat) : Q :=
  match order with
  | a :: (b :: _) as rest => seg_len a b + route_sum rest
  | _ => 0
  end.

(** [min(iterable, key=...)]: the first element whose key is smallest,
    taken in iteration order; a later element replaces the current one
    only when its key is strictly smaller. *)
Fixpoint min_scan (key : nat -> Q) (best : nat) (l : list nat) : nat :=
  match l with
  | [] => best
  | j :: rest =>
      if Qlt_le_dec (key j) (key best) then min_scan key j rest
      else min_scan key best rest
  end.

Definition py_min (key : nat -> Q) (l : list nat) : option nat :=
  match l with
  | [] => None
  | j :: rest => Some (min_scan key j rest)
  end.

(** The [while unvisited:] loop of [nearest_neighbor].  [unvisited] lists
    the members of the set in iteration order; a set of small
    non-negative integers is iterated in increasing order.  [fuel]
    bounds the number of iterations; one per stop is enough. *)
Fixpoint nn_loop (fuel : nat) (tour unvisited : list nat) : option (list nat) :=
  match unvisited with
  | [] => Some tour
  | _ :: _ =>
      match fuel with
      | O => None
      | S fuel' =>
          let last := List.last tour O in
          match py_min (fun j => seg_len last j) unvisited with
          | None => None
          | Some nxt =>
              match remove_first nxt unvisited with
              | None => None
              | Some unvisited' => nn_loop fuel' (tour ++ [nxt]) unvisited'
              end
          end
      end
  end.

(** [nearest_neighbor(coords, start_idx)] for [n = len(coords)]. *)
Definition nearest_neighbor (n start_idx : nat) : option (list nat) :=
  match remove_first start_idx (seq 0 n) with
  | None => None
  | Some unvisited => nn_loop n [start_idx] unvisited
  end.

(** The inner [for j in remaining:] loop of [nearest_neighbor_order]. *)
Fixpoint scan_remaining (last : nat) (best_j : option nat) (best_d : Q)
  (remaining : list nat) : option nat :=
  match remaining with
  | [] => best_j
  | j :: rest =>
      let d := seg_len last j in
      if Qlt_le_dec d best_d then scan_remaining last (Some j) d rest
      else scan_remaining last best_j best_d rest
  end.

(** The [while remaining:] loop of [nearest_neighbor_order]; with
    [best_j = None] the call [remaining.remove(best_j)] raises. *)
Fixpoint nno_loop (fuel : nat) (route_idx remaining : list nat)
  : option (list nat) :=
  match remaining with
  | [] => Some route_idx
  | _ :: _ =>
      match fuel with
      | O => None
      | S fuel' =>
          let last := List.last route_idx O in
          match scan_remaining last None best_d0 remaining with
          | None => None
          | Some best_j =>
              match remove_first best_j remaining with
              | None => None
              | Some remaining' =>
                  nno_loop fuel' (route_idx ++ [best_j]) remaining'
              end
          end
      end
  end.

(** The row indices [route_idx] built by [nearest_neighbor_order] for a
    data frame of [n] rows. *)
Definition nearest_neighbor_idx (n : nat) : option (list nat) :=
  match n with
  | O => Some []
  | S _ =>
      match remove_first 0 (seq 0 n) with
      | None => None
      | Some remaining => nno_loop n [O] remaining
      end
  end.

(** [nearest_neighbor_order(stops)], the data frame given by its column
    [Stop_id]. *)
Definition nearest_neighbor_order (stop_ids : list Z) : option (list Z) :=
  match nearest_neighbor_idx (length stop_ids) with
  | None => None
  | Some route_idx => Some (map (fun i => nth i stop_ids 0%Z) route_idx)
  end.

(** The body of the two nested [for] loops of [two_opt]; the state is
    the pair [(best, improved)]. *)
Definition try_reverse (i j : nat) (st : list nat * bool) : list nat * bool :=
  let best := fst st in
  let a := nth (i - 1) best O in
  let b := nth i best O in
  let c := nth j best O in
  let d := nth (j + 1) best O in
  let old := seg_len a b + seg_len c d in
  let new := seg_len a c + seg_len b d in
  if Qlt_le_dec (new + eps) old
  then (reverse_segment i j best, true)
  else st.

(** [for j in range(i + 1, len(best) - 1)] *)
Definition inner_loop (i : nat) (st : list nat * bool) : list nat * bool :=
  fold_left (fun st j => try_reverse i j st)
            (seq (i + 1) (length (fst st) - 1 - (i + 1))) st.

(** One execution of the body of [while improved:]:
    [improved = False], then [for i in range(1, len(best) - 2)]. *)
Definition pass (best : list nat) : list nat * bool :=
  fold_left (fun st i => inner_loop i st)
            (seq 1 (length best - 2 - 1)) (best, false).

(** What holds of the state [(best', improved)] throughout a pass that
    started from [best]: the list is a rearrangement of [best], and either
    nothing was reversed yet, or the route got shorter by more than [eps]. *)
Definition pass_inv (best : list nat) (st : list nat * bool) : Prop :=
  (length (fst st) = length best)%nat /\
  Permutation (fst st) best /\
  (if snd st then route_sum (fst st) + eps < route_sum best
   else fst st = best).

(** [while improved:], with a bound on the number of passes. *)
Fixpoint two_opt_loop (fuel : nat) (best : list nat) : option (list nat) :=
  match fuel with
  | O => None
  | S fuel' =>
      let st := pass best in
      if snd st then two_opt_loop fuel' (fst st) else Some (fst st)
  end.

(** A number of passes that is always enough: every pass but the last
    shortens the route by more than [eps]. *)
Definition two_opt_fuel (order : list nat) : nat :=
  S (Z.to_nat (Qceiling (route_length order / eps))).

Definition two_opt (order : list nat) : option (list nat) :=
  two_opt_loop (two_opt_fuel order) order.

(** The order computed by [recompute_dispatch_sequence] and the stop
    identifiers it writes back, the data frame given by its column
    [Stop_id]; [None] is the [RuntimeError] for an empty data frame. *)
Definition best_order (n : nat) : option (list nat) :=
  match nearest_neighbor n 0 with
  | None => None
  | Some nn_order => two_opt nn_order
  end.

Definition recompute_dispatch_sequence (stop_ids : list Z) : option (list Z) :=
  match stop_ids with
  | [] => None
  | _ :: _ =>
      match best_order (length stop_ids) with
      | None => None
      | Some order => Some (map (fun idx => nth idx stop_ids 0%Z) order)
      end
  end.

(** [greedy_from last ext]: each stop of [ext] is nearest to the stop
    before it ([last] for the first one) among the stops of [ext] from
    that position on, and has the lowest index among those equally near. *)
Fixpoint greedy_from (last : nat) (ext : list nat) : Prop :=
  match ext with
  | [] => True
  | nxt :: rest =>
      (forall j, In j ext ->
         seg_len last nxt <= seg_len last j /\
         (seg_len last j == seg_len last nxt -> (nxt <= j)%nat)) /\
      greedy_from nxt rest
  end.

End Tour.

(** The not-yet-visited stops when position [k] of a tour is chosen are
    the stops at positions [k, k+1, ...]; [lowest_nearest] says that the
    stop at position [k] is nearest to its predecessor among them, and
    has the lowest index among those that are equally near. *)
Definition lowest_nearest (seg_len : nat -> nat -> Q) (tour : list nat) : Prop :=
  forall k j, (1 <= k)%nat -> (k <= j)%nat -> (j < length tour)%nat ->
    let last := nth (k - 1) tour O in
    let nxt := nth k tour O in
    let other := nth j tour O in
    seg_len last nxt <= seg_len last other /\
    (seg_len last other == seg_len last nxt -> (nxt <= other)%nat).

(** Four stops at the corners of a square of side 1 km, stops 0 and 1
    and stops 2 and 3 being opposite corners (diagonal 1.4 km): the input
    order 0, 1, 2, 3 is a crossed tour. *)
Definition square_km (i j : nat) : Q :=
  if Nat.eqb i j then 0
  else if Nat.eqb (i + j) 1 then 14 # 10
  else if Nat.eqb (i + j) 5 then 14 # 10
  else 1.



(** [enumerate(l, start=1)] *)
Definition enumerate1 {A : Type} (l : list A) : list (Z * A) :=
  combine (map Z.of_nat (seq 1 (length l))) l.

(** The dictionary returned by [recompute_dispatch_sequence] (without
    its key [dispatch_id]) and the rows [(NewSequence, Stop_id)] that it
    passes to [db.execmany]. *)
Record Recomputed := mkRecomputed {
  stops           : nat;
  orig_dist_km    : Q;
  new_dist_km     : Q;
  improvement_km  : Q;
  improvement_pct : Q;
  rows            : list (Z * Z)
}.

(** What [recompute_dispatch_sequence] computes: the rows it passes to
    [db.execmany] and the dictionary it returns once they are written.
    The data frame is given by its column [Stop_id] and [seg_len] gives
    the distance between two of its rows; [None] is the [RuntimeError]
    for an empty data frame.  The write itself, which comes before the
    [return] and can raise, is part of [Store.recompute_dispatch_sequence]
    below. *)
Definition recompute_report (seg_len : nat -> nat -> Q) (stop_ids : list Z)
  : option Recomputed :=
  match stop_ids with
  | [] => None
  | _ :: _ =>
      let n := length stop_ids in
      let orig_order := seq 0 n in
      let orig_dist := route_length seg_len orig_order in
      match nearest_neighbor seg_len n 0 with
      | None => None
      | Some nn_order =>
          match two_opt seg_len nn_order with
          | None => None
          | Some best_order =>
              let new_dist := route_length seg_len best_order in
              let rows :=
                enumerate1 (map (fun idx => nth idx stop_ids 0%Z) best_order) in
              let improvement_km := orig_dist - new_dist in
              let improvement_pct :=
                if Qlt_le_dec 0 orig_dist
                then improvement_km / orig_dist * 100
                else 0 in
              Some (mkRecomputed n orig_dist new_dist improvement_km
                                 improvement_pct rows)
          end
      end
  end.

(** The dictionary [coord] of [total_route_km], keyed by [Stop_id]: for
    each identifier it holds the coordinates of the last row that has
    it; here, the index of that row.  [None] is the [KeyError]. *)
Fixpoint coord_from (i : nat) (stop_ids : list Z) (s : Z) : option nat :=
  match stop_ids with
  | [] => None
  | id :: rest =>
      match coord_from (S i) rest s with
      | Some k => Some k
      | None => if Z.eqb id s then Some i else None
      end
  end.

Definition coord (stop_ids : list Z) (s : Z) : option nat :=
  coord_from 0 stop_ids s.

(** The loop of [total_route_km]: [dist += haversine_km(...)] for each
    pair of consecutive identifiers of [order]. *)
Fixpoint total_from (seg_len : nat -> nat -> Q) (stop_ids : list Z)
  (dist : Q) (order : list Z) : option Q :=
  match order with
  | s1 :: (s2 :: _) as rest =>
      match coord stop_ids s1 with
      | None => None
      | Some i =>
          match coord stop_ids s2 with
          | None => None
          | Some j => total_from seg_len stop_ids (dist + seg_len i j) rest
          end
      end
  | _ => Some dist
  end.

(** [total_route_km(stops, order)]. *)
Definition total_route_km (seg_len : nat -> nat -> Q) (stop_ids : list Z)
  (order : list Z) : option Q :=
  if (length order <? 2)%nat then Some 0
  else total_from seg_len stop_ids 0 order.

End Routing.

(* ================================================================== *)
(** ** Great-circle distance over the real numbers                      *)
(* ================================================================== *)

Module Geo.

Local Open Scope R_scope.

(** [math.radians] *)
Definition radians (d : R) : R := d * (PI / 180).

(** [math.sqrt]: [ValueError] (here [None]) for a negative argument. *)
Definition math_sqrt (v : R) : option R :=
  if Rlt_dec v 0 then None else Some (sqrt v).

(** [math.asin]: [ValueError] outside [[-1, 1]]. *)
Definition math_asin (v : R) : option R :=
  if Rlt_dec v (-1) then None
  else if Rlt_dec 1 v then None
  else Some (asin v).

(** [math.atan2(y, x)], defined for every pair of arguments. *)
Definition math_atan2 (y x : R) : R :=
  if Rlt_dec 0 x then atan (y / x)
  else if Rlt_dec x 0
       then (if Rlt_dec y 0 then atan (y / x) - PI else atan (y / x) + PI)
       else if Rlt_dec 0 y then PI / 2
            else if Rlt_dec y 0 then - (PI / 2) else 0.

(** [haversine_km] of [routing_opt.py]. *)
Module routing_opt.

(** The local [R]: mean Earth radius in km. *)
Definition R_earth : R := 6371.0088.

(** The local [a]. *)
Definition hav_a (lat1 lon1 lat2 lon2 : R) : R :=
  let phi1 := radians lat1 in
  let phi2 := radians lat2 in
  let dphi := radians (lat2 - lat1) in
  let dlambda := radians (lon2 - lon1) in
  (sin (dphi / 2)) ^ 2 + cos phi1 * cos phi2 * (sin (dlambda / 2)) ^ 2.

(** [return 2 * R * math.asin(math.sqrt(a))] *)
Definition haversine_km (lat1 lon1 lat2 lon2 : R) : option R :=
  match math_sqrt (hav_a lat1 lon1 lat2 lon2) with
  | None => None
  | Some s =>
      match math_asin s with
      | None => None
      | Some t => Some (2 * R_earth * t)
      end
  end.

End routing_opt.

(** [haversine_km] of [optimize_route.py]. *)
Module optimize_route.

(** The local [R]. *)
Definition R_earth : R := 6371.0.

(** The local [a] (the local [p2], the longitude in radians, is not
    used by the function). *)
Definition hav_a (lat1 lon1 lat2 lon2 : R) : R :=
  let p1 := radians lat1 in
  let p2_lat := radians lat2 in
  let dlat := p2_lat - p1 in
  let dlon := radians (lon2 - lon1) in
  (sin (dlat / 2)) ^ 2 + cos p1 * cos p2_lat * (sin (dlon / 2)) ^ 2.

(** [c = 2 * math.atan2(math.sqrt(a), math.sqrt(1 - a)); return R * c] *)
Definition haversine_km (lat1 lon1 lat2 lon2 : R) : option R :=
  let a := hav_a lat1 lon1 lat2 lon2 in
  match math_sqrt a with
  | None => None
  | Some s =>
      match math_sqrt (1 - a) with
      | None => None
      | Some s' => Some (R_earth * (2 * math_atan2 s s'))
      end
  end.

End optimize_route.

(** The specification's wording of the inverse-trigonometric step:
    the square-root argument is first clamped to [[0, 1]]. *)
Definition clamp01 (a : R) : R := Rmax 0 (Rmin 1 a).

End Geo.

(* ================================================================== *)
(** ** Great-circle distance over binary64 numbers                      *)
(* ================================================================== *)

Module GeoFloat.

Import PrimFloat.
Local Open Scope float_scope.
#[local] Set Warnings "-inexact-float".

(** [math.radians(v)] is [v * (pi / 180)], the factor being the double
    nearest to pi/180. *)
Definition degToRad : float := 0x1.1df46a2529d39p-6.

Definition radians (v : float) : float := v * degToRad.

(** [math.sqrt]: [ValueError] (here [None]) for a negative argument. *)
Definition math_sqrt (v : float) : option float :=
  if v <? 0 then None else Some (sqrt v).

(** [math.asin]: [ValueError] outside [[-1, 1]]. *)
Definition math_asin (m_asin : float -> float) (v : float) : option float :=
  if v <? -1 then None else if 1 <? v then None else Some (m_asin v).

Section Libm.

(** The functions of the C library behind [math.sin], [math.cos],
    [math.asin] and [math.atan2]; additions, products, quotients and
    square roots are the IEEE operations. *)
Variables m_sin m_cos m_asin : float -> float.
Variable m_atan2 : float -> float -> float.

(** [v ** 2] *)
Definition sq (v : float) : float := v * v.

(** [haversine_km] of [routing_opt.py]. *)
Definition routing_opt_haversine_km (lat1 lon1 lat2 lon2 : float)
  : option float :=
  let phi1 := radians lat1 in
  let phi2 := radians lat2 in
  let dphi := radians (lat2 - lat1) in
  let dlambda := radians (lon2 - lon1) in
  let a := sq (m_sin (dphi / 2))
           + m_cos phi1 * m_cos phi2 * sq (m_sin (dlambda / 2)) in
  match math_sqrt a with
  | None => None
  | Some s =>
      match math_asin m_asin s with
      | None => None
      | Some t => Some (2 * 6371.0088 * t)
      end
  end.

(** [haversine_km] of [optimize_route.py]. *)
Definition optimize_route_haversine_km (lat1 lon1 lat2 lon2 : float)
  : option float :=
  let p1 := radians lat1 in
  let p2_lat := radians lat2 in
  let dlat := p2_lat - p1 in
  let dlon := radians (lon2 - lon1) in
  let a := sq (m_sin (dlat / 2))
           + m_cos p1 * m_cos p2_lat * sq (m_sin (dlon / 2)) in
  match math_sqrt a with
  | None => None
  | Some s =>
      match math_sqrt (1 - a) with
      | None => None
      | Some s' => Some (6371.0 * (2 * m_atan2 s s'))
      end
  end.

(** [route_length] of [routing_opt.py]: the distances between
    consecutive stops of [order] are added to [dist] one after the
    other, in route order.  [None] is an error of [haversine_km] or the
    [IndexError] of [coords[...]]. *)
Fixpoint route_length_from (coords : list (float * float)) (dist : float)
  (order : list nat) : option float :=
  match order with
  | i :: (j :: _) as rest =>
      match nth_error coords i, nth_error coords j with
      | Some (lat1, lon1), Some (lat2, lon2) =>
          match routing_opt_haversine_km lat1 lon1 lat2 lon2 with
          | Some km => route_length_from coords (dist + km) rest
          | None => None
          end
      | _, _ => None
      end
  | _ => Some dist
  end.

Definition route_length (coords : list (float * float)) (order : list nat)
  : option float :=
  route_length_from coords 0 order.

End Libm.

(** The values of the C library's [sin], [cos], [asin] and [atan2] at
    the arguments met below (each is the double nearest to the exact
    value); other arguments have no entry. *)
Definition libm_sin (v : float) : float :=
  if v =? 0 then 0
  else if v =? 0x1.921fb54442d18p+0 then 1
  else if v =? -0x1.1df46a2529d39p-3 then -0x1.1d06c968d9e19p-3
  else if v =? 0x1.1df46a2529d39p-9 then 0x1.1df45b4769082p-9
  else if v =? -0x1.1df46a2529d39p-9 then -0x1.1df45b4769082p-9
  else if v =? 0x1.1df46a2529d39p-7 then 0x1.1df37c4954c21p-7
  else if v =? -0x1.1df46a2529d39p-7 then -0x1.1df37c4954c21p-7
  else nan.

Definition libm_cos (v : float) : float :=
  if v =? 0 then 1
  else if v =? 0x1.1df46a2529d39p-3 then 0x1.fb046a930947ap-1
  else if v =? -0x1.1df46a2529d39p-3 then 0x1.fb046a930947ap-1
  else nan.

Definition libm_asin (v : float) : float :=
  if v =? 0 then 0
  else if v =? 1 then 0x1.921fb54442d18p+0
  else if v =? 0x1.1df45b4769082p-9 then 0x1.1df46a2529d39p-9
  else if v =? 0x1.1df37c4954c21p-7 then 0x1.1df46a2529d39p-7
  else nan.

Definition libm_atan2 (u v : float) : float :=
  if (u =? 0) && (v =? 1) then 0 else nan.

(** Four stops on the equator, at the longitudes 0, 0.25, 0.5 and 1.5
    degrees. *)
Definition equator : list (float * float) :=
  [(0, 0); (0, 0.25); (0, 0.5); (0, 1.5)].

End GeoFloat.

(* ================================================================== *)
(** ** The stop table and the functions that rewrite it                 *)
(* ================================================================== *)

Module Store.

Local Open Scope Z_scope.

(** A row of [wh.DispatchStop], with the columns the queries use. *)
Record StopRow := mkStopRow {
  Stop_id     : Z;
  Dispatch_id : Z;
  Sequence    : Z
}.

Definition DispatchStop := list StopRow.

(** [WHERE ds.Dispatch_id = ?] *)
Definition of_dispatch (d : Z) (r : StopRow) : bool := Dispatch_id r =? d.

(** [ORDER BY ds.Sequence]: rows in increasing [Sequence]; rows with the
    same [Sequence], whose order the query leaves open, stay in table
    order. *)
Fixpoint insert_by_sequence (r : StopRow) (l : list StopRow) : list StopRow :=
  match l with
  | [] => [r]
  | h :: t =>
      if Sequence r <=? Sequence h then r :: l
      else h :: insert_by_sequence r t
  end.

Definition order_by_sequence (l : list StopRow) : list StopRow :=
  fold_right insert_by_sequence [] l.

(** The column [Stop_id] of the data frame that [load_stops] and the
    query of [recompute_dispatch_sequence] return (every stop is taken
    to have its row in [wh.Address], which the queries join). *)
Definition load_stops (d : Z) (tbl : DispatchStop) : list Z :=
  map Stop_id (order_by_sequence (filter (of_dispatch d) tbl)).

(** [UPDATE wh.DispatchStop SET Sequence = Sequence + 1000
     WHERE Dispatch_id = ?] *)
Definition add_1000 (d : Z) (tbl : DispatchStop) : DispatchStop :=
  map (fun r => if of_dispatch d r
                then mkStopRow (Stop_id r) (Dispatch_id r) (Sequence r + 1000)
                else r) tbl.

(** [UPDATE wh.DispatchStop SET Sequence = ? WHERE Stop_id = ?] with the
    parameters [(seq, stop_id)]. *)
Definition set_sequence (tbl : DispatchStop) (row : Z * Z) : DispatchStop :=
  map (fun r => if Stop_id r =? snd row
                then mkStopRow (Stop_id r) (Dispatch_id r) (fst row)
                else r) tbl.

(** [db.execmany] of that statement: one execution per row. *)
Definition execmany_set_sequence (tbl : DispatchStop) (rows : list (Z * Z))
  : DispatchStop :=
  fold_left set_sequence rows tbl.

(** The unique key of [wh.DispatchStop] that [optimize_route] names
    (its updates are made "without violating unique key"): no two rows
    of one dispatch have the same [Sequence]. *)
Definition same_key (r1 r2 : StopRow) : bool :=
  (Dispatch_id r1 =? Dispatch_id r2) && (Sequence r1 =? Sequence r2).

Fixpoint unique_key (tbl : DispatchStop) : bool :=
  match tbl with
  | [] => true
  | r :: rest => negb (existsb (same_key r) rest) && unique_key rest
  end.

(** [db.execmany] of that statement on a table with the key: the
    statement is executed for one row after the other, and the key is
    checked after each execution.  The first execution that leaves two
    rows with the same key raises; [conn.commit()] is then not reached
    and the table stays as it was ([None]). *)
Fixpoint execmany_unique (tbl : DispatchStop) (rows : list (Z * Z))
  : option DispatchStop :=
  match rows with
  | [] => Some tbl
  | row :: rest =>
      let tbl' := set_sequence tbl row in
      if unique_key tbl' then execmany_unique tbl' rest else None
  end.

(** How a call of [recompute_dispatch_sequence] ends: with its report,
    or with the [RuntimeError] it raises for a dispatch without stops, or
    with the error of the database for a violated key; [Unfinished] is
    a 2-opt loop that has not come to its end. *)
Inductive Outcome :=
| Returned (rep : Routing.Recomputed)
| RuntimeError
| IntegrityError
| Unfinished.

Section Distance.

(** [stop_km s1 s2]: [haversine_km] between the addresses of the stops
    [s1] and [s2]. *)
Variable stop_km : Z -> Z -> Q.

(** The sum of the distances between consecutive stops of a list of
    identifiers, added to [dist] one after the other. *)
Fixpoint path_km (dist : Q) (ids : list Z) : Q :=
  match ids with
  | s1 :: (s2 :: _) as rest => path_km (dist + stop_km s1 s2)%Q rest
  | _ => dist
  end.

(** The distance between two rows of a data frame of stops. *)
Definition frame_km (stop_ids : list Z) (i j : nat) : Q :=
  stop_km (nth i stop_ids 0) (nth j stop_ids 0).

(** [optimize_route(dispatch_id)]: the table after its two updates and
    the distance it returns ([None] when it raises).  The two updates
    are written as the statements alone; on a table with the unique
    key they pass its check under the conditions of
    [StoreFacts.optimize_route_updates_keep_key].  Its last update, of
    [wh.Dispatch.RouteDistance_km], is of another table and is not
    modelled. *)
Definition optimize_route (d : Z) (tbl : DispatchStop)
  : DispatchStop * option Q :=
  let stops := load_stops d tbl in
  if (length stops <=? 1)%nat then (tbl, Some 0%Q)
  else
    match Routing.nearest_neighbor_order (frame_km stops) stops with
    | None => (tbl, None)
    | Some order_stop_ids =>
        let tbl1 := add_1000 d tbl in
        let tbl2 :=
          execmany_set_sequence tbl1 (Routing.enumerate1 order_stop_ids) in
        (tbl2, Routing.total_route_km (frame_km stops) stops order_stop_ids)
    end.

(** [recompute_dispatch_sequence(dispatch_id)] on a table with the
    unique key: the table it leaves and how it ends.  The rows are
    written by one [db.execmany], between the computation of the new
    order and that of the report. *)
Definition recompute_dispatch_sequence (d : Z) (tbl : DispatchStop)
  : DispatchStop * Outcome :=
  let stops := load_stops d tbl in
  match stops with
  | [] => (tbl, RuntimeError)
  | _ :: _ =>
      match Routing.recompute_report (frame_km stops) stops with
      | None => (tbl, Unfinished)
      | Some rep =>
          match execmany_unique tbl (Routing.rows rep) with
          | None => (tbl, IntegrityError)
          | Some tbl' => (tbl', Returned rep)
          end
      end
  end.

(** [route_distance_km(dispatch_id)] of [dispatch_summary.py]. *)
Definition route_distance_km (d : Z) (tbl : DispatchStop) : Q :=
  let df := load_stops d tbl in
  if (length df <? 2)%nat then 0%Q
  else Routing.route_length (frame_km df) (seq 0 (length df)).

End Distance.

(** What the rows [(seq, stop_id)] make of one row of the table. *)
Definition assign (rows : list (Z * Z)) (r : StopRow) : StopRow :=
  fold_left (fun r row => if Stop_id r =? snd row
                          then mkStopRow (Stop_id r) (Dispatch_id r) (fst row)
                          else r) rows r.

(** The position of the first occurrence of [s] in [l] ([length l] when
    there is none). *)
Fixpoint pos (s : Z) (l : list Z) : nat :=
  match l with
  | [] => O
  | h :: t => if h =? s then O else S (pos s t)
  end.

(** An example: two dispatches, the stops 101..104 of dispatch 7 at the
    corners of the square of [Routing.square_km]. *)
Definition square_stop_km (s1 s2 : Z) : Q :=
  Routing.square_km (Z.to_nat (s1 - 101)) (Z.to_nat (s2 - 101)).

Definition example_table : DispatchStop :=
  [mkStopRow 101 7 1; mkStopRow 201 8 1; mkStopRow 102 7 2;
   mkStopRow 103 7 3; mkStopRow 202 8 2; mkStopRow 104 7 4].

(** The same stops, those of dispatch 7 numbered 10, 20, 30 and 40. *)
Definition example_table_spaced : DispatchStop :=
  [mkStopRow 101 7 10; mkStopRow 201 8 1; mkStopRow 102 7 20;
   mkStopRow 103 7 30; mkStopRow 202 8 2; mkStopRow 104 7 40].

End Store.

(* ================================================================== *)
(** ** Properties of the packing engine                                 *)
(* ================================================================== *)

Module PackFacts.

Import Pack.
Import Lqa.
Import String.
Local Open Scope Z_scope.

Lemma pack_loop_app t s l1 l2 :
  pack_loop t s (l1 ++ l2) = pack_loop t (pack_loop t s l1) l2.
Proof. unfold pack_loop. apply fold_left_app. Qed.

Lemma pack_loop_cons t s r l :
  pack_loop t s (r :: l) = pack_loop t (step t s r) l.
Proof. reflexivity. Qed.

Lemma over_weight_true t s r :
  over_weight t s r = true <->
  (max_weight t < total_weight s + Weight_lbs r)%Q.
Proof.
  unfold over_weight.
  destruct (Qlt_le_dec (max_weight t) (total_weight s + Weight_lbs r)) as [Hlt | Hle].
  - tauto.
  - split; [discriminate | intro Hlt; exfalso; lra].
Qed.

Lemma over_weight_false t s r :
  over_weight t s r = false <->
  (total_weight s + Weight_lbs r <= max_weight t)%Q.
Proof.
  unfold over_weight.
  destruct (Qlt_le_dec (max_weight t) (total_weight s + Weight_lbs r)) as [Hlt | Hle].
  - split; [discriminate | intro Hle; exfalso; lra].
  - tauto.
Qed.

(** The two wraps move the cursor only. *)
Lemma wrap_x_keeps t r s :
  placed (wrap_x t r s) = placed s /\
  total_weight (wrap_x t r s) = total_weight s.
Proof. unfold wrap_x. destruct (L t <? x s + Length_cm r); auto. Qed.

Lemma wrap_y_keeps t r s :
  placed (wrap_y t r s) = placed s /\
  total_weight (wrap_y t r s) = total_weight s.
Proof. unfold wrap_y. destruct (W t <? y s + Width_cm r); auto. Qed.

(** What one iteration does to the list of placements and to the total. *)
Lemma step_cases t s r :
  (placed (step t s r) = placed s /\ total_weight (step t s r) = total_weight s)
  \/
  (over_weight t s r = false /\
   total_weight (step t s r) = (total_weight s + Weight_lbs r)%Q /\
   exists p, placed (step t s r) = placed s ++ [p] /\
             p_Package_id p = Package_id r).
Proof.
  unfold step.
  destruct (over_weight t s r) eqn:Hw; [left; auto |].
  destruct (wrap_x_keeps t r s) as [Hp1 Ht1].
  destruct (wrap_y_keeps t r (wrap_x t r s)) as [Hp2 Ht2].
  destruct (H t <? z (wrap_y t r (wrap_x t r s)) + Height_cm r).
  - left. split; congruence.
  - right. split; [reflexivity |]. unfold place; simpl. split.
    + congruence.
    + eexists. split; [rewrite Hp2, Hp1; reflexivity | reflexivity].
Qed.

(** The running total stays within the budget once it is within it. *)
Lemma step_budget t s r :
  (total_weight s <= max_weight t)%Q ->
  (total_weight (step t s r) <= max_weight t)%Q.
Proof.
  intros Hs.
  destruct (step_cases t s r) as [[_ Ht] | [Hw [Ht _]]]; rewrite Ht.
  - exact Hs.
  - now apply over_weight_false.
Qed.

Lemma pack_loop_budget t rows : forall s,
  (total_weight s <= max_weight t)%Q ->
  (total_weight (pack_loop t s rows) <= max_weight t)%Q.
Proof.
  induction rows as [| r rows IH]; intros s Hs; simpl.
  - exact Hs.
  - apply IH. now apply step_budget.
Qed.

(** With nothing placed the total is still 0; after that it is within
    the budget. *)
Lemma step_loaded t s r :
  (placed s = [] /\ total_weight s = 0%Q) \/
  (total_weight s <= max_weight t)%Q ->
  (placed (step t s r) = [] /\ total_weight (step t s r) = 0%Q) \/
  (total_weight (step t s r) <= max_weight t)%Q.
Proof.
  intros Hs.
  destruct (step_cases t s r) as [[Hp Ht] | [Hw [Ht _]]].
  - rewrite Hp, Ht. exact Hs.
  - right. rewrite Ht. now apply over_weight_false.
Qed.

Lemma pack_loop_loaded t rows : forall s,
  (placed s = [] /\ total_weight s = 0%Q) \/
  (total_weight s <= max_weight t)%Q ->
  (placed (pack_loop t s rows) = [] /\ total_weight (pack_loop t s rows) = 0%Q)
  \/ (total_weight (pack_loop t s rows) <= max_weight t)%Q.
Proof.
  induction rows as [| r rows IH]; intros s Hs; simpl.
  - exact Hs.
  - apply IH. now apply step_loaded.
Qed.

(** *** Containment of the placements *)

Lemma step_within t s r :
  fits_floor t r -> cursor_ok s -> Forall (within_truck t) (placed s) ->
  cursor_ok (step t s r) /\ Forall (within_truck t) (placed (step t s r)).
Proof.
  intros (Hl & Hwd & Hh) (Hx & Hy & Hz & Hr & Hlh) Hall.
  unfold step.
  destruct (over_weight t s r); [repeat split; assumption |].
  unfold wrap_x.
  destruct (Z.ltb_spec (L t) (x s + Length_cm r)) as [Hxl | Hxl];
    unfold wrap_y; simpl;
    match goal with
    | |- context [W t <? ?e] => destruct (Z.ltb_spec (W t) e) as [Hyw | Hyw]
    end; simpl;
    match goal with
    | |- context [H t <? ?e] => destruct (Z.ltb_spec (H t) e) as [Hzh | Hzh]
    end; simpl;
    unfold cursor_ok; simpl;
    (split; [lia |]);
    try assumption;
    (apply Forall_app; split; [assumption |]);
    constructor; try constructor; unfold within_truck; simpl; lia.
Qed.

Lemma pack_loop_within t rows : forall s,
  Forall (fits_floor t) rows -> cursor_ok s ->
  Forall (within_truck t) (placed s) ->
  Forall (within_truck t) (placed (pack_loop t s rows)).
Proof.
  induction rows as [| r rows IH]; intros s Hfit Hc Hall; simpl.
  - exact Hall.
  - inversion Hfit as [| r' rows' Hr Hrows]; subst.
    destruct (step_within t s r Hr Hc Hall) as [Hc' Hall'].
    now apply IH.
Qed.

(** Packages no larger than the truck floor are placed inside the truck. *)
Lemma placements_within_truck t rows :
  Forall (fits_floor t) rows ->
  Forall (within_truck t) (placed (pack_loop t init rows)).
Proof.
  intros Hfit. apply pack_loop_within; [exact Hfit | | constructor].
  unfold cursor_ok, init; simpl. lia.
Qed.

(** *** The claims about [pack] *)

(** C1.  Every recorded placement should lie inside the truck interior,
    also for a package that is larger than the truck.  It does not: in a
    200 x 100 x 100 truck a package 300 cm long is wrapped to [x = 0] and
    recorded there, so that it ends at 300 > 200.  (Only the height test
    drops a package that does not fit; [placements_within_truck] above
    covers the packages that are no larger than the truck floor.) *)
Theorem oversized_package_sticks_out :
  exists p,
    option_map placements
      (pack [mkTruckRow 200 100 100 1000]
            [mkPackageRow "PKG1"%string 10 300 50 50 false 1]) = Some [p] /\
    X_cm p = 0 /\ p_Length_cm p = 300 /\
    ~ within_truck (mkTruck 200 100 100 1000) p.
Proof.
  eexists. split; [vm_compute; reflexivity |].
  simpl. repeat split; unfold within_truck; simpl; lia.
Qed.

(** C2.  The running total of placed weight never exceeds the maximum
    weight: a package is placed only if the total before it plus its
    weight is at most the maximum weight, and the total becomes that sum;
    so after every prefix of the package list, hence at the end, the
    total is at most the maximum weight as soon as a package has been
    placed, and it is 0 with nothing placed before that (which is within
    the maximum weight of every truck whose maximum weight is not
    negative). *)
Theorem weight_budget_respected (t : Truck) (rows : list PackageRow) :
  (forall s r, placed (step t s r) <> placed s ->
     (total_weight s + Weight_lbs r <= max_weight t)%Q /\
     total_weight (step t s r) = (total_weight s + Weight_lbs r)%Q) /\
  (forall k,
     let s := pack_loop t init (firstn k rows) in
     (placed s = [] /\ total_weight s = 0%Q) \/
     (total_weight s <= max_weight t)%Q) /\
  ((0 <= max_weight t)%Q ->
   (forall k,
      (total_weight (pack_loop t init (firstn k rows)) <= max_weight t)%Q) /\
   (total_weight (pack_loop t init rows) <= max_weight t)%Q).
Proof.
  split; [| split].
  - intros s r Hne.
    destruct (step_cases t s r) as [[Hp _] | [Hw [Ht _]]].
    + contradiction.
    + split; [now apply over_weight_false | exact Ht].
  - intros k. apply pack_loop_loaded. left. split; reflexivity.
  - intros Hmax. split.
    + intros k. apply pack_loop_budget. exact Hmax.
    + apply pack_loop_budget. exact Hmax.
Qed.

Lemma weight_budget_respected_witness :
  (total_weight
     (pack_loop (mkTruck 200 100 100 1000) init
        [mkPackageRow "PKG1"%string 400 100 100 100 false 3;
         mkPackageRow "PKG2"%string 400 100 100 100 false 2;
         mkPackageRow "PKG3"%string 400 100 100 100 false 1]) <= 1000)%Q.
Proof.
  destruct (weight_budget_respected (mkTruck 200 100 100 1000)
              [mkPackageRow "PKG1"%string 400 100 100 100 false 3;
               mkPackageRow "PKG2"%string 400 100 100 100 false 2;
               mkPackageRow "PKG3"%string 400 100 100 100 false 1])
    as (_ & _ & Hbudget).
  destruct Hbudget as [_ Hfinal].
  - vm_compute. discriminate.
  - exact Hfinal.
Defined.

(** C7 as stated fails: input the specification calls invalid is packed
    like any other.  A package with negative weight and negative length
    is placed, and so is a package in a truck of length 0. *)
Lemma invalid_input_is_packed :
  (invalid_input (mkTruck 100 100 100 1000)
                 [mkPackageRow "PKG7"%string (-5) (-10) 10 10 false 1] /\
   option_map placements
     (pack [mkTruckRow 100 100 100 1000]
           [mkPackageRow "PKG7"%string (-5) (-10) 10 10 false 1])
   = Some [mkPlacement "PKG7"%string 0 0 0 (-10) 10 10 false 1]) /\
  (invalid_input (mkTruck 0 100 100 1000)
                 [mkPackageRow "PKG8"%string 1 0 10 10 false 1] /\
   option_map placements
     (pack [mkTruckRow 0 100 100 1000]
           [mkPackageRow "PKG8"%string 1 0 10 10 false 1])
   = Some [mkPlacement "PKG8"%string 0 0 0 0 10 10 false 1]).
Proof.
  split; split; try (vm_compute; reflexivity).
  - right. constructor. right. left. simpl. lia.
  - left. left. simpl. lia.
Qed.

(** C7, amended.  [pack] validates nothing: it fails only when the truck
    query returns no row, and for every truck row and every package list
    it runs the placement loop and returns its placements; a maximum
    weight that is not positive, or a truck volume that is not positive,
    makes the corresponding utilisation 0 instead of a quotient. *)
Theorem pack_never_rejects (trucks : list TruckRow) (rows : list PackageRow) :
  (pack trucks rows = None <-> trucks = []) /\
  (forall row rest, trucks = row :: rest ->
     let t := mkTruck (tt_Length_cm row) (tt_Width_cm row) (tt_Height_cm row)
                      (tt_Max_weight_lbs row) in
     exists plan,
       pack trucks rows = Some plan /\
       placements plan = placed (pack_loop t init rows) /\
       ((max_weight t <= 0)%Q -> Util_weight_pct plan = 0%Q) /\
       (truck_volume t <= 0 -> Util_volume_pct plan = 0%Q)).
Proof.
  split.
  - destruct trucks as [| row rest]; simpl; split; intro E;
      try reflexivity; discriminate.
  - intros row rest -> t. unfold pack; simpl. fold t.
    eexists. split; [reflexivity |]. simpl. split; [reflexivity |]. split.
    + intros Hle. unfold util_weight.
      destruct (Qlt_le_dec 0 (max_weight t)) as [Hlt | _]; [| reflexivity].
      exfalso. exact (Qlt_not_le _ _ Hlt Hle).
    + intros Hle. unfold util_volume.
      destruct (Z.ltb_spec 0 (truck_volume t)) as [Hlt | _]; [| reflexivity].
      exfalso. lia.
Qed.

(** C10.  A package skipped for the weight limit leaves no trace: if,
    after the packages before it, the running total plus its weight
    exceeds the maximum weight, then the run on the list without that
    package ends in the same state (same placements with the same
    coordinates, same total weight) and [pack] returns the same result
    (same placements, same weight and volume utilisation). *)
Theorem weight_skip_has_no_effect
  (trucks : list TruckRow) (t : Truck) (l1 l2 : list PackageRow)
  (r : PackageRow) :
  get_truck trucks = Some t ->
  (max_weight t < total_weight (pack_loop t init l1) + Weight_lbs r)%Q ->
  pack_loop t init (l1 ++ r :: l2) = pack_loop t init (l1 ++ l2) /\
  pack trucks (l1 ++ r :: l2) = pack trucks (l1 ++ l2).
Proof.
  intros Ht Hskip.
  assert (Hloop : pack_loop t init (l1 ++ r :: l2) = pack_loop t init (l1 ++ l2)).
  { rewrite !pack_loop_app, pack_loop_cons. unfold step.
    apply over_weight_true in Hskip. rewrite Hskip. reflexivity. }
  split; [exact Hloop |].
  unfold pack. rewrite Ht. cbv zeta. rewrite Hloop. reflexivity.
Qed.

Lemma weight_skip_has_no_effect_witness :
  pack [mkTruckRow 200 100 100 1000]
       ([mkPackageRow "PKG1"%string 400 100 100 100 false 3;
         mkPackageRow "PKG2"%string 400 100 100 100 false 2]
        ++ mkPackageRow "PKG3"%string 400 100 100 100 false 1
        :: [mkPackageRow "PKG4"%string 150 50 50 50 false 1])
  = pack [mkTruckRow 200 100 100 1000]
       ([mkPackageRow "PKG1"%string 400 100 100 100 false 3;
         mkPackageRow "PKG2"%string 400 100 100 100 false 2]
        ++ [mkPackageRow "PKG4"%string 150 50 50 50 false 1]).
Proof.
  apply (weight_skip_has_no_effect
           [mkTruckRow 200 100 100 1000] (mkTruck 200 100 100 1000)).
  - reflexivity.
  - vm_compute. reflexivity.
Defined.

(** *** Further properties of the loop *)

Lemma step_placed t s r :
  (placed (step t s r) = placed s /\ total_weight (step t s r) = total_weight s)
  \/
  (exists p, placed (step t s r) = placed s ++ [p] /\ copy_of r p /\
             total_weight (step t s r) = (total_weight s + Weight_lbs r)%Q).
Proof.
  unfold step.
  destruct (over_weight t s r); [left; auto |].
  destruct (wrap_x_keeps t r s) as [Hp1 Ht1].
  destruct (wrap_y_keeps t r (wrap_x t r s)) as [Hp2 Ht2].
  destruct (H t <? z (wrap_y t r (wrap_x t r s)) + Height_cm r).
  - left. split; congruence.
  - right. eexists. unfold place; simpl. split; [| split].
    + rewrite Hp2, Hp1. reflexivity.
    + repeat split.
    + congruence.
Qed.

Lemma pack_loop_kept t rows : forall s,
  exists kept new,
    subseq kept rows /\
    placed (pack_loop t s rows) = placed s ++ new /\
    Forall2 copy_of kept new /\
    total_weight (pack_loop t s rows) = add_weights (total_weight s) kept.
Proof.
  induction rows as [| r rows IH]; intros s.
  - exists [], []. simpl. rewrite app_nil_r. repeat split; constructor.
  - destruct (IH (step t s r)) as (kept & new & Hsub & Hpl & Hcp & Htw).
    simpl. destruct (step_placed t s r) as [[Hp Ht] | (p & Hp & Hc & Ht)].
    + exists kept, new. rewrite Hpl, Htw, Hp, Ht.
      split; [now constructor | auto].
    + exists (r :: kept), (p :: new). rewrite Hpl, Htw, Hp, Ht, <- app_assoc.
      split; [now constructor |]. split; [reflexivity |].
      split; [now constructor | reflexivity].
Qed.

Lemma ordpairs_snoc {A : Type} (R : A -> A -> Prop) (l : list A) (q : A) :
  ForallOrdPairs R l -> Forall (fun p => R p q) l ->
  ForallOrdPairs R (l ++ [q]).
Proof.
  induction 1 as [| p l Hp Hl IH]; intros Hq; simpl.
  - repeat constructor.
  - inversion Hq as [| p' l' Hpq Hlq]; subst. constructor.
    + apply Forall_app. split; [exact Hp | now constructor].
    + now apply IH.
Qed.

Lemma wrap_x_clear t r s : clear s -> clear (wrap_x t r s).
Proof.
  intros ((Hx & Hy & Hz & Hr & Hl) & Hb & Hd). unfold wrap_x.
  destruct (L t <? x s + Length_cm r); [| now repeat split].
  split; [| split]; simpl.
  - unfold cursor_ok; simpl. lia.
  - eapply Forall_impl; [| exact Hb]. unfold behind; simpl. intros p Hp. lia.
  - exact Hd.
Qed.

Lemma wrap_y_clear t r s : clear s -> clear (wrap_y t r s).
Proof.
  intros ((Hx & Hy & Hz & Hr & Hl) & Hb & Hd). unfold wrap_y.
  destruct (W t <? y s + Width_cm r); [| now repeat split].
  split; [| split]; simpl.
  - unfold cursor_ok; simpl. lia.
  - eapply Forall_impl; [| exact Hb]. unfold behind; simpl. intros p Hp. lia.
  - exact Hd.
Qed.

Lemma place_clear r s : nonneg_dims r -> clear s -> clear (place r s).
Proof.
  intros (Hln & Hwn & Hhn) ((Hx & Hy & Hz & Hr & Hl) & Hb & Hd).
  split; [| split]; unfold place; simpl.
  - unfold cursor_ok; simpl. lia.
  - apply Forall_app. split.
    + eapply Forall_impl; [| exact Hb]. unfold behind; simpl. intros p Hp. lia.
    + constructor; [| constructor]. unfold behind; simpl. lia.
  - apply ordpairs_snoc; [exact Hd |].
    eapply Forall_impl; [| exact Hb].
    unfold behind, disjoint; simpl. intros p Hp. lia.
Qed.

Lemma step_clear t s r : nonneg_dims r -> clear s -> clear (step t s r).
Proof.
  intros Hr Hs. unfold step.
  destruct (over_weight t s r); [exact Hs |].
  pose proof (wrap_y_clear t r _ (wrap_x_clear t r s Hs)) as Hw.
  destruct (H t <? _); [exact Hw | now apply place_clear].
Qed.

Lemma pack_loop_clear t rows : forall s,
  Forall nonneg_dims rows -> clear s -> clear (pack_loop t s rows).
Proof.
  induction rows as [| r rows IH]; intros s Hrows Hs; simpl; [exact Hs |].
  inversion Hrows; subst. apply IH; [assumption | now apply step_clear].
Qed.

Lemma init_clear : clear init.
Proof.
  split; [unfold cursor_ok; simpl; lia |]. split; constructor.
Qed.

Lemma subseq_map {A B : Type} (g : A -> B) (l1 l2 : list A) :
  subseq l1 l2 -> subseq (map g l1) (map g l2).
Proof. induction 1; simpl; now constructor. Qed.

Lemma subseq_in {A : Type} (l1 l2 : list A) :
  subseq l1 l2 -> forall a, In a l1 -> In a l2.
Proof.
  induction 1 as [| b l1 l2 Hs IH | b l1 l2 Hs IH]; intros a Ha.
  - exact Ha.
  - right. now apply IH.
  - destruct Ha as [-> | Ha]; [now left | right; now apply IH].
Qed.

Lemma subseq_nodup {A : Type} (l1 l2 : list A) :
  subseq l1 l2 -> NoDup l2 -> NoDup l1.
Proof.
  induction 1 as [| b l1 l2 Hs IH | b l1 l2 Hs IH]; intros Hnd.
  - exact Hnd.
  - inversion Hnd; subst. now apply IH.
  - inversion Hnd as [| b' l' Hnin Hnd']; subst. constructor.
    + intro Hin. apply Hnin. now apply (subseq_in l1 l2).
    + now apply IH.
Qed.

Lemma copies_ids (kept : list PackageRow) (new : list Placement) :
  Forall2 copy_of kept new -> map p_Package_id new = map Package_id kept.
Proof.
  induction 1 as [| r p kept new Hc Hrest IH]; simpl; [reflexivity |].
  destruct Hc as (Hid & _). now rewrite Hid, IH.
Qed.

(** *** Rounding to one decimal *)

Lemma round_half_even_comp (q q' : Q) :
  (q == q')%Q -> round_half_even q = round_half_even q'.
Proof.
  intros E. unfold round_half_even.
  rewrite (Qfloor_comp _ _ E).
  assert (E' : (q - inject_Z (Qfloor q') == q' - inject_Z (Qfloor q'))%Q)
    by (rewrite E; reflexivity).
  now rewrite (Qcompare_comp _ _ E' (1 # 2) (1 # 2) (Qeq_refl _)).
Qed.

Lemma round1_comp (q q' : Q) : (q == q')%Q -> round1 q = round1 q'.
Proof.
  intros E. unfold round1.
  rewrite (round_half_even_comp (q * 10) (q' * 10)); [reflexivity |].
  now rewrite E.
Qed.

Lemma round_half_even_bounds (q : Q) (n : Z) :
  (0 <= q)%Q -> (q <= inject_Z n)%Q -> 0 <= round_half_even q <= n.
Proof.
  intros H0 Hn. unfold round_half_even.
  pose proof (Qfloor_le q) as Hfl.
  assert (Hf0 : 0 <= Qfloor q).
  { change 0 with (Qfloor 0). now apply Qfloor_resp_le. }
  assert (Hfn : Qfloor q <= n).
  { rewrite Zle_Qle. lra. }
  destruct (q - inject_Z (Qfloor q) ?= 1 # 2)%Q eqn:Hc.
  - apply Qeq_alt in Hc.
    assert (Hlt : Qfloor q < n).
    { rewrite Zlt_Qlt. lra. }
    destruct (Z.even (Qfloor q)); lia.
  - lia.
  - apply Qgt_alt in Hc.
    assert (Hlt : Qfloor q < n).
    { rewrite Zlt_Qlt. lra. }
    lia.
Qed.

Lemma round1_bounds (q : Q) :
  (0 <= q)%Q -> (q <= 100)%Q -> (0 <= round1 q)%Q /\ (round1 q <= 100)%Q.
Proof.
  intros H0 H100. unfold round1.
  destruct (round_half_even_bounds (q * 10) 1000) as [Hl Hu].
  - lra.
  - change (inject_Z 1000) with (1000 # 1)%Q. lra.
  - rewrite Zle_Qle in Hl, Hu.
    change (inject_Z 0) with 0%Q in Hl.
    change (inject_Z 1000) with (1000 # 1)%Q in Hu.
    set (v := inject_Z (round_half_even (q * 10))) in *.
    split.
    + apply Qle_shift_div_l; [reflexivity | lra].
    + apply Qle_shift_div_r; [reflexivity | lra].
Qed.

Lemma step_total_nonneg t s r :
  (0 <= Weight_lbs r)%Q -> (0 <= total_weight s)%Q ->
  (0 <= total_weight (step t s r))%Q.
Proof.
  intros Hr Hs.
  destruct (step_placed t s r) as [[_ Ht] | (p & _ & _ & Ht)]; rewrite Ht; lra.
Qed.

Lemma pack_loop_total_nonneg t rows : forall s,
  Forall (fun r => (0 <= Weight_lbs r)%Q) rows -> (0 <= total_weight s)%Q ->
  (0 <= total_weight (pack_loop t s rows))%Q.
Proof.
  induction rows as [| r rows IH]; intros s Hrows Hs; simpl; [exact Hs |].
  inversion Hrows; subst. apply IH; [assumption | now apply step_total_nonneg].
Qed.

Lemma step_unloaded t s r :
  (placed s = [] -> total_weight s = 0%Q) ->
  placed (step t s r) = [] -> total_weight (step t s r) = 0%Q.
Proof.
  intros Hs He.
  destruct (step_placed t s r) as [[Hp Ht] | (p & Hp & _)].
  - rewrite Ht. apply Hs. now rewrite <- Hp.
  - rewrite Hp in He. now destruct (placed s).
Qed.

Lemma pack_loop_unloaded t rows : forall s,
  (placed s = [] -> total_weight s = 0%Q) ->
  placed (pack_loop t s rows) = [] -> total_weight (pack_loop t s rows) = 0%Q.
Proof.
  induction rows as [| r rows IH]; intros s Hs; simpl; [exact Hs |].
  apply IH. now apply step_unloaded.
Qed.

(** *** Further properties of [pack] *)

(** X1.  When every package is no larger than the truck floor (length at
    most L, width at most W, no negative dimension), every placement
    that [pack] returns lies inside the truck. *)
Theorem fitting_packages_placed_inside
  (trucks : list TruckRow) (t : Truck) (rows : list PackageRow) :
  get_truck trucks = Some t ->
  Forall (fits_floor t) rows ->
  exists plan,
    pack trucks rows = Some plan /\
    Forall (within_truck t) (placements plan).
Proof.
  intros Ht Hfit. unfold pack. rewrite Ht. eexists. split; [reflexivity |].
  simpl. apply pack_loop_within; [exact Hfit | | constructor].
  unfold cursor_ok, init; simpl. lia.
Qed.

Lemma fitting_packages_placed_inside_witness :
  exists plan,
    pack [mkTruckRow 200 100 100 1000]
         [mkPackageRow "PKG1"%string 400 100 100 100 false 3;
          mkPackageRow "PKG2"%string 400 100 60 100 false 2;
          mkPackageRow "PKG3"%string 100 100 40 50 false 1] = Some plan /\
    Forall (within_truck (mkTruck 200 100 100 1000)) (placements plan).
Proof.
  apply (fitting_packages_placed_inside
           [mkTruckRow 200 100 100 1000] (mkTruck 200 100 100 1000)).
  - reflexivity.
  - repeat constructor; simpl; lia.
Defined.

(** X2.  When no package has a negative dimension, no two placements
    that [pack] returns overlap: any two of the boxes are apart along
    the length, the width or the height. *)
Theorem placements_do_not_overlap
  (trucks : list TruckRow) (t : Truck) (rows : list PackageRow) :
  get_truck trucks = Some t ->
  Forall nonneg_dims rows ->
  exists plan,
    pack trucks rows = Some plan /\
    ForallOrdPairs disjoint (placements plan).
Proof.
  intros Ht Hrows. unfold pack. rewrite Ht. eexists. split; [reflexivity |].
  simpl. now apply (pack_loop_clear t rows init Hrows init_clear).
Qed.

Lemma placements_do_not_overlap_witness :
  exists plan,
    pack [mkTruckRow 200 100 100 1000]
         [mkPackageRow "PKG1"%string 100 120 60 50 false 3;
          mkPackageRow "PKG2"%string 100 100 60 50 false 2;
          mkPackageRow "PKG3"%string 100 100 40 50 false 1] = Some plan /\
    ForallOrdPairs disjoint (placements plan).
Proof.
  apply (placements_do_not_overlap
           [mkTruckRow 200 100 100 1000] (mkTruck 200 100 100 1000)).
  - reflexivity.
  - repeat constructor; simpl; lia.
Defined.

(** X3.  The placements that [pack] returns come, in input order, from
    distinct rows of the package list: each carries the identifier, the
    dimensions and the flags of its row, the total weight is the sum of
    the weights of these rows, and no identifier is repeated unless the
    input repeats it. *)
Theorem placements_copy_input_rows
  (trucks : list TruckRow) (t : Truck) (rows : list PackageRow) :
  get_truck trucks = Some t ->
  exists plan kept,
    pack trucks rows = Some plan /\
    subseq kept rows /\
    Forall2 copy_of kept (placements plan) /\
    total_weight (pack_loop t init rows) = add_weights 0 kept /\
    (NoDup (map Package_id rows) -> NoDup (map p_Package_id (placements plan))).
Proof.
  intros Ht. unfold pack. rewrite Ht.
  destruct (pack_loop_kept t rows init) as (kept & new & Hsub & Hpl & Hcp & Htw).
  simpl in Hpl. eexists. exists kept. split; [reflexivity |]. simpl.
  rewrite Hpl. split; [exact Hsub |]. split; [exact Hcp |].
  split; [exact Htw |].
  intros Hnd. rewrite (copies_ids kept new Hcp).
  apply (subseq_nodup _ (map Package_id rows)); [| exact Hnd].
  now apply subseq_map.
Qed.

Lemma placements_copy_input_rows_witness :
  exists plan kept,
    pack [mkTruckRow 200 100 100 1000]
         [mkPackageRow "PKG1"%string 400 100 100 100 false 3;
          mkPackageRow "PKG2"%string 400 100 100 100 false 2;
          mkPackageRow "PKG3"%string 400 100 100 100 false 1] = Some plan /\
    subseq kept
         [mkPackageRow "PKG1"%string 400 100 100 100 false 3;
          mkPackageRow "PKG2"%string 400 100 100 100 false 2;
          mkPackageRow "PKG3"%string 400 100 100 100 false 1] /\
    Forall2 copy_of kept (placements plan) /\
    total_weight
      (pack_loop (mkTruck 200 100 100 1000) init
         [mkPackageRow "PKG1"%string 400 100 100 100 false 3;
          mkPackageRow "PKG2"%string 400 100 100 100 false 2;
          mkPackageRow "PKG3"%string 400 100 100 100 false 1])
    = add_weights 0 kept /\
    (NoDup (map Package_id
         [mkPackageRow "PKG1"%string 400 100 100 100 false 3;
          mkPackageRow "PKG2"%string 400 100 100 100 false 2;
          mkPackageRow "PKG3"%string 400 100 100 100 false 1]) ->
     NoDup (map p_Package_id (placements plan))).
Proof.
  apply (placements_copy_input_rows
           [mkTruckRow 200 100 100 1000] (mkTruck 200 100 100 1000)).
  reflexivity.
Defined.

(** X4.  For a truck with a positive maximum weight and packages without
    negative weight, the weight utilisation that [pack] returns lies
    between 0 and 100. *)
Theorem weight_utilisation_is_a_percentage
  (trucks : list TruckRow) (t : Truck) (rows : list PackageRow) :
  get_truck trucks = Some t ->
  (0 < max_weight t)%Q ->
  Forall (fun r => (0 <= Weight_lbs r)%Q) rows ->
  exists plan,
    pack trucks rows = Some plan /\
    (0 <= Util_weight_pct plan)%Q /\ (Util_weight_pct plan <= 100)%Q.
Proof.
  intros Ht Hmax Hrows. unfold pack. rewrite Ht.
  eexists. split; [reflexivity |]. simpl. unfold util_weight.
  destruct (Qlt_le_dec 0 (max_weight t)) as [_ | Hle]; [| exfalso; lra].
  set (s := pack_loop t init rows).
  assert (H0 : (0 <= total_weight s)%Q).
  { apply pack_loop_total_nonneg; [exact Hrows | simpl; lra]. }
  assert (H1 : (total_weight s <= max_weight t)%Q).
  { apply pack_loop_budget. simpl. lra. }
  apply round1_bounds.
  - apply Qmult_le_0_compat; [| discriminate].
    apply Qle_shift_div_l; [exact Hmax | lra].
  - assert (Hq : (total_weight s / max_weight t <= 1)%Q).
    { apply Qle_shift_div_r; [exact Hmax | lra]. }
    lra.
Qed.

Lemma weight_utilisation_is_a_percentage_witness :
  exists plan,
    pack [mkTruckRow 200 100 100 1000]
         [mkPackageRow "PKG1"%string 400 100 100 100 false 3;
          mkPackageRow "PKG2"%string 400 100 100 100 false 2;
          mkPackageRow "PKG3"%string 400 100 100 100 false 1] = Some plan /\
    (0 <= Util_weight_pct plan)%Q /\ (Util_weight_pct plan <= 100)%Q.
Proof.
  apply (weight_utilisation_is_a_percentage
           [mkTruckRow 200 100 100 1000] (mkTruck 200 100 100 1000)).
  - reflexivity.
  - reflexivity.
  - repeat constructor; simpl; discriminate.
Defined.

(** X5.  Whenever [pack] places nothing (an empty package list, or every
    package dropped), both utilisation figures are 0; and for an empty
    package list it places nothing, whatever the truck. *)
Theorem nothing_placed_zero_utilisation
  (trucks : list TruckRow) (rows : list PackageRow) (plan : LoadPlan) :
  pack trucks rows = Some plan ->
  (placements plan = [] ->
   (Util_weight_pct plan == 0)%Q /\ (Util_volume_pct plan == 0)%Q) /\
  (rows = [] -> placements plan = []).
Proof.
  unfold pack. destruct (get_truck trucks) as [t |]; [| discriminate].
  intros [= <-]. simpl. split.
  - intros Hnone.
    assert (Htw : total_weight (pack_loop t init rows) = 0%Q)
      by (apply pack_loop_unloaded; [reflexivity | exact Hnone]).
    split.
    + unfold util_weight. rewrite Htw.
      destruct (Qlt_le_dec 0 (max_weight t)); [| reflexivity].
      rewrite (round1_comp _ 0); [reflexivity |].
      unfold Qdiv. ring.
    + unfold util_volume. rewrite Hnone.
      destruct (0 <? truck_volume t); [| reflexivity].
      rewrite (round1_comp _ 0); [reflexivity |].
      simpl used_volume. unfold Qdiv. ring.
  - intros ->. reflexivity.
Qed.

Lemma nothing_placed_zero_utilisation_witness :
  (placements (mkLoadPlan 0 0 []) = [] ->
   (Util_weight_pct (mkLoadPlan 0 0 []) == 0)%Q /\
   (Util_volume_pct (mkLoadPlan 0 0 []) == 0)%Q) /\
  (@nil PackageRow = [] -> placements (mkLoadPlan 0 0 []) = []).
Proof.
  apply (nothing_placed_zero_utilisation [mkTruckRow 0 100 100 0] []).
  reflexivity.
Defined.

(** X6.  A single package whose dimensions and weight are exactly those
    of the truck (all positive) is placed at the origin, and both
    utilisation figures are 100. *)
Theorem exact_fit_fills_the_truck
  (l w h : Z) (m : Q) (id : String.string) (f : bool) (sq : Z)
  (rest : list TruckRow) :
  0 < l -> 0 < w -> 0 < h -> (0 < m)%Q ->
  exists plan,
    pack (mkTruckRow l w h m :: rest) [mkPackageRow id m l w h f sq]
      = Some plan /\
    placements plan = [mkPlacement id 0 0 0 l w h f sq] /\
    (Util_weight_pct plan == 100)%Q /\ (Util_volume_pct plan == 100)%Q.
Proof.
  intros Hl Hw Hh Hm. unfold pack. simpl get_truck. cbv zeta.
  set (t := mkTruck l w h m).
  assert (Hstep : pack_loop t init [mkPackageRow id m l w h f sq]
                  = place (mkPackageRow id m l w h f sq) init).
  { simpl. unfold step.
    assert (Ho : over_weight t init (mkPackageRow id m l w h f sq) = false).
    { apply over_weight_false. simpl. lra. }
    rewrite Ho. unfold wrap_x. simpl.
    replace (l <? l) with false by (symmetry; apply Z.ltb_irrefl).
    unfold wrap_y. simpl.
    replace (w <? w) with false by (symmetry; apply Z.ltb_irrefl).
    simpl.
    replace (h <? h) with false by (symmetry; apply Z.ltb_irrefl).
    reflexivity. }
  eexists. split; [reflexivity |]. rewrite Hstep. simpl.
  split; [reflexivity |]. split.
  - unfold util_weight. simpl.
    destruct (Qlt_le_dec 0 m) as [_ | Hle]; [| exfalso; lra].
    rewrite (round1_comp _ 100); [reflexivity |].
    field. intro E. rewrite E in Hm. discriminate.
  - unfold util_volume, truck_volume. simpl.
    assert (Hv : 0 < l * w * h) by (apply Z.mul_pos_pos; [apply Z.mul_pos_pos |]; assumption).
    destruct (Z.ltb_spec 0 (l * w * h)) as [_ | Hle]; [| lia].
    rewrite (round1_comp _ 100); [reflexivity |].
    rewrite Z.add_0_r. field.
    intro E. unfold Qeq in E. simpl in E. lia.
Qed.

Lemma exact_fit_fills_the_truck_witness :
  exists plan,
    pack [mkTruckRow 260 160 140 2500]
         [mkPackageRow "PKG1"%string 2500 260 160 140 false 1] = Some plan /\
    placements plan = [mkPlacement "PKG1"%string 0 0 0 260 160 140 false 1] /\
    (Util_weight_pct plan == 100)%Q /\ (Util_volume_pct plan == 100)%Q.
Proof.
  apply (exact_fit_fills_the_truck 260 160 140 2500 "PKG1"%string false 1 []);
    reflexivity.
Defined.

End PackFacts.

(* ================================================================== *)
(** ** Properties of route sequencing                                   *)
(* ================================================================== *)

Module RoutingFacts.

Import Routing.
Import Lqa.
Import Sorted.
Local Open Scope Q_scope.

(** *** Lists: first and last elements of slices *)

Lemma hd_skipn (l : list nat) (i d : nat) : hd d (skipn i l) = nth i l d.
Proof.
  replace (nth i l d) with (nth (i + 0) l d) by (f_equal; lia).
  rewrite <- nth_skipn. now destruct (skipn i l).
Qed.

Lemma hd_firstn (l : list nat) (k d : nat) :
  (1 <= k)%nat -> hd d (firstn k l) = hd d l.
Proof. destruct k; [lia |]. now destruct l. Qed.

Lemma last_firstn (l : list nat) (d : nat) : forall k,
  (1 <= k <= length l)%nat -> last (firstn k l) d = nth (k - 1) l d.
Proof.
  induction l as [| a l IH]; intros k Hk; simpl in Hk; [lia |].
  destruct k as [| k]; [lia |].
  destruct k as [| k]; [now destruct l |].
  destruct l as [| b l]; [simpl in Hk; lia |].
  change (firstn (S (S k)) (a :: b :: l)) with (a :: firstn (S k) (b :: l)).
  change (last (a :: firstn (S k) (b :: l)) d) with (last (firstn (S k) (b :: l)) d).
  rewrite IH by (simpl in *; lia).
  replace (S (S k) - 1)%nat with (S (S k - 1)) by lia. reflexivity.
Qed.

Lemma last_rev (l : list nat) (d : nat) : last (rev l) d = hd d l.
Proof.
  destruct l as [| a l]; [reflexivity |]. simpl. apply last_last.
Qed.

Lemma hd_rev (l : list nat) (d : nat) : hd d (rev l) = last l d.
Proof.
  rewrite <- (rev_involutive l) at 2. now rewrite last_rev.
Qed.

Lemma hd_app (l1 l2 : list nat) (d : nat) :
  l1 <> [] -> hd d (l1 ++ l2) = hd d l1.
Proof. destruct l1; [congruence | reflexivity]. Qed.

Lemma last_app (l1 l2 : list nat) (d : nat) :
  l2 <> [] -> last (l1 ++ l2) d = last l2 d.
Proof.
  intros Hne. induction l1 as [| a l1 IH]; [reflexivity |].
  simpl. destruct (l1 ++ l2) eqn:E.
  - apply app_eq_nil in E. destruct E; congruence.
  - exact IH.
Qed.

Lemma firstn_nonempty (l : list nat) (k : nat) :
  (1 <= k)%nat -> l <> [] -> firstn k l <> [].
Proof. destruct k; [lia |]. destruct l; [congruence | discriminate]. Qed.

Lemma skipn_nonempty (l : list nat) (k : nat) :
  (k < length l)%nat -> skipn k l <> [].
Proof.
  intros Hk E. apply (f_equal (@length nat)) in E.
  rewrite length_skipn in E. simpl in E. lia.
Qed.

(** The three slices that [reverse_segment] cuts out of the list. *)
Lemma slices (l : list nat) (i j : nat) :
  (i <= j)%nat ->
  l = firstn i l ++ firstn (j + 1 - i) (skipn i l) ++ skipn (j + 1) l.
Proof.
  intros Hij.
  rewrite <- (firstn_skipn i l) at 1. f_equal.
  rewrite <- (firstn_skipn (j + 1 - i) (skipn i l)) at 1. f_equal.
  rewrite skipn_skipn. f_equal. lia.
Qed.

Lemma reverse_segment_perm (l : list nat) (i j : nat) :
  (i <= j)%nat -> Permutation (reverse_segment i j l) l.
Proof.
  intros Hij. unfold reverse_segment. rewrite (slices l i j Hij) at 4.
  apply Permutation_app_head, Permutation_app_tail.
  symmetry. apply Permutation_rev.
Qed.

Lemma reverse_segment_length (l : list nat) (i j : nat) :
  (i <= j)%nat -> length (reverse_segment i j l) = length l.
Proof.
  intros Hij. apply Permutation_length. now apply reverse_segment_perm.
Qed.

Section Distances.

Variable seg_len : nat -> nat -> Q.

Local Abbreviation route_sum := (Routing.route_sum seg_len).
Local Abbreviation route_length := (Routing.route_length seg_len).

(** *** The route length as a sum *)

Lemma route_length_from_sum (order : list nat) : forall dist,
  route_length_from seg_len dist order == dist + route_sum order.
Proof.
  induction order as [| a rest IH]; intros dist; [simpl; lra |].
  destruct rest as [| b rest]; [simpl; lra |].
  change (route_length_from seg_len dist (a :: b :: rest))
    with (route_length_from seg_len (dist + seg_len a b) (b :: rest)).
  change (route_sum (a :: b :: rest))
    with (seg_len a b + route_sum (b :: rest)).
  pose proof (IH (dist + seg_len a b)) as IH'. lra.
Qed.

Lemma route_length_sum (order : list nat) :
  route_length order == route_sum order.
Proof.
  unfold Routing.route_length.
  pose proof (route_length_from_sum order 0). lra.
Qed.

Lemma route_sum_app (l1 l2 : list nat) :
  l1 <> [] -> l2 <> [] ->
  route_sum (l1 ++ l2)
  == route_sum l1 + seg_len (last l1 O) (hd O l2) + route_sum l2.
Proof.
  intros H1 H2. induction l1 as [| a [| a' l1] IH]; [congruence | |].
  - destruct l2 as [| b l2]; [congruence |]. simpl. lra.
  - change (route_sum ((a :: a' :: l1) ++ l2))
      with (seg_len a a' + route_sum ((a' :: l1) ++ l2)).
    rewrite IH by discriminate.
    change (route_sum (a :: a' :: l1))
      with (seg_len a a' + route_sum (a' :: l1)).
    change (last (a :: a' :: l1) O) with (last (a' :: l1) O). lra.
Qed.

Section Metric.

(** The two properties of the great-circle distance that the route
    arguments use. *)
Hypothesis seg_len_sym : forall i j, seg_len i j == seg_len j i.
Hypothesis seg_len_nonneg : forall i j, 0 <= seg_len i j.

Lemma route_sum_nonneg (l : list nat) : 0 <= route_sum l.
Proof.
  induction l as [| a [| b rest] IH]; simpl; try lra.
  simpl in IH. pose proof (seg_len_nonneg a b). lra.
Qed.

Lemma route_sum_rev (l : list nat) : route_sum (rev l) == route_sum l.
Proof.
  induction l as [| a l IH]; [reflexivity |].
  destruct l as [| b l]; [reflexivity |].
  change (rev (a :: b :: l)) with (rev (b :: l) ++ [a]).
  rewrite route_sum_app; [| | discriminate].
  - rewrite IH, last_rev. simpl hd.
    change (route_sum (a :: b :: l)) with (seg_len a b + route_sum (b :: l)).
    pose proof (seg_len_sym a b). simpl route_sum at 2. lra.
  - simpl. intro E. apply app_eq_nil in E. destruct E; discriminate.
Qed.

(** Reversing a middle segment exchanges the two edges at its ends. *)
Lemma route_sum_reverse_middle (pre seg post : list nat) :
  pre <> [] -> seg <> [] -> post <> [] ->
  route_sum (pre ++ rev seg ++ post)
    + (seg_len (last pre O) (hd O seg) + seg_len (last seg O) (hd O post))
  == route_sum (pre ++ seg ++ post)
    + (seg_len (last pre O) (last seg O) + seg_len (hd O seg) (hd O post)).
Proof.
  intros Hpre Hseg Hpost.
  assert (Hrev : rev seg <> []).
  { intro E. apply (f_equal (@rev nat)) in E.
    rewrite rev_involutive in E. simpl in E. congruence. }
  assert (H1 : rev seg ++ post <> []).
  { intro E. apply app_eq_nil in E. destruct E; congruence. }
  assert (H2 : seg ++ post <> []).
  { intro E. apply app_eq_nil in E. destruct E; congruence. }
  rewrite (route_sum_app pre (rev seg ++ post)) by assumption.
  rewrite (route_sum_app pre (seg ++ post)) by assumption.
  rewrite (route_sum_app (rev seg) post) by assumption.
  rewrite (route_sum_app seg post) by assumption.
  rewrite !hd_app by assumption.
  rewrite hd_rev, last_rev, route_sum_rev.
  pose proof (seg_len_sym (hd O seg) (hd O post)). lra.
Qed.

(** *** One pass of 2-opt *)

Lemma reverse_segment_sum (best : list nat) (i j : nat) :
  (1 <= i)%nat -> (i <= j)%nat -> (j + 1 < length best)%nat ->
  route_sum (reverse_segment i j best)
    + (seg_len (nth (i - 1) best O) (nth i best O)
       + seg_len (nth j best O) (nth (j + 1) best O))
  == route_sum best
    + (seg_len (nth (i - 1) best O) (nth j best O)
       + seg_len (nth i best O) (nth (j + 1) best O)).
Proof.
  intros Hi Hij Hj.
  assert (Hbest : best <> []) by (destruct best; [simpl in Hj; lia | discriminate]).
  assert (Hpre : firstn i best <> []) by now apply firstn_nonempty.
  assert (Hskip : skipn i best <> []) by (apply skipn_nonempty; lia).
  assert (Hseg : firstn (j + 1 - i) (skipn i best) <> [])
    by (apply firstn_nonempty; [lia | assumption]).
  assert (Hpost : skipn (j + 1) best <> []) by (apply skipn_nonempty; lia).
  pose proof (route_sum_reverse_middle _ _ _ Hpre Hseg Hpost) as E.
  rewrite <- (slices best i j Hij) in E.
  rewrite (last_firstn best O i) in E by lia.
  rewrite (hd_firstn (skipn i best) (j + 1 - i) O) in E by lia.
  rewrite (last_firstn (skipn i best) O (j + 1 - i)) in E
    by (rewrite length_skipn; lia).
  rewrite !hd_skipn, nth_skipn in E.
  replace (i + (j + 1 - i - 1))%nat with j in E by lia.
  exact E.
Qed.

Lemma eps_pos : 0 < eps.
Proof. reflexivity. Qed.

Lemma pass_inv_shorter (best : list nat) (st : list nat * bool) :
  pass_inv seg_len best st -> route_sum (fst st) <= route_sum best.
Proof.
  intros (_ & _ & Hs). pose proof eps_pos.
  destruct (snd st); [lra | rewrite Hs; lra].
Qed.

Lemma try_reverse_inv (best : list nat) (i j : nat) (st : list nat * bool) :
  pass_inv seg_len best st ->
  (1 <= i)%nat -> (i <= j)%nat -> (j + 1 < length best)%nat ->
  pass_inv seg_len best (try_reverse seg_len i j st).
Proof.
  intros Hinv Hi Hij Hj.
  pose proof (pass_inv_shorter best st Hinv) as Hle.
  destruct Hinv as (Hlen & Hperm & Hs).
  unfold try_reverse.
  destruct (Qlt_le_dec _ _) as [Hacc | _]; [| now repeat split].
  split; [| split]; simpl.
  - rewrite reverse_segment_length by exact Hij. exact Hlen.
  - transitivity (fst st); [now apply reverse_segment_perm | exact Hperm].
  - pose proof (reverse_segment_sum (fst st) i j Hi Hij) as E.
    rewrite Hlen in E. specialize (E Hj). pose proof eps_pos. lra.
Qed.

Lemma fold_left_inv {A B : Type} (P : A -> Prop) (f : A -> B -> A)
  (l : list B) :
  (forall a b, In b l -> P a -> P (f a b)) ->
  forall a, P a -> P (fold_left f l a).
Proof.
  induction l as [| b l IH]; intros Hf a Ha; simpl; [exact Ha |].
  apply IH.
  - intros a' b' Hin. apply Hf. now right.
  - apply Hf; [now left | exact Ha].
Qed.

Lemma inner_loop_inv (best : list nat) (i : nat) (st : list nat * bool) :
  pass_inv seg_len best st -> (1 <= i)%nat ->
  pass_inv seg_len best (inner_loop seg_len i st).
Proof.
  intros Hinv Hi. unfold inner_loop.
  destruct Hinv as (Hlen & Hrest). rewrite Hlen.
  apply fold_left_inv; [| now split].
  intros st' j Hin Hst'. apply in_seq in Hin.
  apply try_reverse_inv; [exact Hst' | exact Hi | lia | lia].
Qed.

Lemma pass_spec (best : list nat) : pass_inv seg_len best (pass seg_len best).
Proof.
  unfold pass. apply fold_left_inv.
  - intros st i Hin Hst. apply in_seq in Hin.
    apply inner_loop_inv; [exact Hst | lia].
  - repeat split. apply Permutation_refl.
Qed.

(** *** The loop of [two_opt] *)

Lemma two_opt_loop_sound : forall fuel best r,
  two_opt_loop seg_len fuel best = Some r ->
  Permutation r best /\ route_sum r <= route_sum best /\
  pass seg_len r = (r, false).
Proof.
  induction fuel as [| fuel IH]; intros best r Hr; [discriminate |].
  simpl in Hr. pose proof (pass_spec best) as Hinv.
  pose proof (pass_inv_shorter best _ Hinv) as Hle.
  destruct Hinv as (_ & Hperm & Hs).
  destruct (pass seg_len best) as [best' improved] eqn:Hpass.
  simpl in *. destruct improved.
  - destruct (IH best' r Hr) as (Hp & Hl & Hfix). split; [| split].
    + now transitivity best'.
    + lra.
    + exact Hfix.
  - injection Hr as <-. subst best'. split; [| split].
    + apply Permutation_refl.
    + lra.
    + exact Hpass.
Qed.

Lemma two_opt_loop_mono : forall fuel fuel' best r,
  two_opt_loop seg_len fuel best = Some r -> (fuel <= fuel')%nat ->
  two_opt_loop seg_len fuel' best = Some r.
Proof.
  induction fuel as [| fuel IH]; intros fuel' best r Hr Hle; [discriminate |].
  destruct fuel' as [| fuel']; [lia |].
  simpl in *. destruct (snd (pass seg_len best)); [| exact Hr].
  apply IH; [exact Hr | lia].
Qed.

Lemma two_opt_loop_terminates : forall fuel best,
  route_sum best < inject_Z (Z.of_nat fuel) * eps ->
  exists r, two_opt_loop seg_len fuel best = Some r.
Proof.
  induction fuel as [| fuel IH]; intros best Hlt.
  - pose proof (route_sum_nonneg best).
    assert (E : inject_Z (Z.of_nat 0) * eps == 0) by reflexivity. lra.
  - simpl. pose proof (pass_spec best) as (_ & _ & Hs).
    destruct (snd (pass seg_len best)); [| eauto].
    apply IH. rewrite Nat2Z.inj_succ in Hlt. unfold Z.succ in Hlt.
    rewrite inject_Z_plus in Hlt. change (inject_Z 1) with 1 in Hlt.
    unfold eps in *. lra.
Qed.

Lemma two_opt_fuel_enough (order : list nat) :
  route_sum order < inject_Z (Z.of_nat (two_opt_fuel seg_len order)) * eps.
Proof.
  unfold two_opt_fuel.
  set (c := Qceiling (route_length order / eps)).
  pose proof (route_sum_nonneg order) as Hnn.
  pose proof (route_length_sum order) as Hsum.
  assert (Hq : route_length order / eps <= inject_Z c) by apply Qle_ceiling.
  assert (Hc : (0 <= c)%Z).
  { change 0%Z with (Qceiling 0). apply Qceiling_resp_le.
    apply Qle_shift_div_l; [apply eps_pos | lra]. }
  rewrite Nat2Z.inj_succ, Z2Nat.id by exact Hc. unfold Z.succ.
  rewrite inject_Z_plus.
  assert (Hm : route_length order <= inject_Z c * eps).
  { rewrite <- (Qmult_div_r (route_length order) eps) by discriminate.
    rewrite (Qmult_comm eps). apply Qmult_le_compat_r; [exact Hq | discriminate]. }
  change (inject_Z 1) with 1. unfold eps in *. lra.
Qed.

Lemma two_opt_returns (order : list nat) :
  exists best, two_opt seg_len order = Some best.
Proof. apply two_opt_loop_terminates, two_opt_fuel_enough. Qed.

End Metric.

(** *** Nearest-neighbour construction *)

Lemma min_scan_spec (key : nat -> Q) : forall l best,
  (min_scan key best l = best \/
   (In (min_scan key best l) l /\ key (min_scan key best l) < key best)) /\
  key (min_scan key best l) <= key best /\
  (forall j, In j l -> key (min_scan key best l) <= key j).
Proof.
  induction l as [| a rest IH]; intros best; simpl.
  - split; [now left |]. split; [lra | tauto].
  - destruct (Qlt_le_dec (key a) (key best)) as [Hlt | Hle].
    + destruct (IH a) as ([E | [Hin Hk]] & Hb & Hall).
      * rewrite E in *. split; [right; split; [now left | exact Hlt] |].
        split; [lra |]. intros j [<- | Hj]; [lra | now apply Hall].
      * split; [right; split; [now right | lra] |].
        split; [lra |]. intros j [<- | Hj]; [lra | now apply Hall].
    + destruct (IH best) as ([E | [Hin Hk]] & Hb & Hall).
      * rewrite E in *. split; [now left |].
        split; [lra |]. intros j [<- | Hj]; [lra | now apply Hall].
      * split; [right; split; [now right | exact Hk] |].
        split; [lra |]. intros j [<- | Hj]; [lra | now apply Hall].
Qed.

(** On an increasing list the first minimum is the one of lowest index. *)
Lemma min_scan_lowest (key : nat -> Q) : forall l best,
  StronglySorted lt (best :: l) ->
  forall j, In j (best :: l) -> key j == key (min_scan key best l) ->
  (min_scan key best l <= j)%nat.
Proof.
  induction l as [| a rest IH]; intros best Hs j Hj Htie.
  - simpl in *. destruct Hj as [<- | []]. lia.
  - apply StronglySorted_inv in Hs. destruct Hs as [Hs Hall].
    pose proof Hs as Hs'. apply StronglySorted_inv in Hs'.
    destruct Hs' as [Hrest Hall_a].
    inversion Hall as [| a' rest' Hba Hbrest]; subst.
    simpl in Htie |- *.
    destruct (Qlt_le_dec (key a) (key best)) as [Hlt | Hle].
    + destruct Hj as [<- | Hj].
      * destruct (min_scan_spec key rest a) as (_ & Hb & _). lra.
      * now apply IH.
    + assert (Hs2 : StronglySorted lt (best :: rest)) by now constructor.
      destruct Hj as [<- | [<- | Hj]].
      * apply IH; [exact Hs2 | now left | exact Htie].
      * destruct (min_scan_spec key rest best) as ([E | [Hin Hk]] & _ & _).
        -- rewrite E. lia.
        -- lra.
      * apply IH; [exact Hs2 | now right | exact Htie].
Qed.

Lemma py_min_spec (key : nat -> Q) (l : list nat) (m : nat) :
  py_min key l = Some m -> StronglySorted lt l ->
  In m l /\
  forall j, In j l -> key m <= key j /\ (key j == key m -> (m <= j)%nat).
Proof.
  destruct l as [| a rest]; [discriminate |]. simpl.
  intros [= <-] Hs.
  destruct (min_scan_spec key rest a) as (Hm & Hb & Hall). split.
  - destruct Hm as [-> | [Hin _]]; [now left | now right].
  - intros j Hj. split.
    + destruct Hj as [<- | Hj]; [exact Hb | now apply Hall].
    + now apply min_scan_lowest.
Qed.

Lemma remove_first_perm (v : nat) : forall l l',
  remove_first v l = Some l' -> Permutation l (v :: l').
Proof.
  induction l as [| h t IH]; intros l' Hr; [discriminate |].
  simpl in Hr. destruct (Nat.eqb_spec h v) as [-> | Hne].
  - injection Hr as <-. apply Permutation_refl.
  - destruct (remove_first v t) as [t' |]; [| discriminate].
    injection Hr as <-. rewrite (IH t' eq_refl). apply perm_swap.
Qed.

Lemma remove_first_in (v : nat) : forall l,
  In v l -> exists l', remove_first v l = Some l'.
Proof.
  induction l as [| h t IH]; intros Hin; [destruct Hin |].
  simpl. destruct (Nat.eqb_spec h v) as [-> | Hne]; [eauto |].
  destruct Hin as [-> | Hin]; [congruence |].
  destruct (IH Hin) as [t' ->]. eauto.
Qed.

Lemma remove_first_sorted (v : nat) : forall l l',
  remove_first v l = Some l' -> StronglySorted lt l -> StronglySorted lt l'.
Proof.
  induction l as [| h t IH]; intros l' Hr Hs; [discriminate |].
  apply StronglySorted_inv in Hs. destruct Hs as [Ht Hall].
  simpl in Hr. destruct (Nat.eqb h v).
  - now injection Hr as <-.
  - destruct (remove_first v t) as [t' |] eqn:Ht'; [| discriminate].
    injection Hr as <-. constructor; [now apply IH |].
    rewrite Forall_forall in *. intros j Hj. apply Hall.
    apply (Permutation_in j (Permutation_sym (remove_first_perm v t t' Ht'))).
    now right.
Qed.

Lemma seq_sorted : forall len start, StronglySorted lt (seq start len).
Proof.
  induction len as [| len IH]; intros start; simpl; constructor.
  - apply IH.
  - rewrite Forall_forall. intros j Hj. apply in_seq in Hj. lia.
Qed.

Lemma nn_loop_spec : forall fuel tour unvisited,
  StronglySorted lt unvisited -> (length unvisited <= fuel)%nat ->
  exists ext,
    nn_loop seg_len fuel tour unvisited = Some (tour ++ ext) /\
    Permutation ext unvisited /\
    greedy_from seg_len (last tour O) ext.
Proof.
  induction fuel as [| fuel IH]; intros tour unvisited Hs Hlen.
  - destruct unvisited; [| simpl in Hlen; lia].
    exists []. rewrite app_nil_r. repeat split; constructor.
  - destruct unvisited as [| a rest].
    + exists []. rewrite app_nil_r. repeat split; constructor.
    + remember (a :: rest) as unv eqn:Hunv.
      assert (Hnn : nn_loop seg_len (S fuel) tour unv =
                    match py_min (fun j => seg_len (last tour O) j) unv with
                    | None => None
                    | Some nxt =>
                        match remove_first nxt unv with
                        | None => None
                        | Some unv' => nn_loop seg_len fuel (tour ++ [nxt]) unv'
                        end
                    end) by (subst unv; reflexivity).
      rewrite Hnn. clear Hnn.
      destruct (py_min (fun j => seg_len (last tour O) j) unv) as [nxt |] eqn:Hmin;
        [| subst unv; discriminate].
      destruct (py_min_spec _ _ _ Hmin Hs) as [Hin Hbest].
      destruct (remove_first_in nxt unv Hin) as [unv' Hrem].
      rewrite Hrem.
      pose proof (remove_first_perm _ _ _ Hrem) as Hperm.
      pose proof (Permutation_length Hperm) as Hl. simpl in Hl.
      destruct (IH (tour ++ [nxt]) unv') as (ext & Hrun & Hp & Hg).
      * now apply (remove_first_sorted nxt unv).
      * lia.
      * exists (nxt :: ext). rewrite Hrun, <- app_assoc. simpl.
        split; [reflexivity |]. split.
        -- symmetry. rewrite Hperm. now constructor.
        -- split.
           ++ intros j Hj. apply Hbest.
              apply (Permutation_in j (Permutation_sym Hperm)).
              destruct Hj as [<- | Hj]; [now left | right].
              now apply (Permutation_in j Hp).
           ++ now rewrite last_last in Hg.
Qed.

Lemma nearest_neighbor_spec (n : nat) :
  exists ext,
    nearest_neighbor seg_len (S n) 0 = Some (O :: ext) /\
    Permutation (O :: ext) (seq 0 (S n)) /\
    greedy_from seg_len O ext.
Proof.
  unfold nearest_neighbor.
  change (remove_first 0 (seq 0 (S n))) with (Some (seq 1 n)).
  destruct (nn_loop_spec (S n) [O] (seq 1 n)) as (ext & Hrun & Hp & Hg).
  - apply seq_sorted.
  - rewrite length_seq. lia.
  - exists ext. split; [exact Hrun |]. split; [| exact Hg].
    simpl. now constructor.
Qed.

(** The scan of [nearest_neighbor_order] is [min] as long as every
    distance is below its initial [best_d]. *)
Lemma scan_remaining_some (last : nat) : forall l b,
  scan_remaining seg_len last (Some b) (seg_len last b) l
  = Some (min_scan (fun j => seg_len last j) b l).
Proof.
  induction l as [| a rest IH]; intros b; simpl; [reflexivity |].
  destruct (Qlt_le_dec (seg_len last a) (seg_len last b)); apply IH.
Qed.

Section Bounded.

Hypothesis seg_len_bounded : forall i j, seg_len i j < best_d0.

Lemma scan_remaining_py_min (last : nat) (l : list nat) :
  scan_remaining seg_len last None best_d0 l
  = py_min (fun j => seg_len last j) l.
Proof.
  destruct l as [| a rest]; [reflexivity |]. simpl.
  destruct (Qlt_le_dec (seg_len last a) best_d0) as [_ | Hle].
  - apply scan_remaining_some.
  - pose proof (seg_len_bounded last a). lra.
Qed.

Lemma nno_loop_nn_loop : forall fuel route_idx remaining,
  nno_loop seg_len fuel route_idx remaining
  = nn_loop seg_len fuel route_idx remaining.
Proof.
  induction fuel as [| fuel IH]; intros route_idx remaining;
    destruct remaining as [| a rest]; try reflexivity.
  remember (a :: rest) as rem eqn:Hrem.
  transitivity
    (match scan_remaining seg_len (last route_idx O) None best_d0 rem with
     | None => None
     | Some best_j =>
         match remove_first best_j rem with
         | None => None
         | Some rem' => nno_loop seg_len fuel (route_idx ++ [best_j]) rem'
         end
     end); [subst rem; reflexivity |].
  rewrite scan_remaining_py_min.
  transitivity
    (match py_min (fun j => seg_len (last route_idx O) j) rem with
     | None => None
     | Some nxt =>
         match remove_first nxt rem with
         | None => None
         | Some rem' => nn_loop seg_len fuel (route_idx ++ [nxt]) rem'
         end
     end); [| subst rem; reflexivity].
  destruct (py_min _ rem) as [nxt |]; [| reflexivity].
  destruct (remove_first nxt rem); [apply IH | reflexivity].
Qed.

Lemma nearest_neighbor_idx_spec (n : nat) :
  nearest_neighbor_idx seg_len (S n) = nearest_neighbor seg_len (S n) 0.
Proof.
  unfold nearest_neighbor_idx, nearest_neighbor.
  destruct (remove_first 0 (seq 0 (S n))); [apply nno_loop_nn_loop | reflexivity].
Qed.

End Bounded.

(** From the chain of choices to positions in the tour. *)
Lemma greedy_from_nth : forall ext a k j,
  greedy_from seg_len a ext -> (k <= j)%nat -> (j < length ext)%nat ->
  seg_len (nth k (a :: ext) O) (nth k ext O)
    <= seg_len (nth k (a :: ext) O) (nth j ext O) /\
  (seg_len (nth k (a :: ext) O) (nth j ext O)
     == seg_len (nth k (a :: ext) O) (nth k ext O) ->
   (nth k ext O <= nth j ext O)%nat).
Proof.
  induction ext as [| nxt rest IH]; intros a k j Hg Hkj Hj;
    [simpl in Hj; lia |].
  destruct Hg as [Hhere Hrest].
  destruct k as [| k].
  - apply Hhere. apply nth_In. exact Hj.
  - destruct j as [| j]; [lia |].
    change (nth (S k) (a :: nxt :: rest) O) with (nth k (nxt :: rest) O).
    change (nth (S k) (nxt :: rest) O) with (nth k rest O).
    change (nth (S j) (nxt :: rest) O) with (nth j rest O).
    apply IH; [exact Hrest | lia | simpl in Hj; lia].
Qed.

Lemma greedy_lowest_nearest (a : nat) (ext : list nat) :
  greedy_from seg_len a ext -> lowest_nearest seg_len (a :: ext).
Proof.
  intros Hg k j Hk Hkj Hj. simpl in Hj.
  destruct k as [| k]; [lia |]. destruct j as [| j]; [lia |].
  replace (S k - 1)%nat with k by lia.
  change (nth (S k) (a :: ext) O) with (nth k ext O).
  change (nth (S j) (a :: ext) O) with (nth j ext O).
  cbv zeta. apply greedy_from_nth; [exact Hg | lia | lia].
Qed.

End Distances.

Lemma map_nth_seq (ids : list Z) :
  map (fun i => nth i ids 0%Z) (seq 0 (length ids)) = ids.
Proof.
  apply nth_ext with (d := nth O ids 0%Z) (d' := 0%Z).
  - now rewrite length_map, length_seq.
  - intros n Hn. rewrite length_map, length_seq in Hn.
    rewrite (map_nth (fun i => nth i ids 0%Z) (seq 0 (length ids)) O n).
    now rewrite seq_nth.
Qed.

Lemma map_nth_perm (ids : list Z) (order : list nat) :
  Permutation order (seq 0 (length ids)) ->
  Permutation (map (fun i => nth i ids 0%Z) order) ids.
Proof.
  intros Hp.
  apply Permutation_trans
    with (map (fun i => nth i ids 0%Z) (seq 0 (length ids))).
  - now apply Permutation_map.
  - rewrite map_nth_seq. apply Permutation_refl.
Qed.

(** *** The example metric *)

Lemma square_km_sym (i j : nat) : square_km i j == square_km j i.
Proof.
  unfold square_km. now rewrite (Nat.eqb_sym i j), (Nat.add_comm i j).
Qed.

Lemma square_km_nonneg (i j : nat) : 0 <= square_km i j.
Proof.
  unfold square_km.
  destruct (Nat.eqb i j), (Nat.eqb (i + j) 1), (Nat.eqb (i + j) 5);
    discriminate.
Qed.

Lemma square_km_bounded (i j : nat) : square_km i j < best_d0.
Proof.
  unfold square_km.
  destruct (Nat.eqb i j), (Nat.eqb (i + j) 1), (Nat.eqb (i + j) 5);
    reflexivity.
Qed.

(** Stops 2 and 3 are equally near to stop 0; stop 2 is taken. *)
Example nearest_neighbor_square :
  nearest_neighbor square_km 4 0 = Some [0; 2; 1; 3]%nat /\
  nearest_neighbor_idx square_km 4 = Some [0; 2; 1; 3]%nat.
Proof. split; reflexivity. Qed.

(** The crossed tour is uncrossed by one reversal. *)
Example two_opt_square :
  two_opt_loop square_km 2 [0; 1; 2; 3]%nat = Some [0; 2; 1; 3]%nat /\
  route_length square_km [0; 1; 2; 3]%nat == 38 # 10 /\
  route_length square_km [0; 2; 1; 3]%nat == 3.
Proof. repeat split; reflexivity. Qed.

(** *** The claims about route sequencing *)

(** C3.  For a symmetric, non-negative distance (as the great-circle
    distance is), [two_opt] returns an order whose route length, summed
    again along consecutive stops, is at most that of its input order;
    the same holds of the result of the loop after any number of
    passes. *)
Theorem two_opt_not_longer (seg_len : nat -> nat -> Q) (order : list nat) :
  (forall i j, seg_len i j == seg_len j i) ->
  (forall i j, 0 <= seg_len i j) ->
  (exists best,
     two_opt seg_len order = Some best /\
     route_length seg_len best <= route_length seg_len order) /\
  (forall fuel best,
     two_opt_loop seg_len fuel order = Some best ->
     route_length seg_len best <= route_length seg_len order).
Proof.
  intros Hsym Hnn.
  assert (Hany : forall fuel best,
             two_opt_loop seg_len fuel order = Some best ->
             route_length seg_len best <= route_length seg_len order).
  { intros fuel best Hr.
    destruct (two_opt_loop_sound seg_len Hsym fuel order best Hr) as (_ & Hle & _).
    rewrite !route_length_sum. exact Hle. }
  split; [| exact Hany].
  destruct (two_opt_returns seg_len Hsym Hnn order) as [best Hbest].
  exists best. split; [exact Hbest |]. exact (Hany _ _ Hbest).
Qed.

Lemma two_opt_not_longer_witness :
  exists best,
    two_opt square_km [0; 1; 2; 3]%nat = Some best /\
    route_length square_km best <= route_length square_km [0; 1; 2; 3]%nat.
Proof.
  exact (proj1 (two_opt_not_longer square_km [0; 1; 2; 3]%nat
                  square_km_sym square_km_nonneg)).
Defined.

(** C4.  For a non-empty list of stops the identifiers written back by
    [recompute_dispatch_sequence] (nearest neighbour, then 2-opt) are a
    permutation of the input identifiers, without duplicates when the
    input has none; so are those returned by [nearest_neighbor_order]. *)
Theorem sequence_is_permutation
  (seg_len seg_len' : nat -> nat -> Q) (stop_ids : list Z) :
  stop_ids <> [] ->
  (forall i j, seg_len i j == seg_len j i) ->
  (forall i j, 0 <= seg_len i j) ->
  (forall i j, seg_len' i j < best_d0) ->
  (exists order,
     recompute_dispatch_sequence seg_len stop_ids = Some order /\
     Permutation order stop_ids /\ (NoDup stop_ids -> NoDup order)) /\
  (exists order,
     nearest_neighbor_order seg_len' stop_ids = Some order /\
     Permutation order stop_ids /\ (NoDup stop_ids -> NoDup order)).
Proof.
  intros Hne Hsym Hnn Hbound.
  destruct stop_ids as [| id0 ids]; [congruence |].
  set (stop_ids := id0 :: ids) in *.
  assert (Hlen : length stop_ids = S (length ids)) by reflexivity.
  split.
  - destruct (nearest_neighbor_spec seg_len (length ids))
      as (ext & Hrun & Hperm & _).
    destruct (two_opt_returns seg_len Hsym Hnn (O :: ext)) as [best Hbest].
    destruct (two_opt_loop_sound seg_len Hsym _ _ _ Hbest) as (Hpb & _ & _).
    exists (map (fun idx => nth idx stop_ids 0%Z) best).
    assert (Hp : Permutation (map (fun idx => nth idx stop_ids 0%Z) best) stop_ids).
    { apply map_nth_perm. rewrite Hlen. now transitivity (O :: ext). }
    split; [| split; [exact Hp |]].
    + unfold recompute_dispatch_sequence, best_order. subst stop_ids.
      simpl length. rewrite Hrun. fold (two_opt seg_len (O :: ext)).
      rewrite Hbest. reflexivity.
    + intros Hnd. apply (Permutation_NoDup (Permutation_sym Hp) Hnd).
  - destruct (nearest_neighbor_spec seg_len' (length ids))
      as (ext & Hrun & Hperm & _).
    exists (map (fun i => nth i stop_ids 0%Z) (O :: ext)).
    assert (Hp : Permutation (map (fun i => nth i stop_ids 0%Z) (O :: ext)) stop_ids).
    { apply map_nth_perm. now rewrite Hlen. }
    split; [| split; [exact Hp |]].
    + unfold nearest_neighbor_order. rewrite Hlen.
      rewrite (nearest_neighbor_idx_spec seg_len' Hbound), Hrun. reflexivity.
    + intros Hnd. apply (Permutation_NoDup (Permutation_sym Hp) Hnd).
Qed.

Lemma sequence_is_permutation_witness :
  (exists order,
     recompute_dispatch_sequence square_km [101; 102; 103; 104]%Z = Some order /\
     Permutation order [101; 102; 103; 104]%Z /\
     (NoDup [101; 102; 103; 104]%Z -> NoDup order)) /\
  (exists order,
     nearest_neighbor_order square_km [101; 102; 103; 104]%Z = Some order /\
     Permutation order [101; 102; 103; 104]%Z /\
     (NoDup [101; 102; 103; 104]%Z -> NoDup order)).
Proof.
  apply (sequence_is_permutation square_km square_km [101; 102; 103; 104]%Z).
  - discriminate.
  - exact square_km_sym.
  - exact square_km_nonneg.
  - exact square_km_bounded.
Defined.

(** C5.  For a symmetric, non-negative distance the sequencing of a
    non-empty set of stops terminates: the nearest-neighbour loop returns
    after one iteration per remaining stop, and the loop of [two_opt],
    which has no cap, returns the same order for every number of allowed
    passes from [two_opt_fuel] on, after a pass that accepts no reversal.
    The reason is the one given: a pass that accepts a reversal shortens
    the route by more than [eps], and no route is shorter than 0. *)
Theorem sequencing_terminates (seg_len : nat -> nat -> Q) (n : nat) :
  (forall i j, seg_len i j == seg_len j i) ->
  (forall i j, 0 <= seg_len i j) ->
  (exists nn_order best,
     nearest_neighbor seg_len (S n) 0 = Some nn_order /\
     (forall fuel, (two_opt_fuel seg_len nn_order <= fuel)%nat ->
        two_opt_loop seg_len fuel nn_order = Some best) /\
     pass seg_len best = (best, false)) /\
  (forall order, exists best,
     (forall fuel, (two_opt_fuel seg_len order <= fuel)%nat ->
        two_opt_loop seg_len fuel order = Some best) /\
     pass seg_len best = (best, false)) /\
  (forall order,
     snd (pass seg_len order) = true ->
     route_length seg_len (fst (pass seg_len order)) + eps
     < route_length seg_len order) /\
  (forall order, 0 <= route_length seg_len order).
Proof.
  intros Hsym Hnn.
  assert (Hall : forall order, exists best,
             (forall fuel, (two_opt_fuel seg_len order <= fuel)%nat ->
                two_opt_loop seg_len fuel order = Some best) /\
             pass seg_len best = (best, false)).
  { intros order.
    destruct (two_opt_returns seg_len Hsym Hnn order) as [best Hbest].
    exists best. split.
    - intros fuel Hfuel.
      now apply (two_opt_loop_mono seg_len (two_opt_fuel seg_len order)).
    - now destruct (two_opt_loop_sound seg_len Hsym _ _ _ Hbest) as (_ & _ & Hfix). }
  split; [| split; [exact Hall | split]].
  - destruct (nearest_neighbor_spec seg_len n) as (ext & Hrun & _).
    destruct (Hall (O :: ext)) as (best & Hfuel & Hfix).
    exists (O :: ext), best. now repeat split.
  - intros order Himp.
    destruct (pass_spec seg_len Hsym order) as (_ & _ & Hs).
    rewrite Himp in Hs. rewrite !route_length_sum. exact Hs.
  - intros order. rewrite route_length_sum. now apply route_sum_nonneg.
Qed.

Lemma sequencing_terminates_witness :
  exists nn_order best,
    nearest_neighbor square_km 4 0 = Some nn_order /\
    (forall fuel, (two_opt_fuel square_km nn_order <= fuel)%nat ->
       two_opt_loop square_km fuel nn_order = Some best) /\
    pass square_km best = (best, false).
Proof.
  exact (proj1 (sequencing_terminates square_km 3
                  square_km_sym square_km_nonneg)).
Defined.

(** C9.  In the nearest-neighbour tour every stop after the first is
    nearest to the stop before it among the stops not yet visited (those
    at its own and at later positions), and among the ones that are
    exactly as near it has the lowest input index; this holds of
    [nearest_neighbor] and, distances being below the initial [best_d],
    of the row order built by [nearest_neighbor_order]. *)
Theorem nearest_neighbor_tie_break
  (seg_len seg_len' : nat -> nat -> Q) (n : nat) :
  (forall i j, seg_len' i j < best_d0) ->
  (exists tour,
     nearest_neighbor seg_len (S n) 0 = Some tour /\
     Permutation tour (seq 0 (S n)) /\
     lowest_nearest seg_len tour) /\
  (exists route_idx,
     nearest_neighbor_idx seg_len' (S n) = Some route_idx /\
     Permutation route_idx (seq 0 (S n)) /\
     lowest_nearest seg_len' route_idx).
Proof.
  intros Hbound. split.
  - destruct (nearest_neighbor_spec seg_len n) as (ext & Hrun & Hperm & Hg).
    exists (O :: ext). split; [exact Hrun | split; [exact Hperm |]].
    now apply greedy_lowest_nearest.
  - destruct (nearest_neighbor_spec seg_len' n) as (ext & Hrun & Hperm & Hg).
    exists (O :: ext). rewrite (nearest_neighbor_idx_spec seg_len' Hbound).
    split; [exact Hrun | split; [exact Hperm |]].
    now apply greedy_lowest_nearest.
Qed.

Lemma nearest_neighbor_tie_break_witness :
  (exists tour,
     nearest_neighbor square_km 4 0 = Some tour /\
     Permutation tour (seq 0 4) /\
     lowest_nearest square_km tour) /\
  (exists route_idx,
     nearest_neighbor_idx square_km 4 = Some route_idx /\
     Permutation route_idx (seq 0 4) /\
     lowest_nearest square_km route_idx).
Proof.
  exact (nearest_neighbor_tie_break square_km square_km 3 square_km_bounded).
Defined.

(** *** Further properties of [two_opt] *)

Lemma last_skipn (l : list nat) (k d : nat) :
  (k < length l)%nat -> last (skipn k l) d = last l d.
Proof.
  intros Hk. rewrite <- (firstn_skipn k l) at 2.
  symmetry. apply last_app. now apply skipn_nonempty.
Qed.

Lemma reverse_segment_ends (l : list nat) (i j d : nat) :
  (1 <= i)%nat -> (i <= j)%nat -> (j + 1 < length l)%nat ->
  hd d (reverse_segment i j l) = hd d l /\
  last (reverse_segment i j l) d = last l d.
Proof.
  intros Hi Hij Hj. unfold reverse_segment.
  assert (Hl : l <> []) by (destruct l; [simpl in Hj; lia | discriminate]).
  assert (Hpost : skipn (j + 1) l <> []) by (apply skipn_nonempty; lia).
  split.
  - rewrite hd_app by now apply firstn_nonempty. now apply hd_firstn.
  - rewrite app_assoc, last_app by exact Hpost. apply last_skipn. lia.
Qed.

(** A pass changes neither the length of the list nor its two ends. *)
Lemma pass_ends (seg_len : nat -> nat -> Q) (best : list nat) (d : nat) :
  length (fst (pass seg_len best)) = length best /\
  hd d (fst (pass seg_len best)) = hd d best /\
  last (fst (pass seg_len best)) d = last best d.
Proof.
  unfold pass.
  apply (fold_left_inv
           (fun st => length (fst st) = length best /\
                      hd d (fst st) = hd d best /\
                      last (fst st) d = last best d)).
  - intros st i Hi Hst. apply in_seq in Hi. unfold inner_loop.
    destruct Hst as (Hlen & Hst). rewrite Hlen.
    apply fold_left_inv; [| now split].
    intros st' j Hj (Hlen' & Hhd & Hlast). apply in_seq in Hj.
    unfold try_reverse. destruct (Qlt_le_dec _ _); [| now repeat split].
    simpl.
    destruct (reverse_segment_ends (fst st') i j d) as [E1 E2]; try lia.
    rewrite reverse_segment_length by lia. rewrite E1, E2. now repeat split.
  - now repeat split.
Qed.

Lemma two_opt_loop_ends (seg_len : nat -> nat -> Q) (d : nat) :
  forall fuel order best,
    two_opt_loop seg_len fuel order = Some best ->
    length best = length order /\
    hd d best = hd d order /\ last best d = last order d.
Proof.
  induction fuel as [| fuel IH]; intros order best Hr; [discriminate |].
  simpl in Hr. destruct (pass_ends seg_len order d) as (Hl & Hh & Ht).
  destruct (snd (pass seg_len order)).
  - destruct (IH _ _ Hr) as (Hl' & Hh' & Ht'). repeat split; congruence.
  - injection Hr as <-. now repeat split.
Qed.

(** A step of the scan that leaves the flag unset has changed nothing. *)
Lemma try_reverse_unset (seg_len : nat -> nat -> Q) (i j : nat)
  (st : list nat * bool) :
  snd (try_reverse seg_len i j st) = false -> try_reverse seg_len i j st = st.
Proof.
  unfold try_reverse. destruct (Qlt_le_dec _ _); [discriminate | reflexivity].
Qed.

Lemma fold_left_unset {A B : Type} (f : A * bool -> B -> A * bool)
  (l : list B) :
  (forall st b, snd (f st b) = false -> f st b = st) ->
  forall st, snd (fold_left f l st) = false ->
    fold_left f l st = st /\ forall b, In b l -> f st b = st.
Proof.
  intros Hf. induction l as [| b l IH]; intros st Hs; simpl in *.
  - split; [reflexivity | tauto].
  - destruct (IH _ Hs) as [E Hall].
    assert (Eb : f st b = st) by (apply Hf; rewrite <- E; exact Hs).
    rewrite Eb in *. split; [exact E |].
    intros b' [<- | Hin]; [exact Eb | now apply Hall].
Qed.

Lemma inner_loop_unset (seg_len : nat -> nat -> Q) (i : nat)
  (st : list nat * bool) :
  snd (inner_loop seg_len i st) = false -> inner_loop seg_len i st = st.
Proof.
  unfold inner_loop. intros Hs.
  now apply (fold_left_unset (fun st j => try_reverse seg_len i j st)
               (seq (i + 1) (length (fst st) - 1 - (i + 1)))
               (fun st j => try_reverse_unset seg_len i j st)).
Qed.

(** After a pass that accepted nothing, no reversal is acceptable. *)
Lemma pass_fixed_optimal (seg_len : nat -> nat -> Q) (best : list nat) :
  pass seg_len best = (best, false) ->
  forall i j, (1 <= i)%nat -> (i < j)%nat -> (j + 1 < length best)%nat ->
    seg_len (nth (i - 1) best O) (nth i best O)
      + seg_len (nth j best O) (nth (j + 1) best O)
    <= seg_len (nth (i - 1) best O) (nth j best O)
      + seg_len (nth i best O) (nth (j + 1) best O) + eps.
Proof.
  intros Hpass i j Hi Hij Hj.
  unfold pass in Hpass.
  destruct (fold_left_unset (fun st i => inner_loop seg_len i st)
              (seq 1 (length best - 2 - 1))
              (fun st i => inner_loop_unset seg_len i st)
              (best, false)) as [_ Hall].
  { now rewrite Hpass. }
  assert (Hin : inner_loop seg_len i (best, false) = (best, false)).
  { apply Hall. apply in_seq. lia. }
  unfold inner_loop in Hin.
  destruct (fold_left_unset (fun st j => try_reverse seg_len i j st)
              (seq (i + 1) (length best - 1 - (i + 1)))
              (fun st j => try_reverse_unset seg_len i j st)
              (best, false)) as [_ Hall'].
  { simpl in Hin. now rewrite Hin. }
  assert (Htry : try_reverse seg_len i j (best, false) = (best, false)).
  { apply Hall'. apply in_seq. simpl. lia. }
  unfold try_reverse in Htry. simpl in Htry.
  destruct (Qlt_le_dec _ _) as [_ | Hle]; [discriminate | exact Hle].
Qed.

Lemma short_order_pass (seg_len : nat -> nat -> Q) (order : list nat) :
  (length order <= 3)%nat -> pass seg_len order = (order, false).
Proof.
  intros Hlen. unfold pass.
  replace (length order - 2 - 1)%nat with O by lia. reflexivity.
Qed.

(** *** Further properties of the nearest-neighbour construction *)

Lemma remove_first_none (v : nat) : forall l,
  remove_first v l = None <-> ~ In v l.
Proof.
  intros l. split.
  - intros Hn Hin. destruct (remove_first_in v l Hin) as [l' E]. congruence.
  - induction l as [| h t IH]; intros Hnin; [reflexivity |].
    simpl. destruct (Nat.eqb_spec h v) as [-> | Hne].
    + exfalso. apply Hnin. now left.
    + rewrite IH; [reflexivity |]. intro Hin. apply Hnin. now right.
Qed.



Lemma combine_fst {A B : Type} (l1 : list A) : forall (l2 : list B),
  length l1 = length l2 -> map fst (combine l1 l2) = l1.
Proof.
  induction l1 as [| a l1 IH]; intros [| b l2] Hlen; simpl in *;
    try reflexivity; try discriminate.
  f_equal. apply IH. lia.
Qed.

Lemma combine_snd {A B : Type} (l1 : list A) : forall (l2 : list B),
  length l1 = length l2 -> map snd (combine l1 l2) = l2.
Proof.
  induction l1 as [| a l1 IH]; intros [| b l2] Hlen; simpl in *;
    try reflexivity; try discriminate.
  f_equal. apply IH. lia.
Qed.

Lemma enumerate1_fst {A : Type} (l : list A) :
  map fst (enumerate1 l) = map Z.of_nat (seq 1 (length l)).
Proof.
  unfold enumerate1. apply combine_fst.
  now rewrite length_map, length_seq.
Qed.

Lemma enumerate1_snd {A : Type} (l : list A) :
  map snd (enumerate1 l) = l.
Proof.
  unfold enumerate1. apply combine_snd.
  now rewrite length_map, length_seq.
Qed.

Lemma scan_remaining_far (seg_len : nat -> nat -> Q) (last : nat) :
  (forall j, best_d0 <= seg_len last j) ->
  forall l, scan_remaining seg_len last None best_d0 l = None.
Proof.
  intros Hfar. induction l as [| j rest IH]; simpl; [reflexivity |].
  destruct (Qlt_le_dec (seg_len last j) best_d0) as [Hlt | _]; [| exact IH].
  pose proof (Hfar j). lra.
Qed.

Lemma coord_from_none (s : Z) : forall l i,
  ~ In s l -> coord_from i l s = None.
Proof.
  induction l as [| h t IH]; intros i Hnin; simpl; [reflexivity |].
  rewrite IH by (intro Hin; apply Hnin; now right).
  destruct (Z.eqb_spec h s) as [-> | _]; [| reflexivity].
  exfalso. apply Hnin. now left.
Qed.

Lemma coord_from_nth : forall l, NoDup l ->
  forall i k, (k < length l)%nat ->
    coord_from i l (nth k l 0%Z) = Some (i + k)%nat.
Proof.
  induction 1 as [| h t Hnin Hnd IH]; intros i k Hk; simpl in Hk; [lia |].
  destruct k as [| k]; simpl.
  - rewrite coord_from_none by exact Hnin. rewrite Z.eqb_refl.
    f_equal. lia.
  - rewrite IH by lia. f_equal. lia.
Qed.

Lemma coord_nth (l : list Z) (k : nat) :
  NoDup l -> (k < length l)%nat -> coord l (nth k l 0%Z) = Some k.
Proof. intros Hnd Hk. unfold coord. now rewrite coord_from_nth. Qed.

Lemma total_from_cons (seg_len : nat -> nat -> Q) (ids : list Z) (dist : Q)
  (s1 s2 : Z) (rest : list Z) :
  total_from seg_len ids dist (s1 :: s2 :: rest)
  = match coord ids s1 with
    | None => None
    | Some i =>
        match coord ids s2 with
        | None => None
        | Some j => total_from seg_len ids (dist + seg_len i j) (s2 :: rest)
        end
    end.
Proof. reflexivity. Qed.

(** With distinct identifiers, looking the stops up by identifier gives
    the sum over the rows. *)
Lemma total_from_idx (seg_len : nat -> nat -> Q) (ids : list Z) :
  NoDup ids ->
  forall idxs dist,
    Forall (fun i => (i < length ids)%nat) idxs ->
    total_from seg_len ids dist (map (fun i => nth i ids 0%Z) idxs)
    = Some (route_length_from seg_len dist idxs).
Proof.
  intros Hnd. induction idxs as [| a rest IH]; intros dist Hall;
    [reflexivity |].
  destruct rest as [| b rest]; [reflexivity |].
  inversion Hall as [| a' l' Ha Hrest]; subst.
  inversion Hrest as [| b' l'' Hb _]; subst.
  specialize (IH (dist + seg_len a b) Hrest).
  change (map (fun i => nth i ids 0%Z) (a :: b :: rest))
    with (nth a ids 0%Z :: nth b ids 0%Z :: map (fun i => nth i ids 0%Z) rest).
  change (map (fun i => nth i ids 0%Z) (b :: rest))
    with (nth b ids 0%Z :: map (fun i => nth i ids 0%Z) rest) in IH.
  rewrite (total_from_cons seg_len ids dist).
  rewrite !coord_nth by assumption. exact IH.
Qed.

Lemma total_route_km_idx (seg_len : nat -> nat -> Q) (ids : list Z)
  (idxs : list nat) :
  NoDup ids -> Forall (fun i => (i < length ids)%nat) idxs ->
  total_route_km seg_len ids (map (fun i => nth i ids 0%Z) idxs)
  = Some (route_length seg_len idxs).
Proof.
  intros Hnd Hall. unfold total_route_km, route_length.
  rewrite length_map.
  destruct (Nat.ltb_spec (length idxs) 2) as [Hlt | _].
  - destruct idxs as [| a [| b rest]]; try reflexivity. simpl in Hlt. lia.
  - now apply total_from_idx.
Qed.

(** The row order of [nearest_neighbor_order] and what it returns. *)
Lemma nearest_neighbor_order_value
  (seg_len : nat -> nat -> Q) (id0 : Z) (ids : list Z) :
  (forall i j, seg_len i j < best_d0) ->
  exists ext,
    Permutation (O :: ext) (seq 0 (S (length ids))) /\
    nearest_neighbor_order seg_len (id0 :: ids)
    = Some (map (fun i => nth i (id0 :: ids) 0%Z) (O :: ext)).
Proof.
  intros Hbound.
  destruct (nearest_neighbor_spec seg_len (length ids)) as (ext & Hrun & Hperm & _).
  exists ext. split; [exact Hperm |].
  unfold nearest_neighbor_order. simpl length.
  now rewrite (nearest_neighbor_idx_spec seg_len Hbound), Hrun.
Qed.

(** The report of [recompute_dispatch_sequence], field by field. *)
Lemma recompute_report_value
  (seg_len : nat -> nat -> Q) (id0 : Z) (ids : list Z) :
  (forall i j, seg_len i j == seg_len j i) ->
  (forall i j, 0 <= seg_len i j) ->
  exists best rep,
    Permutation best (seq 0 (S (length ids))) /\
    recompute_report seg_len (id0 :: ids) = Some rep /\
    new_dist_km rep = route_length seg_len best /\
    rows rep = enumerate1 (map (fun i => nth i (id0 :: ids) 0%Z) best).
Proof.
  intros Hsym Hnn.
  destruct (nearest_neighbor_spec seg_len (length ids)) as (ext & Hrun & Hperm & _).
  destruct (two_opt_returns seg_len Hsym Hnn (O :: ext)) as [best Hbest].
  destruct (two_opt_loop_sound seg_len Hsym _ _ _ Hbest) as (Hpb & _ & _).
  exists best. eexists. split; [now transitivity (O :: ext) |].
  split.
  - unfold recompute_report. cbv zeta. simpl length.
    rewrite Hrun, Hbest. reflexivity.
  - split; reflexivity.
Qed.

(** *** Further properties of route sequencing *)

(** X7.  For a symmetric, non-negative distance, [two_opt] returns an
    order of the same length whose first and last stops are those of its
    input: only the stops in between are rearranged.  So the order
    computed by [recompute_dispatch_sequence] begins with the first stop
    of the data frame. *)
Theorem two_opt_keeps_ends (seg_len : nat -> nat -> Q) (order : list nat) :
  (forall i j, seg_len i j == seg_len j i) ->
  (forall i j, 0 <= seg_len i j) ->
  (exists best,
     two_opt seg_len order = Some best /\
     length best = length order /\
     hd O best = hd O order /\ last best O = last order O) /\
  (forall n, exists best,
     best_order seg_len (S n) = Some best /\ hd 1%nat best = O).
Proof.
  intros Hsym Hnn. split.
  - destruct (two_opt_returns seg_len Hsym Hnn order) as [best Hbest].
    exists best. split; [exact Hbest |].
    exact (two_opt_loop_ends seg_len O _ _ _ Hbest).
  - intros n. unfold best_order.
    destruct (nearest_neighbor_spec seg_len n) as (ext & Hrun & _).
    rewrite Hrun.
    destruct (two_opt_returns seg_len Hsym Hnn (O :: ext)) as [best Hbest].
    exists best. split; [exact Hbest |].
    now destruct (two_opt_loop_ends seg_len 1%nat _ _ _ Hbest) as (_ & Hh & _).
Qed.

Lemma two_opt_keeps_ends_witness :
  exists best,
    two_opt square_km [0; 1; 2; 3]%nat = Some best /\
    length best = length [0; 1; 2; 3]%nat /\
    hd O best = hd O [0; 1; 2; 3]%nat /\
    last best O = last [0; 1; 2; 3]%nat O.
Proof.
  exact (proj1 (two_opt_keeps_ends square_km [0; 1; 2; 3]%nat
                  square_km_sym square_km_nonneg)).
Defined.

(** X8.  For a symmetric, non-negative distance, the order returned by
    [two_opt] is a local optimum: reversing any segment [i..j] with
    [1 <= i < j <= n - 2] would not shorten the route by more than
    [eps]; and [two_opt] applied to its result returns it unchanged. *)
Theorem two_opt_local_optimum (seg_len : nat -> nat -> Q) (order : list nat) :
  (forall i j, seg_len i j == seg_len j i) ->
  (forall i j, 0 <= seg_len i j) ->
  exists best,
    two_opt seg_len order = Some best /\
    (forall i j, (1 <= i)%nat -> (i < j)%nat -> (j + 1 < length best)%nat ->
       seg_len (nth (i - 1) best O) (nth i best O)
         + seg_len (nth j best O) (nth (j + 1) best O)
       <= seg_len (nth (i - 1) best O) (nth j best O)
         + seg_len (nth i best O) (nth (j + 1) best O) + eps) /\
    two_opt seg_len best = Some best.
Proof.
  intros Hsym Hnn.
  destruct (two_opt_returns seg_len Hsym Hnn order) as [best Hbest].
  destruct (two_opt_loop_sound seg_len Hsym _ _ _ Hbest) as (_ & _ & Hfix).
  exists best. split; [exact Hbest |]. split.
  - now apply pass_fixed_optimal.
  - unfold two_opt, two_opt_fuel. simpl. now rewrite Hfix.
Qed.

Lemma two_opt_local_optimum_witness :
  exists best,
    two_opt square_km [0; 1; 2; 3]%nat = Some best /\
    (forall i j, (1 <= i)%nat -> (i < j)%nat -> (j + 1 < length best)%nat ->
       square_km (nth (i - 1) best O) (nth i best O)
         + square_km (nth j best O) (nth (j + 1) best O)
       <= square_km (nth (i - 1) best O) (nth j best O)
         + square_km (nth i best O) (nth (j + 1) best O) + eps) /\
    two_opt square_km best = Some best.
Proof.
  exact (two_opt_local_optimum square_km [0; 1; 2; 3]%nat
           square_km_sym square_km_nonneg).
Defined.

(** X9.  An order of at most three stops leaves [two_opt] nothing to
    try: it is returned unchanged, whatever the distances. *)
Theorem short_order_unchanged (seg_len : nat -> nat -> Q) (order : list nat) :
  (length order <= 3)%nat ->
  two_opt seg_len order = Some order /\
  (forall fuel, two_opt_loop seg_len (S fuel) order = Some order).
Proof.
  intros Hlen.
  assert (Hall : forall fuel, two_opt_loop seg_len (S fuel) order = Some order).
  { intros fuel. simpl. now rewrite (short_order_pass seg_len order Hlen). }
  split; [apply Hall | exact Hall].
Qed.

Lemma short_order_unchanged_witness :
  two_opt square_km [2; 0; 1]%nat = Some [2; 0; 1]%nat /\
  (forall fuel, two_opt_loop square_km (S fuel) [2; 0; 1]%nat
                = Some [2; 0; 1]%nat).
Proof.
  apply (short_order_unchanged square_km [2; 0; 1]%nat). simpl. lia.
Defined.

(** X10.  [nearest_neighbor(coords, start_idx)] fails (the [KeyError] of
    [unvisited.remove(start_idx)]) exactly when [start_idx] is not an
    index of [coords], in particular for empty [coords]; otherwise it
    returns a tour of all [n] indices, each once, beginning with
    [start_idx]. *)
Theorem nearest_neighbor_start_index
  (seg_len : nat -> nat -> Q) (n start_idx : nat) :
  (nearest_neighbor seg_len n start_idx = None <-> (n <= start_idx)%nat) /\
  ((start_idx < n)%nat ->
   exists tour,
     nearest_neighbor seg_len n start_idx = Some tour /\
     hd n tour = start_idx /\
     length tour = n /\
     Permutation tour (seq 0 n)).
Proof.
  assert (Hsome : (start_idx < n)%nat ->
            exists tour,
              nearest_neighbor seg_len n start_idx = Some tour /\
              hd n tour = start_idx /\ length tour = n /\
              Permutation tour (seq 0 n)).
  { intros Hlt. unfold nearest_neighbor.
    destruct (remove_first_in start_idx (seq 0 n)) as [unv Hrem].
    { apply in_seq. lia. }
    rewrite Hrem.
    pose proof (remove_first_perm _ _ _ Hrem) as Hperm.
    pose proof (Permutation_length Hperm) as Hlen.
    rewrite length_seq in Hlen. simpl in Hlen.
    destruct (nn_loop_spec seg_len n [start_idx] unv) as (ext & Hrun & Hp & _).
    - apply (remove_first_sorted start_idx (seq 0 n)); [exact Hrem |].
      apply seq_sorted.
    - lia.
    - exists (start_idx :: ext). split; [exact Hrun |].
      split; [reflexivity |].
      assert (Hfull : Permutation (start_idx :: ext) (seq 0 n)).
      { rewrite Hperm. now constructor. }
      split; [| exact Hfull].
      rewrite (Permutation_length Hfull). apply length_seq. }
  split; [| exact Hsome].
  split.
  - intros Hnone. destruct (Nat.le_gt_cases n start_idx) as [Hle | Hlt];
      [exact Hle |].
    destruct (Hsome Hlt) as (tour & Hrun & _). congruence.
  - intros Hle. unfold nearest_neighbor.
    assert (E : remove_first start_idx (seq 0 n) = None).
    { apply remove_first_none. intro Hin. apply in_seq in Hin. lia. }
    now rewrite E.
Qed.

Lemma nearest_neighbor_start_index_witness :
  exists tour,
    nearest_neighbor square_km 4 2 = Some tour /\
    hd 4%nat tour = 2%nat /\
    length tour = 4%nat /\
    Permutation tour (seq 0 4).
Proof.
  apply (nearest_neighbor_start_index square_km 4 2). lia.
Defined.

(** The exact sum of the legs of a route is that of the same route
    travelled backwards, for a symmetric distance. *)
Lemma route_length_rev_exact (seg_len : nat -> nat -> Q) (order : list nat) :
  (forall i j, seg_len i j == seg_len j i) ->
  route_length seg_len (rev order) == route_length seg_len order.
Proof.
  intros Hsym. rewrite !route_length_sum. now apply route_sum_rev.
Qed.

(** X12.  [nearest_neighbor_order] returns the empty list for an empty
    data frame and otherwise, distances being below the initial
    [best_d], a list of as many identifiers as there are stops that
    begins with the identifier of the first row. *)
Theorem nearest_neighbor_order_starts_at_first
  (seg_len : nat -> nat -> Q) (id0 : Z) (ids : list Z) :
  (forall i j, seg_len i j < best_d0) ->
  nearest_neighbor_order seg_len [] = Some [] /\
  exists others,
    nearest_neighbor_order seg_len (id0 :: ids) = Some (id0 :: others) /\
    length others = length ids.
Proof.
  intros Hbound. split; [reflexivity |].
  unfold nearest_neighbor_order. simpl length.
  rewrite (nearest_neighbor_idx_spec seg_len Hbound).
  destruct (nearest_neighbor_spec seg_len (length ids)) as (ext & Hrun & Hperm & _).
  rewrite Hrun. simpl map. eexists. split; [reflexivity |].
  rewrite length_map.
  apply Permutation_length in Hperm. rewrite length_seq in Hperm.
  simpl in Hperm. lia.
Qed.

Lemma nearest_neighbor_order_starts_at_first_witness :
  nearest_neighbor_order square_km [] = Some [] /\
  exists others,
    nearest_neighbor_order square_km (101 :: [102; 103; 104])%Z
      = Some (101 :: others)%Z /\
    length others = length [102; 103; 104]%Z.
Proof.
  exact (nearest_neighbor_order_starts_at_first square_km 101%Z
           [102; 103; 104]%Z square_km_bounded).
Defined.

(** X13.  [nearest_neighbor_order] relies on its initial [best_d = 1e12]:
    with two stops or more, if every stop is that far or farther from
    the first one, no [best_j] is found and the function fails (the
    [ValueError] of [remaining.remove(None)]). *)
Theorem nearest_neighbor_order_sentinel
  (seg_len : nat -> nat -> Q) (stop_ids : list Z) :
  (forall j, best_d0 <= seg_len O j) ->
  (2 <= length stop_ids)%nat ->
  nearest_neighbor_order seg_len stop_ids = None.
Proof.
  intros Hfar Hlen. unfold nearest_neighbor_order, nearest_neighbor_idx.
  destruct (length stop_ids) as [| [| n]]; try lia.
  change (remove_first 0 (seq 0 (S (S n)))) with (Some (seq 1 (S n))).
  change (seq 1 (S n)) with (1%nat :: seq 2 n).
  simpl nno_loop.
  destruct (Qlt_le_dec (seg_len O 1%nat) best_d0) as [Hlt | _].
  - pose proof (Hfar 1%nat). lra.
  - now rewrite (scan_remaining_far seg_len O Hfar).
Qed.

Lemma nearest_neighbor_order_sentinel_witness :
  nearest_neighbor_order (fun _ _ => best_d0) [101; 102]%Z = None.
Proof.
  apply (nearest_neighbor_order_sentinel (fun _ _ => best_d0) [101; 102]%Z).
  - intros j. apply Qle_refl.
  - simpl. lia.
Defined.

(** The rows and the report that [recompute_dispatch_sequence] computes
    for a non-empty data frame and a symmetric, non-negative distance. *)
Lemma recompute_report_props (seg_len : nat -> nat -> Q) (stop_ids : list Z) :
  stop_ids <> [] ->
  (forall i j, seg_len i j == seg_len j i) ->
  (forall i j, 0 <= seg_len i j) ->
  exists rep,
    recompute_report seg_len stop_ids = Some rep /\
    stops rep = length stop_ids /\
    map fst (rows rep) = map Z.of_nat (seq 1 (length stop_ids)) /\
    recompute_dispatch_sequence seg_len stop_ids = Some (map snd (rows rep)) /\
    Permutation (map snd (rows rep)) stop_ids /\
    improvement_pct rep <= 100 /\
    (orig_dist_km rep == 0 -> improvement_pct rep = 0).
Proof.
  intros Hne Hsym Hnn.
  destruct stop_ids as [| id0 ids]; [congruence |].
  set (stop_ids := id0 :: ids) in *.
  assert (Hlen : length stop_ids = S (length ids)) by reflexivity.
  destruct (nearest_neighbor_spec seg_len (length ids)) as (ext & Hrun & Hperm & _).
  destruct (two_opt_returns seg_len Hsym Hnn (O :: ext)) as [best Hbest].
  destruct (two_opt_loop_sound seg_len Hsym _ _ _ Hbest) as (Hpb & _ & _).
  assert (Hblen : length best = length stop_ids).
  { rewrite (Permutation_length Hpb), (Permutation_length Hperm).
    now rewrite length_seq. }
  eexists. split.
  { unfold recompute_report. subst stop_ids. cbv zeta. simpl length.
    rewrite Hrun. rewrite Hbest. reflexivity. }
  cbn [stops rows improvement_pct orig_dist_km].
  split; [reflexivity |]. split.
  { rewrite enumerate1_fst, length_map. now rewrite Hblen. }
  rewrite enumerate1_snd. split.
  { unfold recompute_dispatch_sequence, best_order. subst stop_ids.
    simpl length. rewrite Hrun. fold (two_opt seg_len (O :: ext)).
    now rewrite Hbest. }
  split.
  { apply map_nth_perm. rewrite Hlen. now transitivity (O :: ext). }
  set (orig := route_length seg_len (seq 0 (S (length ids)))).
  set (new := route_length seg_len best).
  assert (Hnew : 0 <= new).
  { unfold new. rewrite route_length_sum. now apply route_sum_nonneg. }
  destruct (Qlt_le_dec 0 orig) as [Hpos | Hle]; split.
  - assert (Hq : (orig - new) / orig <= 1).
    { apply Qle_shift_div_r; [exact Hpos | lra]. }
    lra.
  - intros E. lra.
  - discriminate.
  - reflexivity.
Qed.


End RoutingFacts.

(* ================================================================== *)
(** ** Properties of the great-circle distance                          *)
(* ================================================================== *)

Module GeoFacts.

Import Geo.
Import Lra.
Local Open Scope R_scope.

(** *** The term [a] *)

Lemma radians_minus (u v : R) : radians (u - v) = radians u - radians v.
Proof. unfold radians. ring. Qed.

(** Both functions compute the same [a]. *)
Lemma hav_a_same (lat1 lon1 lat2 lon2 : R) :
  optimize_route.hav_a lat1 lon1 lat2 lon2
  = routing_opt.hav_a lat1 lon1 lat2 lon2.
Proof.
  unfold optimize_route.hav_a, routing_opt.hav_a.
  cbv zeta. now rewrite (radians_minus lat2 lat1).
Qed.

(** [a] is a mean of two squares: with [u] half the difference and [m]
    half the sum of the two latitudes (in radians) and [t] the sine of
    half the difference of longitudes,
    [a = (1 - t^2) * sin(u)^2 + t^2 * cos(m)^2]. *)
Lemma hav_a_mean (phi1 phi2 t : R) :
  (sin ((phi2 - phi1) / 2)) ^ 2 + cos phi1 * cos phi2 * t ^ 2
  = (1 - t ^ 2) * (sin ((phi2 - phi1) / 2)) ^ 2
    + t ^ 2 * (cos ((phi1 + phi2) / 2)) ^ 2.
Proof.
  set (u := (phi2 - phi1) / 2). set (m := (phi1 + phi2) / 2).
  replace phi1 with (m - u) by (unfold m, u; field).
  replace phi2 with (m + u) by (unfold m, u; field).
  rewrite cos_minus, cos_plus.
  pose proof (sin2_cos2 u) as Hu. pose proof (sin2_cos2 m) as Hm.
  unfold Rsqr in Hu, Hm.
  assert (Ecu : cos u ^ 2 = 1 - sin u ^ 2) by (simpl; lra).
  assert (Esm : sin m ^ 2 = 1 - cos m ^ 2) by (simpl; lra).
  transitivity (sin u ^ 2
                + (cos m ^ 2 * cos u ^ 2 - sin m ^ 2 * sin u ^ 2) * t ^ 2);
    [ring |].
  rewrite Ecu, Esm. ring.
Qed.

Lemma sq_bounds (v : R) : 0 <= v ^ 2.
Proof. simpl. nra. Qed.

Lemma sin_sq_bounds (v : R) : 0 <= sin v ^ 2 <= 1.
Proof.
  pose proof (sin2_cos2 v) as E. unfold Rsqr in E.
  simpl. nra.
Qed.

Lemma cos_sq_bounds (v : R) : 0 <= cos v ^ 2 <= 1.
Proof.
  pose proof (sin2_cos2 v) as E. unfold Rsqr in E.
  simpl. nra.
Qed.

(** Over the reals, [a] lies in [[0, 1]] for every pair of points. *)
Lemma hav_a_range (lat1 lon1 lat2 lon2 : R) :
  0 <= routing_opt.hav_a lat1 lon1 lat2 lon2 <= 1.
Proof.
  unfold routing_opt.hav_a. cbv zeta.
  rewrite (radians_minus lat2 lat1), hav_a_mean.
  pose proof (sin_sq_bounds ((radians lat2 - radians lat1) / 2)).
  pose proof (cos_sq_bounds ((radians lat1 + radians lat2) / 2)).
  pose proof (sin_sq_bounds (radians (lon2 - lon1) / 2)).
  nra.
Qed.

Lemma hav_a_sym (lat1 lon1 lat2 lon2 : R) :
  routing_opt.hav_a lat1 lon1 lat2 lon2
  = routing_opt.hav_a lat2 lon2 lat1 lon1.
Proof.
  unfold routing_opt.hav_a. cbv zeta.
  replace (radians (lat1 - lat2) / 2) with (- (radians (lat2 - lat1) / 2))
    by (unfold radians; field).
  replace (radians (lon1 - lon2) / 2) with (- (radians (lon2 - lon1) / 2))
    by (unfold radians; field).
  rewrite !sin_neg. ring.
Qed.

(** *** The inverse-trigonometric step *)

Lemma sqrt_range (a : R) : 0 <= a <= 1 -> 0 <= sqrt a <= 1.
Proof.
  intros [H0 H1]. split; [apply sqrt_pos |].
  rewrite <- sqrt_1. now apply sqrt_le_1_alt.
Qed.

Lemma math_sqrt_some (a : R) : 0 <= a -> math_sqrt a = Some (sqrt a).
Proof.
  intros H0. unfold math_sqrt. destruct (Rlt_dec a 0); [lra | reflexivity].
Qed.

Lemma math_asin_some (v : R) : -1 <= v <= 1 -> math_asin v = Some (asin v).
Proof.
  intros [Hl Hu]. unfold math_asin.
  destruct (Rlt_dec v (-1)); [lra |].
  destruct (Rlt_dec 1 v); [lra | reflexivity].
Qed.

(** On [[0, 1]] the two inverse steps give the same angle. *)
Lemma asin_atan2 (a : R) :
  0 <= a <= 1 -> math_atan2 (sqrt a) (sqrt (1 - a)) = asin (sqrt a).
Proof.
  intros [H0 H1]. unfold math_atan2.
  destruct (Req_dec a 1) as [-> | Hne].
  - replace (1 - 1) with 0 by ring. rewrite sqrt_0, sqrt_1, asin_1.
    destruct (Rlt_dec 0 0); [lra |].
    destruct (Rlt_dec 0 1); [reflexivity | lra].
  - assert (Hpos : 0 < sqrt (1 - a)) by (apply sqrt_lt_R0; lra).
    destruct (Rlt_dec 0 (sqrt (1 - a))); [| lra].
    assert (Hlt : sqrt a < 1).
    { rewrite <- sqrt_1. apply sqrt_lt_1_alt. lra. }
    pose proof (sqrt_pos a).
    rewrite asin_atan by lra.
    now rewrite Rsqr_sqrt.
Qed.

Lemma asin_nonneg (v : R) : 0 <= v <= 1 -> 0 <= asin v.
Proof.
  intros Hv. pose proof (asin_bound v) as [Hl Hu]. pose proof PI_RGT_0.
  apply sin_incr_0; try lra.
  rewrite sin_0, sin_asin; lra.
Qed.

(** *** The two distance functions *)

Lemma routing_opt_value (lat1 lon1 lat2 lon2 : R) :
  routing_opt.haversine_km lat1 lon1 lat2 lon2
  = Some (2 * routing_opt.R_earth
          * asin (sqrt (routing_opt.hav_a lat1 lon1 lat2 lon2))).
Proof.
  unfold routing_opt.haversine_km.
  pose proof (hav_a_range lat1 lon1 lat2 lon2) as Ha.
  pose proof (sqrt_range _ Ha).
  rewrite math_sqrt_some by lra.
  rewrite math_asin_some by lra. reflexivity.
Qed.

Lemma optimize_route_value (lat1 lon1 lat2 lon2 : R) :
  optimize_route.haversine_km lat1 lon1 lat2 lon2
  = Some (optimize_route.R_earth
          * (2 * asin (sqrt (routing_opt.hav_a lat1 lon1 lat2 lon2)))).
Proof.
  unfold optimize_route.haversine_km. cbv zeta.
  rewrite hav_a_same.
  pose proof (hav_a_range lat1 lon1 lat2 lon2) as Ha.
  rewrite !math_sqrt_some by lra.
  now rewrite asin_atan2.
Qed.

(** The great-circle distance is symmetric, not negative and far below
    [1e12]: the properties assumed of [seg_len] in [RoutingFacts]. *)
Lemma haversine_km_sym (lat1 lon1 lat2 lon2 : R) :
  routing_opt.haversine_km lat1 lon1 lat2 lon2
  = routing_opt.haversine_km lat2 lon2 lat1 lon1.
Proof. now rewrite !routing_opt_value, hav_a_sym. Qed.

Lemma haversine_km_bounds (lat1 lon1 lat2 lon2 : R) :
  exists d, routing_opt.haversine_km lat1 lon1 lat2 lon2 = Some d /\
            0 <= d < 1000000000000.
Proof.
  rewrite routing_opt_value. eexists. split; [reflexivity |].
  pose proof (sqrt_range _ (hav_a_range lat1 lon1 lat2 lon2)) as Hs.
  pose proof (asin_nonneg _ Hs).
  pose proof (asin_bound (sqrt (routing_opt.hav_a lat1 lon1 lat2 lon2))) as [_ Hu].
  pose proof PI_4. unfold routing_opt.R_earth. nra.
Qed.

Lemma hav_a_half_turn : routing_opt.hav_a 0 0 0 180 = 1.
Proof.
  unfold routing_opt.hav_a. cbv zeta.
  replace (radians (0 - 0) / 2) with 0 by (unfold radians; field).
  replace (radians (180 - 0) / 2) with (PI / 2) by (unfold radians; field).
  replace (radians 0) with 0 by (unfold radians; ring).
  rewrite sin_0, cos_0, sin_PI2. ring.
Qed.

(** *** The claims about the distance functions *)

(** Neither function clamps [a].  Over the real numbers it has no need
    to: for every pair of points both functions compute the same [a], it
    lies in [[0, 1]], and both functions return a distance.  A domain
    error of the code is therefore one of rounding (see
    [GeoFloatFacts]). *)
Lemma haversine_no_domain_error_exact (lat1 lon1 lat2 lon2 : R) :
  let a := routing_opt.hav_a lat1 lon1 lat2 lon2 in
  optimize_route.hav_a lat1 lon1 lat2 lon2 = a /\
  0 <= a <= 1 /\
  clamp01 a = a /\
  routing_opt.haversine_km lat1 lon1 lat2 lon2
    = Some (2 * routing_opt.R_earth * asin (sqrt a)) /\
  optimize_route.haversine_km lat1 lon1 lat2 lon2
    = Some (optimize_route.R_earth * (2 * asin (sqrt a))).
Proof.
  intros a. pose proof (hav_a_range lat1 lon1 lat2 lon2) as Ha. fold a in Ha.
  split; [apply hav_a_same |]. split; [exact Ha |]. split; [| split].
  - unfold clamp01. rewrite Rmin_right by lra. apply Rmax_right. lra.
  - apply routing_opt_value.
  - apply optimize_route_value.
Qed.

(** C8 as stated fails: [optimize_route.py] uses the radius 6371.0, and
    for two points half the equator apart the two functions return
    different distances. *)
Lemma haversine_variants_differ :
  optimize_route.R_earth <> 6371.0088 /\
  routing_opt.haversine_km 0 0 0 180 <> optimize_route.haversine_km 0 0 0 180.
Proof.
  split; [unfold optimize_route.R_earth; lra |].
  rewrite routing_opt_value, optimize_route_value, hav_a_half_turn.
  rewrite sqrt_1, asin_1. intros [= E].
  unfold routing_opt.R_earth, optimize_route.R_earth in E.
  pose proof PI_RGT_0. lra.
Qed.

(** C8, amended.  The two functions compute the same central angle [c],
    between 0 and pi; [routing_opt.py] multiplies it by 6371.0088 and
    [optimize_route.py] by 6371.0, so the two distances are equal only
    when they are 0. *)
Theorem haversine_variants_same_angle (lat1 lon1 lat2 lon2 : R) :
  exists c,
    0 <= c <= PI /\
    routing_opt.haversine_km lat1 lon1 lat2 lon2 = Some (6371.0088 * c) /\
    optimize_route.haversine_km lat1 lon1 lat2 lon2 = Some (6371.0 * c) /\
    (routing_opt.haversine_km lat1 lon1 lat2 lon2
       = optimize_route.haversine_km lat1 lon1 lat2 lon2 <-> c = 0).
Proof.
  set (a := routing_opt.hav_a lat1 lon1 lat2 lon2).
  exists (2 * asin (sqrt a)).
  pose proof (sqrt_range _ (hav_a_range lat1 lon1 lat2 lon2)) as Hs. fold a in Hs.
  pose proof (asin_nonneg _ Hs) as H0.
  pose proof (asin_bound (sqrt a)) as [_ Hu].
  rewrite routing_opt_value, optimize_route_value. fold a.
  unfold routing_opt.R_earth, optimize_route.R_earth.
  split; [lra |]. split; [f_equal; ring |]. split; [reflexivity |].
  split.
  - intros [= E]. lra.
  - intros E. f_equal. lra.
Qed.

(** *** Further properties of the distance functions *)

Lemma hav_a_same_point (lat lon : R) : routing_opt.hav_a lat lon lat lon = 0.
Proof.
  unfold routing_opt.hav_a. cbv zeta.
  replace (radians (lat - lat) / 2) with 0 by (unfold radians; field).
  replace (radians (lon - lon) / 2) with 0 by (unfold radians; field).
  rewrite sin_0. ring.
Qed.

Lemma hav_a_full_turn (lat1 lon1 lat2 lon2 : R) :
  routing_opt.hav_a lat1 lon1 lat2 (lon2 + 360)
  = routing_opt.hav_a lat1 lon1 lat2 lon2.
Proof.
  unfold routing_opt.hav_a. cbv zeta.
  replace (radians (lon2 + 360 - lon1) / 2)
    with (radians (lon2 - lon1) / 2 + PI) by (unfold radians; field).
  rewrite neg_sin. ring.
Qed.

(** X16.  Over the real numbers both [haversine_km] functions give 0
    for a point and itself, and the same distance from [b] to [a] as
    from [a] to [b]. *)
Theorem haversine_km_zero_and_symmetric (lat1 lon1 lat2 lon2 : R) :
  routing_opt.haversine_km lat1 lon1 lat1 lon1 = Some 0 /\
  optimize_route.haversine_km lat1 lon1 lat1 lon1 = Some 0 /\
  routing_opt.haversine_km lat1 lon1 lat2 lon2
    = routing_opt.haversine_km lat2 lon2 lat1 lon1 /\
  optimize_route.haversine_km lat1 lon1 lat2 lon2
    = optimize_route.haversine_km lat2 lon2 lat1 lon1.
Proof.
  rewrite !routing_opt_value, !optimize_route_value.
  rewrite hav_a_same_point, sqrt_0, asin_0.
  rewrite (hav_a_sym lat2 lon2 lat1 lon1).
  repeat split; f_equal; ring.
Qed.

(** X17.  Over the real numbers both [haversine_km] functions return a
    distance between 0 and half the circumference of their sphere
    (pi times the radius), which is less than 25485 km; so every
    distance is far below the initial [best_d = 1e12] of
    [nearest_neighbor_order]. *)
Theorem haversine_km_range (lat1 lon1 lat2 lon2 : R) :
  exists d d',
    routing_opt.haversine_km lat1 lon1 lat2 lon2 = Some d /\
    optimize_route.haversine_km lat1 lon1 lat2 lon2 = Some d' /\
    0 <= d <= PI * 6371.0088 /\
    0 <= d' <= PI * 6371.0 /\
    d < 25485 /\ d' < 25485.
Proof.
  rewrite routing_opt_value, optimize_route_value.
  eexists. eexists. split; [reflexivity |]. split; [reflexivity |].
  pose proof (sqrt_range _ (hav_a_range lat1 lon1 lat2 lon2)) as Hs.
  pose proof (asin_nonneg _ Hs) as H0.
  pose proof (asin_bound (sqrt (routing_opt.hav_a lat1 lon1 lat2 lon2))) as [_ Hu].
  pose proof PI_4 as Hpi.
  unfold routing_opt.R_earth, optimize_route.R_earth.
  repeat split; nra.
Qed.

(** X18.  Longitudes are not normalised, and need not be: over the real
    numbers, adding a full turn of 360 degrees to a longitude changes
    the result of neither [haversine_km]. *)
Theorem haversine_km_full_turn (lat1 lon1 lat2 lon2 : R) :
  routing_opt.haversine_km lat1 lon1 lat2 (lon2 + 360)
    = routing_opt.haversine_km lat1 lon1 lat2 lon2 /\
  optimize_route.haversine_km lat1 lon1 lat2 (lon2 + 360)
    = optimize_route.haversine_km lat1 lon1 lat2 lon2.
Proof.
  rewrite !routing_opt_value, !optimize_route_value.
  now rewrite hav_a_full_turn.
Qed.

End GeoFacts.

Module GeoFloatFacts.

Import PrimFloat GeoFloat.
Local Open Scope float_scope.
#[local] Set Warnings "-inexact-float".

(** A point and itself are 0 km apart. *)
Example haversine_km_same_point :
  optimize_route_haversine_km libm_sin libm_cos libm_atan2 0 0 0 0 = Some 0 /\
  routing_opt_haversine_km libm_sin libm_cos libm_asin 0 0 0 0 = Some 0.
Proof. split; vm_compute; reflexivity. Qed.

(** C6 fails in the code.  Neither function clamps [a], and for the
    antipodal points (8, -19.2) and (-8, 160.8) the sum [a] is rounded
    to the double just above 1.  [optimize_route.py] then takes the
    square root of the negative number [1 - a] and raises a domain
    error.  [routing_opt.py], for which the square root of [a] is 1,
    returns half the circumference there, 20015.1 km. *)
Theorem haversine_km_domain_error :
  optimize_route_haversine_km libm_sin libm_cos libm_atan2
    8 (-19.2) (-8) 160.8 = None /\
  routing_opt_haversine_km libm_sin libm_cos libm_asin
    8 (-19.2) (-8) 160.8 = Some 0x1.38bc75304b065p+14.
Proof. split; vm_compute; reflexivity. Qed.

(** X11.  [route_length] adds the legs as doubles, in route order, so
    that a route and the same route travelled backwards can get
    different lengths although every leg is as long in one direction as
    in the other: for the four stops of [equator] the sum is
    166.79262035029936 km forwards and 166.7926203502994 km backwards.
    The difference is one of rounding only: for a symmetric distance
    the exact sums of the legs are equal. *)
Theorem route_length_reversed :
  Forall (fun leg : nat * nat =>
            route_length libm_sin libm_cos libm_asin equator
              [fst leg; snd leg]
            = route_length libm_sin libm_cos libm_asin equator
                [snd leg; fst leg])
         [(0, 1); (1, 2); (2, 3)]%nat /\
  route_length libm_sin libm_cos libm_asin equator [0; 1; 2; 3]%nat
    = Some 0x1.4d95d255a55c1p+7 /\
  route_length libm_sin libm_cos libm_asin equator (rev [0; 1; 2; 3]%nat)
    = Some 0x1.4d95d255a55c2p+7 /\
  (0x1.4d95d255a55c1p+7 <? 0x1.4d95d255a55c2p+7) = true /\
  forall (seg_len : nat -> nat -> Q) (order : list nat),
    (forall i j, seg_len i j == seg_len j i)%Q ->
    (Routing.route_length seg_len (rev order)
     == Routing.route_length seg_len order)%Q.
Proof.
  split; [| split; [| split; [| split]]].
  - repeat constructor; vm_compute; reflexivity.
  - vm_compute. reflexivity.
  - vm_compute. reflexivity.
  - vm_compute. reflexivity.
  - exact RoutingFacts.route_length_rev_exact.
Qed.

Lemma route_length_reversed_witness :
  (Routing.route_length Routing.square_km (rev [0; 1; 2; 3]%nat)
   == Routing.route_length Routing.square_km [0; 1; 2; 3]%nat)%Q.
Proof.
  destruct route_length_reversed as (_ & _ & _ & _ & Hexact).
  apply Hexact. exact RoutingFacts.square_km_sym.
Defined.

End GeoFloatFacts.

(* ================================================================== *)
(** ** Properties of the functions that rewrite the stop table          *)
(* ================================================================== *)

Module StoreFacts.

Import Store.
Import Lqa.
Local Open Scope Z_scope.

(** *** Reading the stops of a dispatch *)

Lemma insert_by_sequence_perm (r : StopRow) (l : list StopRow) :
  Permutation (insert_by_sequence r l) (r :: l).
Proof.
  induction l as [| h t IH]; simpl; [apply Permutation_refl |].
  destruct (Sequence r <=? Sequence h); [apply Permutation_refl |].
  rewrite IH. apply perm_swap.
Qed.

Lemma order_by_sequence_perm (l : list StopRow) :
  Permutation (order_by_sequence l) l.
Proof.
  induction l as [| r l IH]; simpl; [constructor |].
  rewrite insert_by_sequence_perm. now constructor.
Qed.

Lemma insert_by_sequence_sorted (r : StopRow) (l : list StopRow) :
  StronglySorted Z.le (map Sequence l) ->
  StronglySorted Z.le (map Sequence (insert_by_sequence r l)).
Proof.
  induction l as [| h t IH]; intros Hs; simpl.
  - repeat constructor.
  - apply StronglySorted_inv in Hs. destruct Hs as [Ht Hh].
    destruct (Z.leb_spec (Sequence r) (Sequence h)) as [Hle | Hgt]; simpl.
    + constructor; [now constructor |].
      constructor; [exact Hle |].
      eapply Forall_impl; [| exact Hh]. intros a Ha. simpl in Ha. lia.
    + constructor; [now apply IH |].
      apply (Permutation_Forall
               (Permutation_sym
                  (Permutation_map Sequence (insert_by_sequence_perm r t)))).
      simpl. constructor; [lia | exact Hh].
Qed.

Lemma order_by_sequence_sorted (l : list StopRow) :
  StronglySorted Z.le (map Sequence (order_by_sequence l)).
Proof.
  induction l as [| r l IH]; simpl; [constructor |].
  now apply insert_by_sequence_sorted.
Qed.

(** A sorted list that rearranges a strictly sorted one is that list. *)
Lemma sorted_unique : forall l l' : list Z,
  StronglySorted Z.le l -> StronglySorted Z.lt l' -> Permutation l l' ->
  l = l'.
Proof.
  induction l as [| a l IH]; intros l' Hs Hs' Hp.
  - apply Permutation_nil in Hp. now subst.
  - destruct l' as [| b l'].
    { apply Permutation_sym, Permutation_nil in Hp. discriminate. }
    apply StronglySorted_inv in Hs. destruct Hs as [Hl Ha].
    apply StronglySorted_inv in Hs'. destruct Hs' as [Hl' Hb].
    rewrite Forall_forall in Ha, Hb.
    assert (Hab : a = b).
    { assert (Hain : In a (b :: l'))
        by (apply (Permutation_in a Hp); now left).
      assert (Hbin : In b (a :: l))
        by (apply (Permutation_in b (Permutation_sym Hp)); now left).
      destruct Hain as [E | Hain]; [now symmetry |].
      destruct Hbin as [E | Hbin]; [exact E |].
      pose proof (Ha b Hbin). pose proof (Hb a Hain). lia. }
    subst b. f_equal. apply IH; try assumption.
    now apply Permutation_cons_inv in Hp.
Qed.

Lemma nodup_map_inj {A B : Type} (f : A -> B) (l : list A) :
  NoDup (map f l) ->
  forall a b, In a l -> In b l -> f a = f b -> a = b.
Proof.
  induction l as [| c l IH]; intros Hnd a b Ha Hb E; [destruct Ha |].
  simpl in Hnd. inversion Hnd as [| c' l' Hnin Hnd']; subst.
  destruct Ha as [<- | Ha], Hb as [<- | Hb].
  - reflexivity.
  - exfalso. apply Hnin. rewrite E. now apply in_map.
  - exfalso. apply Hnin. rewrite <- E. now apply in_map.
  - now apply IH.
Qed.

Lemma nodup_map_on {A B C : Type} (f : A -> B) (g : A -> C) (l : list A) :
  NoDup (map g l) ->
  (forall a b, In a l -> In b l -> f a = f b -> g a = g b) ->
  NoDup (map f l).
Proof.
  induction l as [| c l IH]; intros Hnd Hinj; simpl; [constructor |].
  simpl in Hnd. inversion Hnd as [| c' l' Hnin Hnd']; subst. constructor.
  - intro Hin. apply in_map_iff in Hin. destruct Hin as (a & E & Ha).
    apply Hnin. rewrite <- (Hinj a c); [now apply in_map | now right | now left | exact E].
  - apply IH; [exact Hnd' |]. intros a b Ha Hb. apply Hinj; now right.
Qed.

(** *** The updates, row by row *)

Lemma execmany_assign (rows : list (Z * Z)) : forall tbl,
  execmany_set_sequence tbl rows = map (assign rows) tbl.
Proof.
  unfold execmany_set_sequence, assign.
  induction rows as [| row rows IH]; intros tbl; simpl.
  - symmetry. apply map_id.
  - rewrite IH. unfold set_sequence. now rewrite map_map.
Qed.

Lemma assign_keys (rows : list (Z * Z)) : forall r,
  Stop_id (assign rows r) = Stop_id r /\
  Dispatch_id (assign rows r) = Dispatch_id r.
Proof.
  unfold assign. induction rows as [| row rows IH]; intros r; simpl.
  - now split.
  - destruct (Stop_id r =? snd row); [| apply IH].
    destruct (IH (mkStopRow (Stop_id r) (Dispatch_id r) (fst row))) as [E1 E2].
    now split.
Qed.

Lemma assign_miss (rows : list (Z * Z)) : forall r,
  ~ In (Stop_id r) (map snd rows) -> assign rows r = r.
Proof.
  unfold assign. induction rows as [| row rows IH]; intros r Hnin; simpl.
  - reflexivity.
  - destruct (Z.eqb_spec (Stop_id r) (snd row)) as [E | _].
    + exfalso. apply Hnin. now left.
    + apply IH. intro Hin. apply Hnin. now right.
Qed.

Lemma assign_hit (rows : list (Z * Z)) : forall r s,
  NoDup (map snd rows) -> In (s, Stop_id r) rows ->
  Sequence (assign rows r) = s.
Proof.
  induction rows as [| row rows IH]; intros r s Hnd Hin; [destruct Hin |].
  simpl in Hnd. inversion Hnd as [| x l Hnin Hnd']; subst.
  change (assign (row :: rows) r)
    with (assign rows (if Stop_id r =? snd row
                       then mkStopRow (Stop_id r) (Dispatch_id r) (fst row)
                       else r)).
  destruct Hin as [-> | Hin].
  - simpl. rewrite Z.eqb_refl. rewrite assign_miss; [reflexivity |].
    exact Hnin.
  - destruct (Z.eqb_spec (Stop_id r) (snd row)) as [E | _].
    + exfalso. apply Hnin. rewrite <- E.
      change (Stop_id r) with (snd (s, Stop_id r)). now apply in_map.
    + now apply IH.
Qed.

Lemma filter_map_keys (d : Z) (h : StopRow -> StopRow) (tbl : DispatchStop) :
  (forall r, Dispatch_id (h r) = Dispatch_id r) ->
  filter (of_dispatch d) (map h tbl) = map h (filter (of_dispatch d) tbl).
Proof.
  intros Hh. induction tbl as [| r tbl IH]; simpl; [reflexivity |].
  assert (E : of_dispatch d (h r) = of_dispatch d r)
    by (unfold of_dispatch; now rewrite Hh).
  rewrite E. destruct (of_dispatch d r); simpl; now rewrite IH.
Qed.

(** *** Positions in a list without repetition *)

Lemma enumerate1_in {A : Type} (l : list A) (d : A) (k : nat) :
  (k < length l)%nat -> In (Z.of_nat (S k), nth k l d) (Routing.enumerate1 l).
Proof.
  intros Hk. unfold Routing.enumerate1.
  assert (Hlen : length (map Z.of_nat (seq 1 (length l))) = length l)
    by now rewrite length_map, length_seq.
  assert (E : nth k (combine (map Z.of_nat (seq 1 (length l))) l) (0, d)
              = (Z.of_nat (S k), nth k l d)).
  { rewrite combine_nth by exact Hlen. f_equal.
    change 0 with (Z.of_nat O). rewrite map_nth.
    now rewrite seq_nth. }
  rewrite <- E. apply nth_In. rewrite length_combine, Hlen. lia.
Qed.

Lemma pos_in (s : Z) (l : list Z) :
  In s l -> (pos s l < length l)%nat /\ nth (pos s l) l 0 = s.
Proof.
  induction l as [| h t IH]; intros Hin; [destruct Hin |]. simpl.
  destruct (Z.eqb_spec h s) as [-> | Hne]; [split; [lia | reflexivity] |].
  destruct Hin as [E | Hin]; [congruence |].
  destruct (IH Hin) as [Hlt Hnth]. split; [lia | exact Hnth].
Qed.

Lemma pos_nth (l : list Z) : NoDup l ->
  forall k, (k < length l)%nat -> pos (nth k l 0) l = k.
Proof.
  induction 1 as [| h t Hnin Hnd IH]; intros k Hk; simpl in Hk; [lia |].
  destruct k as [| k]; simpl.
  - now rewrite Z.eqb_refl.
  - destruct (Z.eqb_spec h (nth k t 0)) as [E | _].
    + exfalso. apply Hnin. rewrite E. apply nth_In. lia.
    + f_equal. apply IH. lia.
Qed.

Lemma seq_strictly_sorted (len start : nat) :
  StronglySorted Z.lt (map Z.of_nat (seq start len)).
Proof.
  revert start. induction len as [| len IH]; intros start; simpl; constructor.
  - apply IH.
  - rewrite Forall_forall. intros z Hz. apply in_map_iff in Hz.
    destruct Hz as (k & <- & Hk). apply in_seq in Hk. lia.
Qed.

Lemma filter_distinct_stop_ids (keep : StopRow -> bool) (tbl : DispatchStop) :
  NoDup (map Stop_id tbl) -> NoDup (map Stop_id (filter keep tbl)).
Proof.
  intros Hnd. induction tbl as [| r tbl IH]; simpl; [constructor |].
  simpl in Hnd. apply NoDup_cons_iff in Hnd. destruct Hnd as [Hnin Hnd].
  destruct (keep r); simpl; [| now apply IH].
  constructor; [| now apply IH].
  intro Hin. apply Hnin. apply in_map_iff in Hin.
  destruct Hin as (b & E & Hb). apply filter_In in Hb.
  rewrite <- E. apply in_map. tauto.
Qed.

Lemma load_stops_perm (d : Z) (tbl : DispatchStop) :
  Permutation (load_stops d tbl) (map Stop_id (filter (of_dispatch d) tbl)).
Proof.
  unfold load_stops. apply Permutation_map, order_by_sequence_perm.
Qed.

(** Writing the sequence numbers 1, 2, ... along [order] and reading the
    stops of the dispatch back gives [order]. *)
Lemma reload (d : Z) (tbl : DispatchStop) (order : list Z) :
  NoDup (map Stop_id tbl) ->
  Permutation order (load_stops d tbl) ->
  load_stops d (execmany_set_sequence tbl (Routing.enumerate1 order)) = order.
Proof.
  intros Hkey Hperm.
  set (rows := Routing.enumerate1 order).
  set (F := filter (of_dispatch d) tbl).
  assert (HidF : Permutation (map Stop_id F) order).
  { symmetry. rewrite Hperm. apply load_stops_perm. }
  assert (HndF : NoDup (map Stop_id F)) by now apply filter_distinct_stop_ids.
  assert (Hnd : NoDup order) by exact (Permutation_NoDup HidF HndF).
  assert (Hsnd : map snd rows = order) by apply RoutingFacts.enumerate1_snd.
  unfold load_stops. rewrite execmany_assign.
  rewrite filter_map_keys by (intro r; apply assign_keys). fold F.
  set (F' := map (assign rows) F).
  set (L := order_by_sequence F').
  assert (HLF : Permutation L F') by apply order_by_sequence_perm.
  assert (Hids' : map Stop_id F' = map Stop_id F).
  { unfold F'. rewrite map_map. apply map_ext. intro r. apply assign_keys. }
  assert (Hseq : forall r, In r F' ->
            In (Stop_id r) order /\
            Sequence r = Z.of_nat (S (pos (Stop_id r) order))).
  { intros r Hr. unfold F' in Hr. apply in_map_iff in Hr.
    destruct Hr as (r0 & <- & Hr0).
    destruct (assign_keys rows r0) as [Eid _]. rewrite Eid.
    assert (Hin : In (Stop_id r0) order).
    { apply (Permutation_in _ HidF). now apply in_map. }
    split; [exact Hin |].
    destruct (pos_in _ _ Hin) as [Hlt Hnth].
    apply assign_hit; [now rewrite Hsnd |].
    rewrite <- Hnth at 2. now apply StoreFacts.enumerate1_in. }
  set (g := fun s => Z.of_nat (S (pos s order))).
  assert (HseqL : map Sequence L = map Z.of_nat (seq 1 (length order))).
  { apply sorted_unique.
    - apply order_by_sequence_sorted.
    - apply seq_strictly_sorted.
    - rewrite (Permutation_map Sequence HLF).
      assert (E : map Sequence F' = map g (map Stop_id F')).
      { rewrite map_map. apply map_ext_in. intros r Hr.
        now destruct (Hseq r Hr). }
      rewrite E, Hids', (Permutation_map g HidF).
      replace (map g order) with (map Z.of_nat (seq 1 (length order)));
        [apply Permutation_refl |].
      apply nth_ext with (d := 0) (d' := g 0).
      + now rewrite !length_map, length_seq.
      + intros k Hk. rewrite length_map, length_seq in Hk.
        rewrite (map_nth g order 0 k).
        change 0 with (Z.of_nat O) at 1. rewrite map_nth, seq_nth by exact Hk.
        unfold g. now rewrite pos_nth. }
  assert (E : map Stop_id L
              = map (fun s => nth (Z.to_nat s - 1) order 0) (map Sequence L)).
  { rewrite map_map. apply map_ext_in. intros r Hr.
    assert (Hr' : In r F') by exact (Permutation_in r HLF Hr).
    destruct (Hseq r Hr') as [Hin Es].
    destruct (pos_in _ _ Hin) as [_ Hnth].
    rewrite Es, Nat2Z.id.
    replace (S (pos (Stop_id r) order) - 1)%nat with (pos (Stop_id r) order)
      by lia.
    now symmetry. }
  rewrite E, HseqL, map_map.
  apply nth_ext with (d := nth (Z.to_nat (Z.of_nat O) - 1) order 0) (d' := 0).
  - now rewrite length_map, length_seq.
  - intros k Hk. rewrite length_map, length_seq in Hk.
    rewrite (map_nth (fun k => nth (Z.to_nat (Z.of_nat k) - 1) order 0)
               (seq 1 (length order)) O k).
    rewrite seq_nth by exact Hk. rewrite Nat2Z.id.
    f_equal. lia.
Qed.

(** *** The distance along a list of stops *)

Lemma route_length_from_path (stop_km : Z -> Z -> Q) (ids : list Z) :
  forall idxs dist,
    Routing.route_length_from (frame_km stop_km ids) dist idxs
    = path_km stop_km dist (map (fun i => nth i ids 0) idxs).
Proof.
  induction idxs as [| a rest IH]; intros dist; [reflexivity |].
  destruct rest as [| b rest]; [reflexivity |].
  change (Routing.route_length_from (frame_km stop_km ids) dist (a :: b :: rest))
    with (Routing.route_length_from (frame_km stop_km ids)
            (dist + frame_km stop_km ids a b)%Q (b :: rest)).
  rewrite IH. reflexivity.
Qed.

Lemma route_distance_km_path (stop_km : Z -> Z -> Q) (d : Z)
  (tbl : DispatchStop) :
  route_distance_km stop_km d tbl = path_km stop_km 0%Q (load_stops d tbl).
Proof.
  unfold route_distance_km. cbv zeta.
  destruct (Nat.ltb_spec (length (load_stops d tbl)) 2) as [Hlt | _].
  - destruct (load_stops d tbl) as [| a [| b rest]]; try reflexivity.
    simpl in Hlt. lia.
  - unfold Routing.route_length. rewrite route_length_from_path.
    now rewrite RoutingFacts.map_nth_seq.
Qed.

(** *** Rows that the updates leave alone *)

Lemma filter_map_fixed (q : StopRow -> bool) (h : StopRow -> StopRow) :
  forall tbl : DispatchStop,
    (forall r, In r tbl -> q (h r) = q r) ->
    (forall r, In r tbl -> q r = true -> h r = r) ->
    filter q (map h tbl) = filter q tbl.
Proof.
  induction tbl as [| r tbl IH]; intros Hq Hfix; simpl; [reflexivity |].
  rewrite Hq by now left.
  rewrite IH.
  - destruct (q r) eqn:E; [| reflexivity].
    rewrite Hfix; [reflexivity | now left | exact E].
  - intros r' Hr'. apply Hq. now right.
  - intros r' Hr'. apply Hfix. now right.
Qed.

Lemma add_1000_keys (d : Z) (tbl : DispatchStop) :
  map Stop_id (add_1000 d tbl) = map Stop_id tbl /\
  map Dispatch_id (add_1000 d tbl) = map Dispatch_id tbl.
Proof.
  unfold add_1000. rewrite !map_map.
  split; apply map_ext; intro r; now destruct (of_dispatch d r).
Qed.

Lemma filter_add_1000 (d : Z) (tbl : DispatchStop) :
  filter (of_dispatch d) (add_1000 d tbl)
  = map (fun r => mkStopRow (Stop_id r) (Dispatch_id r) (Sequence r + 1000))
        (filter (of_dispatch d) tbl).
Proof.
  unfold add_1000. induction tbl as [| r tbl IH]; simpl; [reflexivity |].
  destruct (of_dispatch d r) eqn:E; simpl.
  - unfold of_dispatch in *. simpl. rewrite E. simpl. now rewrite IH.
  - rewrite E. exact IH.
Qed.

Lemma load_stops_add_1000 (d : Z) (tbl : DispatchStop) :
  Permutation (load_stops d (add_1000 d tbl)) (load_stops d tbl).
Proof.
  rewrite !load_stops_perm, filter_add_1000, map_map. apply Permutation_refl.
Qed.

Lemma others_add_1000 (d : Z) (tbl : DispatchStop) :
  filter (fun r => negb (of_dispatch d r)) (add_1000 d tbl)
  = filter (fun r => negb (of_dispatch d r)) tbl.
Proof.
  unfold add_1000. apply filter_map_fixed.
  - intros r _. destruct (of_dispatch d r) eqn:E; [| now rewrite E].
    unfold of_dispatch in *. simpl. now rewrite E.
  - intros r _ Hq. now destruct (of_dispatch d r).
Qed.

Lemma others_execmany (d : Z) (tbl : DispatchStop) (rows : list (Z * Z)) :
  NoDup (map Stop_id tbl) ->
  (forall s, In s (map snd rows) ->
             In s (map Stop_id (filter (of_dispatch d) tbl))) ->
  filter (fun r => negb (of_dispatch d r)) (execmany_set_sequence tbl rows)
  = filter (fun r => negb (of_dispatch d r)) tbl.
Proof.
  intros Hkey Hrows. rewrite execmany_assign. apply filter_map_fixed.
  - intros r _. unfold of_dispatch.
    now destruct (assign_keys rows r) as [_ ->].
  - intros r Hr Hq. apply assign_miss. intro Hin.
    apply Hrows in Hin. apply in_map_iff in Hin.
    destruct Hin as (r' & E & Hr'). apply filter_In in Hr'.
    destruct Hr' as [Hr' Hd].
    assert (r' = r) by (apply (nodup_map_inj Stop_id tbl Hkey); assumption).
    subst r'. rewrite Hd in Hq. discriminate.
Qed.


(** What [optimize_route] does for two stops or more. *)
Lemma optimize_route_table_value (stop_km : Z -> Z -> Q) (d : Z)
  (tbl : DispatchStop) :
  NoDup (map Stop_id tbl) ->
  (forall s1 s2, (stop_km s1 s2 < Routing.best_d0)%Q) ->
  (2 <= length (load_stops d tbl))%nat ->
  exists idxs,
    let stops := load_stops d tbl in
    let order := map (fun i => nth i stops 0) idxs in
    Permutation idxs (seq 0 (length stops)) /\
    hd 1%nat idxs = O /\
    Routing.nearest_neighbor_order (frame_km stop_km stops) stops = Some order /\
    optimize_route stop_km d tbl
    = (execmany_set_sequence (add_1000 d tbl) (Routing.enumerate1 order),
       Some (path_km stop_km 0%Q order)).
Proof.
  intros Hkey Hbound Hlen. unfold optimize_route. cbv zeta.
  set (stops := load_stops d tbl) in *.
  destruct (Nat.leb_spec (length stops) 1) as [Hle | _]; [lia |].
  destruct stops as [| id0 ids] eqn:Estops; [simpl in Hlen; lia |].
  destruct (RoutingFacts.nearest_neighbor_order_value
              (frame_km stop_km (id0 :: ids)) id0 ids)
    as (ext & Hperm & Hrun).
  { intros i j. apply Hbound. }
  exists (O :: ext). split; [exact Hperm |]. split; [reflexivity |].
  split; [exact Hrun |]. rewrite Hrun. f_equal.
  rewrite RoutingFacts.total_route_km_idx.
  - unfold Routing.route_length. now rewrite route_length_from_path.
  - rewrite <- Estops.
    apply (Permutation_NoDup (Permutation_sym (load_stops_perm d tbl))).
    now apply filter_distinct_stop_ids.
  - apply (Permutation_Forall (Permutation_sym Hperm)).
    rewrite Forall_forall. intros i Hi. apply in_seq in Hi. simpl in *. lia.
Qed.

Lemma square_stop_km_sym (s1 s2 : Z) :
  (square_stop_km s1 s2 == square_stop_km s2 s1)%Q.
Proof. apply RoutingFacts.square_km_sym. Qed.

Lemma square_stop_km_nonneg (s1 s2 : Z) : (0 <= square_stop_km s1 s2)%Q.
Proof. apply RoutingFacts.square_km_nonneg. Qed.

Lemma square_stop_km_bounded (s1 s2 : Z) :
  (square_stop_km s1 s2 < Routing.best_d0)%Q.
Proof. apply RoutingFacts.square_km_bounded. Qed.

Lemma example_table_key : NoDup (map Stop_id example_table).
Proof.
  simpl. repeat constructor; simpl; intuition discriminate.
Qed.

Lemma order_in_dispatch (d : Z) (tbl : DispatchStop) (order : list Z) :
  Permutation order (load_stops d tbl) ->
  forall s, In s order -> In s (map Stop_id (filter (of_dispatch d) tbl)).
Proof.
  intros Hperm s Hs.
  apply (Permutation_in s (load_stops_perm d tbl)).
  now apply (Permutation_in s Hperm).
Qed.

(** *** What the two functions make of the table *)





Lemma enumerate1_nth (l : list Z) (k : nat) :
  (k < length l)%nat ->
  nth k (Routing.enumerate1 l) (0, 0) = (Z.of_nat (S k), nth k l 0).
Proof.
  intros Hk. unfold Routing.enumerate1.
  rewrite combine_nth by now rewrite length_map, length_seq.
  f_equal. change 0 with (Z.of_nat O) at 1. rewrite map_nth.
  now rewrite seq_nth.
Qed.

Lemma enumerate1_length (l : list Z) :
  length (Routing.enumerate1 l) = length l.
Proof.
  unfold Routing.enumerate1.
  rewrite length_combine, length_map, length_seq. lia.
Qed.

Lemma firstn_enumerate1_in (l : list Z) (k : nat) (s id : Z) :
  In (s, id) (firstn k (Routing.enumerate1 l)) ->
  exists i, (i < k)%nat /\ (i < length l)%nat /\
            s = Z.of_nat (S i) /\ id = nth i l 0.
Proof.
  intros Hin. apply (In_nth _ _ (0, 0)) in Hin.
  destruct Hin as (i & Hi & E).
  rewrite length_firstn, enumerate1_length in Hi.
  rewrite nth_firstn in E.
  destruct (Nat.ltb_spec i k) as [Hik | Hik]; [| lia].
  rewrite enumerate1_nth in E by lia. injection E as <- <-.
  exists i. repeat split; lia.
Qed.

Lemma nodup_firstn {A : Type} (l : list A) (k : nat) :
  NoDup l -> NoDup (firstn k l).
Proof.
  intros Hnd. rewrite <- (firstn_skipn k l) in Hnd.
  now apply NoDup_app_remove_r in Hnd.
Qed.

(** X21.  The first update of [optimize_route] does what its comment
    says: when the stops of the dispatch have distinct sequence numbers,
    all at least 1, and there are at most 1000 of them, then after each
    single row of the second update (and before the first) the sequence
    numbers of the stops of the dispatch are still distinct. *)
Theorem optimize_route_sequences_distinct (stop_km : Z -> Z -> Q) (d : Z)
  (tbl : DispatchStop) :
  NoDup (map Stop_id tbl) ->
  NoDup (map Sequence (filter (of_dispatch d) tbl)) ->
  (forall r, In r tbl -> of_dispatch d r = true -> 1 <= Sequence r) ->
  (forall s1 s2, (stop_km s1 s2 < Routing.best_d0)%Q) ->
  (2 <= length (load_stops d tbl) <= 1000)%nat ->
  exists order,
    Routing.nearest_neighbor_order
      (frame_km stop_km (load_stops d tbl)) (load_stops d tbl) = Some order /\
    fst (optimize_route stop_km d tbl)
    = execmany_set_sequence (add_1000 d tbl) (Routing.enumerate1 order) /\
    forall k,
      NoDup (map Sequence
               (filter (of_dispatch d)
                  (execmany_set_sequence (add_1000 d tbl)
                     (firstn k (Routing.enumerate1 order))))).
Proof.
  intros Hkey Hseq Hpos Hbound [Hlen Hmax].
  destruct (optimize_route_table_value stop_km d tbl Hkey Hbound Hlen)
    as (idxs & Hperm & _ & Hrun & Hval).
  cbv zeta in *. set (stops := load_stops d tbl) in *.
  set (order := map (fun i => nth i stops 0) idxs) in *.
  exists order. split; [exact Hrun |]. split; [now rewrite Hval |].
  intros k.
  assert (Hord : Permutation order stops)
    by now apply RoutingFacts.map_nth_perm.
  assert (Hn : length order = length stops) by now apply Permutation_length.
  set (F := filter (of_dispatch d) tbl) in *.
  assert (HndF : NoDup (map Stop_id F)) by now apply filter_distinct_stop_ids.
  assert (Hnd : NoDup order).
  { apply (Permutation_NoDup (Permutation_sym Hord)).
    apply (Permutation_NoDup (Permutation_sym (load_stops_perm d tbl))).
    exact HndF. }
  set (rows := firstn k (Routing.enumerate1 order)).
  assert (Hrows : NoDup (map snd rows)).
  { unfold rows. rewrite <- firstn_map, RoutingFacts.enumerate1_snd.
    now apply nodup_firstn. }
  rewrite execmany_assign.
  rewrite filter_map_keys by (intro r; apply assign_keys).
  rewrite filter_add_1000. fold F. rewrite !map_map.
  apply (nodup_map_on _ Stop_id F HndF).
  intros r1 r2 H1 H2.
  set (up := fun r => mkStopRow (Stop_id r) (Dispatch_id r) (Sequence r + 1000)).
  assert (Hcase : forall r, In r F ->
            (exists i, (i < length order)%nat /\
                       Sequence (assign rows (up r)) = Z.of_nat (S i) /\
                       Stop_id r = nth i order 0) \/
            Sequence (assign rows (up r)) = Sequence r + 1000).
  { intros r Hr.
    destruct (in_dec Z.eq_dec (Stop_id r) (map snd rows)) as [Hin | Hnin].
    - left. apply in_map_iff in Hin. destruct Hin as ([s id] & E & Hin).
      simpl in E. subst id.
      destruct (firstn_enumerate1_in order k s (Stop_id r) Hin)
        as (i & _ & Hi & -> & Eid).
      exists i. split; [exact Hi |]. split; [| exact Eid].
      now apply assign_hit.
    - right. now rewrite assign_miss. }
  assert (Hbig : forall r, In r F -> Z.of_nat (length order) < Sequence r + 1000).
  { intros r Hr. apply filter_In in Hr. destruct Hr as [Hr Hd].
    pose proof (Hpos r Hr Hd). lia. }
  fold (up r1) (up r2).
  destruct (Hcase r1 H1) as [(i1 & Hi1 & E1 & Id1) | E1],
           (Hcase r2 H2) as [(i2 & Hi2 & E2 & Id2) | E2];
    rewrite E1, E2; intros E.
  - assert (i1 = i2) by lia. subst i2. congruence.
  - pose proof (Hbig r2 H2). lia.
  - pose proof (Hbig r1 H1). lia.
  - f_equal. apply (nodup_map_inj Sequence F Hseq r1 r2 H1 H2). lia.
Qed.

Lemma optimize_route_sequences_distinct_witness :
  exists order,
    Routing.nearest_neighbor_order
      (frame_km square_stop_km (load_stops 7 example_table))
      (load_stops 7 example_table) = Some order /\
    fst (optimize_route square_stop_km 7 example_table)
    = execmany_set_sequence (add_1000 7 example_table)
        (Routing.enumerate1 order) /\
    forall k,
      NoDup (map Sequence
               (filter (of_dispatch 7)
                  (execmany_set_sequence (add_1000 7 example_table)
                     (firstn k (Routing.enumerate1 order))))).
Proof.
  apply (optimize_route_sequences_distinct square_stop_km 7 example_table).
  - exact example_table_key.
  - simpl. repeat constructor; simpl; intuition discriminate.
  - intros r Hr _. simpl in Hr.
    repeat (destruct Hr as [<- | Hr]; [simpl; lia |]). destruct Hr.
  - exact square_stop_km_bounded.
  - simpl. lia.
Defined.

(** *** The unique key *)

(** The key holds when, dispatch by dispatch, the sequence numbers are
    distinct. *)
Lemma unique_key_dispatch (tbl : DispatchStop) :
  unique_key tbl = true <->
  forall d, NoDup (map Sequence (filter (of_dispatch d) tbl)).
Proof.
  induction tbl as [| r tbl IH]; simpl.
  - split; [intros _ d; constructor | reflexivity].
  - rewrite andb_true_iff, negb_true_iff, IH. split.
    + intros [Hex Hrest] d.
      destruct (of_dispatch d r) eqn:Ed; simpl; [| apply Hrest].
      constructor; [| apply Hrest].
      intro Hin. apply in_map_iff in Hin. destruct Hin as (r' & Es & Hr').
      apply filter_In in Hr'. destruct Hr' as [Hr' Ed'].
      assert (Ex : existsb (same_key r) tbl = true).
      { apply existsb_exists. exists r'. split; [exact Hr' |].
        unfold same_key, of_dispatch in *.
        apply Z.eqb_eq in Ed, Ed'. apply andb_true_iff.
        split; apply Z.eqb_eq; congruence. }
      congruence.
    + intros Hall. split.
      * destruct (existsb (same_key r) tbl) eqn:Ex; [| reflexivity].
        apply existsb_exists in Ex. destruct Ex as (r' & Hr' & Hk).
        unfold same_key in Hk. apply andb_true_iff in Hk.
        destruct Hk as [Hd Hs]. apply Z.eqb_eq in Hd, Hs.
        specialize (Hall (Dispatch_id r)).
        assert (Er : of_dispatch (Dispatch_id r) r = true)
          by apply Z.eqb_refl.
        rewrite Er in Hall. simpl in Hall.
        apply NoDup_cons_iff in Hall. destruct Hall as [Hnin _].
        exfalso. apply Hnin. rewrite Hs. apply in_map, filter_In.
        split; [exact Hr' |]. unfold of_dispatch. apply Z.eqb_eq. congruence.
      * intros d. specialize (Hall d).
        destruct (of_dispatch d r); [| exact Hall].
        simpl in Hall. now apply NoDup_cons_iff in Hall.
Qed.

(** [db.execmany] under the key, by the tables that the rows written so
    far leave. *)
Lemma execmany_unique_prefixes (rows : list (Z * Z)) : forall tbl,
  (forall k, (1 <= k <= length rows)%nat ->
             unique_key (execmany_set_sequence tbl (firstn k rows)) = true) ->
  execmany_unique tbl rows = Some (execmany_set_sequence tbl rows).
Proof.
  induction rows as [| row rows IH]; intros tbl Hall; [reflexivity |].
  simpl execmany_unique. cbv zeta.
  assert (H1 : unique_key (set_sequence tbl row) = true)
    by (apply (Hall 1%nat); simpl; lia).
  rewrite H1.
  change (execmany_set_sequence tbl (row :: rows))
    with (execmany_set_sequence (set_sequence tbl row) rows).
  apply IH. intros k Hk. apply (Hall (S k)). simpl. lia.
Qed.

Lemma execmany_unique_some (rows : list (Z * Z)) : forall tbl tbl',
  execmany_unique tbl rows = Some tbl' ->
  tbl' = execmany_set_sequence tbl rows /\
  forall k, (1 <= k <= length rows)%nat ->
            unique_key (execmany_set_sequence tbl (firstn k rows)) = true.
Proof.
  induction rows as [| row rows IH]; intros tbl tbl' Hrun.
  - simpl in Hrun. injection Hrun as <-. split; [reflexivity |].
    simpl. intros k Hk. lia.
  - simpl in Hrun. cbv zeta in Hrun.
    destruct (unique_key (set_sequence tbl row)) eqn:Ekey; [| discriminate].
    destruct (IH _ _ Hrun) as [-> Hall]. split; [reflexivity |].
    intros [| k] Hk; [lia |]. simpl firstn.
    change (execmany_set_sequence tbl (row :: firstn k rows))
      with (execmany_set_sequence (set_sequence tbl row) (firstn k rows)).
    destruct k as [| k]; [exact Ekey |].
    apply Hall. simpl in Hk. lia.
Qed.

Lemma filter_within (p q : StopRow -> bool) (tbl : DispatchStop) :
  (forall r, p r = true -> q r = true) ->
  filter p (filter q tbl) = filter p tbl.
Proof.
  intros Hpq. induction tbl as [| r tbl IH]; simpl; [reflexivity |].
  destruct (q r) eqn:Eq; simpl.
  - now rewrite IH.
  - destruct (p r) eqn:Ep; [| exact IH].
    rewrite (Hpq r Ep) in Eq. discriminate.
Qed.

(** Writing the numbers 1, 2, ... to stops of a dispatch whose stored
    numbers are all outside 1, ..., n never gives two of them the same
    number. *)
Lemma prefix_sequences_distinct (d : Z) (tbl : DispatchStop)
  (order : list Z) (k : nat) :
  NoDup (map Stop_id (filter (of_dispatch d) tbl)) ->
  NoDup (map Sequence (filter (of_dispatch d) tbl)) ->
  NoDup order ->
  (forall r, In r tbl -> of_dispatch d r = true ->
             ~ 1 <= Sequence r <= Z.of_nat (length order)) ->
  NoDup (map Sequence
           (filter (of_dispatch d)
              (execmany_set_sequence tbl
                 (firstn k (Routing.enumerate1 order))))).
Proof.
  intros HndF Hseq Hnd Hfar.
  set (F := filter (of_dispatch d) tbl) in *.
  set (rows := firstn k (Routing.enumerate1 order)).
  assert (Hrows : NoDup (map snd rows)).
  { unfold rows. rewrite <- firstn_map, RoutingFacts.enumerate1_snd.
    now apply nodup_firstn. }
  rewrite execmany_assign.
  rewrite filter_map_keys by (intro r; apply assign_keys).
  fold F. rewrite map_map.
  apply (nodup_map_on _ Stop_id F HndF).
  intros r1 r2 H1 H2.
  assert (Hcase : forall r, In r F ->
            (exists i, (i < length order)%nat /\
                       Sequence (assign rows r) = Z.of_nat (S i) /\
                       Stop_id r = nth i order 0) \/
            Sequence (assign rows r) = Sequence r).
  { intros r Hr.
    destruct (in_dec Z.eq_dec (Stop_id r) (map snd rows)) as [Hin | Hnin].
    - left. apply in_map_iff in Hin. destruct Hin as ([s id] & E & Hin).
      simpl in E. subst id.
      destruct (firstn_enumerate1_in order k s (Stop_id r) Hin)
        as (i & _ & Hi & -> & Eid).
      exists i. split; [exact Hi |]. split; [| exact Eid].
      now apply assign_hit.
    - right. now rewrite assign_miss. }
  assert (Hout : forall r, In r F ->
            ~ 1 <= Sequence r <= Z.of_nat (length order)).
  { intros r Hr. apply filter_In in Hr. destruct Hr as [Hr Hd].
    now apply Hfar. }
  destruct (Hcase r1 H1) as [(i1 & Hi1 & E1 & Id1) | E1],
           (Hcase r2 H2) as [(i2 & Hi2 & E2 & Id2) | E2];
    rewrite E1, E2; intros E.
  - assert (i1 = i2) by lia. subst i2. congruence.
  - pose proof (Hout r2 H2). lia.
  - pose proof (Hout r1 H1). lia.
  - f_equal. now apply (nodup_map_inj Sequence F Hseq r1 r2 H1 H2).
Qed.

(** The same for the key of the whole table. *)
Lemma prefix_unique_key (d : Z) (tbl : DispatchStop) (order : list Z)
  (k : nat) :
  NoDup (map Stop_id tbl) ->
  unique_key tbl = true ->
  NoDup order ->
  (forall s, In s order -> In s (map Stop_id (filter (of_dispatch d) tbl))) ->
  (forall r, In r tbl -> of_dispatch d r = true ->
             ~ 1 <= Sequence r <= Z.of_nat (length order)) ->
  unique_key (execmany_set_sequence tbl (firstn k (Routing.enumerate1 order)))
  = true.
Proof.
  intros Hkey Huniq Hnd Hin Hfar. apply unique_key_dispatch. intros d'.
  destruct (Z.eq_dec d' d) as [-> | Hd].
  - apply prefix_sequences_distinct; try assumption.
    + now apply filter_distinct_stop_ids.
    + now apply unique_key_dispatch.
  - set (rows := firstn k (Routing.enumerate1 order)).
    assert (Hsub : forall r, of_dispatch d' r = true ->
                             negb (of_dispatch d r) = true).
    { intros r Hr. unfold of_dispatch in *. apply Z.eqb_eq in Hr.
      apply negb_true_iff, Z.eqb_neq. congruence. }
    rewrite <- (filter_within _ _ (execmany_set_sequence tbl rows) Hsub).
    rewrite (others_execmany d tbl rows Hkey).
    + rewrite (filter_within _ _ tbl Hsub). now apply unique_key_dispatch.
    + intros s Hs. apply Hin. unfold rows in Hs.
      rewrite <- firstn_map, RoutingFacts.enumerate1_snd in Hs.
      rewrite <- (firstn_skipn k order). apply in_or_app. now left.
Qed.

(** [optimize_route] is modelled with its updates unchecked.  On a table
    with the unique key they pass the check, under the conditions met
    above (sequence numbers from 1 on, at most 1000 stops): the first
    update keeps the key, and so does every row of the second, so that
    [db.execmany] writes them all. *)
Lemma optimize_route_updates_keep_key (d : Z) (tbl : DispatchStop)
  (order : list Z) :
  NoDup (map Stop_id tbl) ->
  unique_key tbl = true ->
  (forall r, In r tbl -> of_dispatch d r = true -> 1 <= Sequence r) ->
  Permutation order (load_stops d tbl) ->
  (length order <= 1000)%nat ->
  unique_key (add_1000 d tbl) = true /\
  execmany_unique (add_1000 d tbl) (Routing.enumerate1 order)
  = Some (execmany_set_sequence (add_1000 d tbl) (Routing.enumerate1 order)).
Proof.
  intros Hkey Huniq Hpos Hord Hmax.
  assert (Hids : NoDup (map Stop_id (add_1000 d tbl)))
    by now destruct (add_1000_keys d tbl) as [-> _].
  assert (Hfar : forall r, In r (add_1000 d tbl) -> of_dispatch d r = true ->
                           Z.of_nat (length order) < Sequence r).
  { intros r Hr Hd.
    assert (Hin : In r (filter (of_dispatch d) (add_1000 d tbl)))
      by (apply filter_In; now split).
    rewrite filter_add_1000 in Hin. apply in_map_iff in Hin.
    destruct Hin as (r0 & <- & Hr0). apply filter_In in Hr0.
    destruct Hr0 as [Hr0 Hd0]. pose proof (Hpos r0 Hr0 Hd0). simpl. lia. }
  assert (Hk1 : unique_key (add_1000 d tbl) = true).
  { apply unique_key_dispatch. intros d'.
    destruct (Z.eq_dec d' d) as [-> | Hd].
    - rewrite filter_add_1000, map_map.
      apply (nodup_map_on _ Sequence).
      + now apply unique_key_dispatch.
      + intros r1 r2 _ _ E. simpl in E. lia.
    - assert (Hsub : forall r, of_dispatch d' r = true ->
                               negb (of_dispatch d r) = true).
      { intros r Hr. unfold of_dispatch in *. apply Z.eqb_eq in Hr.
        apply negb_true_iff, Z.eqb_neq. congruence. }
      rewrite <- (filter_within _ _ (add_1000 d tbl) Hsub).
      rewrite others_add_1000, (filter_within _ _ tbl Hsub).
      now apply unique_key_dispatch. }
  split; [exact Hk1 |].
  apply execmany_unique_prefixes. intros k _.
  apply (prefix_unique_key d); try assumption.
  - apply (Permutation_NoDup (Permutation_sym Hord)).
    apply (Permutation_NoDup (Permutation_sym (load_stops_perm d tbl))).
    now apply filter_distinct_stop_ids.
  - intros s Hs. apply (Permutation_in s (load_stops_perm d (add_1000 d tbl))).
    apply (Permutation_in s (Permutation_sym (load_stops_add_1000 d tbl))).
    now apply (Permutation_in s Hord).
  - intros r Hr Hd. pose proof (Hfar r Hr Hd). lia.
Qed.

(** A table that a list of rows would not change is left as it is. *)
Lemma assign_same (rows : list (Z * Z)) (r : StopRow) :
  (forall s id, In (s, id) rows -> Stop_id r = id -> Sequence r = s) ->
  assign rows r = r.
Proof.
  unfold assign. induction rows as [| [s id] rows IH]; intros Hsame; simpl;
    [reflexivity |].
  destruct (Z.eqb_spec (Stop_id r) id) as [E | _].
  - rewrite <- (Hsame s id (or_introl eq_refl) E).
    replace (mkStopRow (Stop_id r) (Dispatch_id r) (Sequence r)) with r
      by now destruct r.
    apply IH. intros s' id' Hin. apply Hsame. now right.
  - apply IH. intros s' id' Hin. apply Hsame. now right.
Qed.

(** In a dispatch numbered 1, ..., n the stop at position [i] of the
    data frame has the number [i + 1]. *)
Lemma numbered_row (d : Z) (tbl : DispatchStop) (i : nat) :
  map Sequence (order_by_sequence (filter (of_dispatch d) tbl))
    = map Z.of_nat (seq 1 (length (load_stops d tbl))) ->
  (i < length (load_stops d tbl))%nat ->
  exists rb, In rb (filter (of_dispatch d) tbl) /\
             Stop_id rb = nth i (load_stops d tbl) 0 /\
             Sequence rb = Z.of_nat (S i).
Proof.
  intros Hnum Hi.
  set (L0 := order_by_sequence (filter (of_dispatch d) tbl)) in *.
  assert (HlenL0 : length L0 = length (load_stops d tbl))
    by (unfold load_stops; now rewrite length_map).
  exists (nth i L0 (mkStopRow 0 0 0)). split; [| split].
  - apply (Permutation_in _ (order_by_sequence_perm (filter (of_dispatch d) tbl))).
    apply nth_In. change (i < length L0)%nat. lia.
  - symmetry. exact (map_nth Stop_id L0 (mkStopRow 0 0 0) i).
  - transitivity (nth i (map Sequence L0) 0).
    + symmetry. exact (map_nth Sequence L0 (mkStopRow 0 0 0) i).
    + rewrite Hnum.
      transitivity (Z.of_nat (nth i (seq 1 (length (load_stops d tbl))) O)).
      * exact (map_nth Z.of_nat (seq 1 (length (load_stops d tbl))) O i).
      * now rewrite seq_nth.
Qed.

(** *** What [recompute_dispatch_sequence] makes of the table *)

(** X14.  For a dispatch with at least one stop and a symmetric,
    non-negative distance, [recompute_dispatch_sequence] gets as far as
    its update: the rows it passes to [db.execmany] give the sequence
    numbers 1, ..., n, in this order, to the stops of the dispatch, each
    once.  There it raises the error of the violated key, the table
    being left as it was, or all rows are written and it returns its
    report; the reported percentage is at most 100, and it is 0, not a
    quotient, when the original route has length 0. *)
Theorem recompute_report_rows (stop_km : Z -> Z -> Q) (d : Z)
  (tbl : DispatchStop) :
  load_stops d tbl <> [] ->
  (forall s1 s2, (stop_km s1 s2 == stop_km s2 s1)%Q) ->
  (forall s1 s2, (0 <= stop_km s1 s2)%Q) ->
  exists rep,
    Routing.recompute_report
      (frame_km stop_km (load_stops d tbl)) (load_stops d tbl) = Some rep /\
    map fst (Routing.rows rep)
      = map Z.of_nat (seq 1 (length (load_stops d tbl))) /\
    Permutation (map snd (Routing.rows rep)) (load_stops d tbl) /\
    (Routing.improvement_pct rep <= 100)%Q /\
    ((Routing.orig_dist_km rep == 0)%Q -> Routing.improvement_pct rep = 0%Q) /\
    (recompute_dispatch_sequence stop_km d tbl = (tbl, IntegrityError) \/
     recompute_dispatch_sequence stop_km d tbl
     = (execmany_set_sequence tbl (Routing.rows rep), Returned rep)).
Proof.
  intros Hne Hsym Hnn.
  destruct (RoutingFacts.recompute_report_props
              (frame_km stop_km (load_stops d tbl)) (load_stops d tbl) Hne)
    as (rep & Hrep & _ & Hfst & _ & Hperm & Hpct & Hzero).
  { intros i j. apply Hsym. }
  { intros i j. apply Hnn. }
  exists rep.
  split; [exact Hrep |]. split; [exact Hfst |]. split; [exact Hperm |].
  split; [exact Hpct |]. split; [exact Hzero |].
  unfold recompute_dispatch_sequence. cbv zeta.
  destruct (load_stops d tbl) as [| id0 ids]; [congruence |].
  rewrite Hrep.
  destruct (execmany_unique tbl (Routing.rows rep)) as [tbl' |] eqn:Ex;
    [right | now left].
  apply execmany_unique_some in Ex. now destruct Ex as [-> _].
Qed.

Lemma recompute_report_rows_witness :
  exists rep,
    Routing.recompute_report
      (frame_km square_stop_km (load_stops 7 example_table))
      (load_stops 7 example_table) = Some rep /\
    map fst (Routing.rows rep)
      = map Z.of_nat (seq 1 (length (load_stops 7 example_table))) /\
    Permutation (map snd (Routing.rows rep)) (load_stops 7 example_table) /\
    (Routing.improvement_pct rep <= 100)%Q /\
    ((Routing.orig_dist_km rep == 0)%Q -> Routing.improvement_pct rep = 0%Q) /\
    (recompute_dispatch_sequence square_stop_km 7 example_table
     = (example_table, IntegrityError) \/
     recompute_dispatch_sequence square_stop_km 7 example_table
     = (execmany_set_sequence example_table (Routing.rows rep), Returned rep)).
Proof.
  apply (recompute_report_rows square_stop_km 7 example_table).
  - discriminate.
  - exact square_stop_km_sym.
  - exact square_stop_km_nonneg.
Defined.

(** X22.  Take a table with distinct stop identifiers and a symmetric,
    non-negative distance.  Whenever [recompute_dispatch_sequence]
    returns, it leaves a table that satisfies the unique key, in which
    the stops of the dispatch, read back in [Sequence] order, are in the
    order of the rows it wrote, for which [route_distance_km] of
    [dispatch_summary.py] is the [new_dist_km] it reports, and whose
    rows of other dispatches are unchanged.  And it does return when
    the table satisfies the key, the dispatch has a stop and none of
    its stored sequence numbers is among 1, ..., n. *)
Theorem recompute_round_trip (stop_km : Z -> Z -> Q) (d : Z)
  (tbl : DispatchStop) :
  NoDup (map Stop_id tbl) ->
  (forall s1 s2, (stop_km s1 s2 == stop_km s2 s1)%Q) ->
  (forall s1 s2, (0 <= stop_km s1 s2)%Q) ->
  (forall tbl' rep,
     recompute_dispatch_sequence stop_km d tbl = (tbl', Returned rep) ->
     unique_key tbl' = true /\
     load_stops d tbl' = map snd (Routing.rows rep) /\
     route_distance_km stop_km d tbl' = Routing.new_dist_km rep /\
     filter (fun r => negb (of_dispatch d r)) tbl'
       = filter (fun r => negb (of_dispatch d r)) tbl) /\
  (unique_key tbl = true ->
   load_stops d tbl <> [] ->
   (forall r, In r tbl -> of_dispatch d r = true ->
              ~ 1 <= Sequence r <= Z.of_nat (length (load_stops d tbl))) ->
   exists tbl' rep,
     recompute_dispatch_sequence stop_km d tbl = (tbl', Returned rep)).
Proof.
  intros Hkey Hsym Hnn. unfold recompute_dispatch_sequence. cbv zeta.
  remember (load_stops d tbl) as stops eqn:Estops.
  destruct stops as [| id0 ids].
  { split; [intros tbl' rep Hrun; discriminate | intros _ Hne; congruence]. }
  destruct (RoutingFacts.recompute_report_value
              (frame_km stop_km (id0 :: ids)) id0 ids)
    as (best & rep0 & Hperm & Hrep & Hnew & Hrows).
  { intros i j. apply Hsym. }
  { intros i j. apply Hnn. }
  rewrite Hrep.
  set (order := map (fun i => nth i (id0 :: ids) 0) best) in *.
  assert (Hord : Permutation order (load_stops d tbl)).
  { rewrite <- Estops. now apply RoutingFacts.map_nth_perm. }
  assert (Hlen : length order = S (length ids)).
  { rewrite (Permutation_length Hord), <- Estops. reflexivity. }
  split.
  - intros tbl' rep Hrun.
    destruct (execmany_unique tbl (Routing.rows rep0)) as [t |] eqn:Ex;
      [| discriminate].
    injection Hrun as -> ->.
    apply execmany_unique_some in Ex. destruct Ex as [-> Hall].
    rewrite Hrows in *. rewrite RoutingFacts.enumerate1_snd.
    assert (Hre : load_stops d (execmany_set_sequence tbl (Routing.enumerate1 order))
                  = order) by now apply reload.
    split; [| split; [exact Hre | split]].
    + specialize (Hall (length (Routing.enumerate1 order))).
      rewrite firstn_all in Hall. apply Hall.
      rewrite enumerate1_length. lia.
    + rewrite route_distance_km_path, Hre, Hnew.
      unfold Routing.route_length. now rewrite route_length_from_path.
    + apply others_execmany; [exact Hkey |].
      rewrite RoutingFacts.enumerate1_snd. now apply order_in_dispatch.
  - intros Huniq _ Hfar.
    rewrite execmany_unique_prefixes; [now eexists; eexists |].
    intros k _. rewrite Hrows.
    apply (prefix_unique_key d); try assumption.
    + apply (Permutation_NoDup (Permutation_sym Hord)).
      apply (Permutation_NoDup (Permutation_sym (load_stops_perm d tbl))).
      now apply filter_distinct_stop_ids.
    + now apply order_in_dispatch.
    + intros r Hr Hd. rewrite Hlen. now apply Hfar.
Qed.

Lemma recompute_round_trip_witness :
  exists tbl' rep,
    recompute_dispatch_sequence square_stop_km 7 example_table_spaced
    = (tbl', Returned rep) /\
    unique_key tbl' = true /\
    load_stops 7 tbl' = map snd (Routing.rows rep) /\
    route_distance_km square_stop_km 7 tbl' = Routing.new_dist_km rep /\
    filter (fun r => negb (of_dispatch 7 r)) tbl'
      = filter (fun r => negb (of_dispatch 7 r)) example_table_spaced.
Proof.
  destruct (recompute_round_trip square_stop_km 7 example_table_spaced)
    as [Hback Hreturns].
  - simpl. repeat constructor; simpl; intuition discriminate.
  - exact square_stop_km_sym.
  - exact square_stop_km_nonneg.
  - destruct Hreturns as (tbl' & rep & Hrun).
    + reflexivity.
    + discriminate.
    + intros r Hr Hd. simpl in Hr.
      repeat (destruct Hr as [<- | Hr];
              [first [discriminate Hd | simpl; lia] |]).
      destruct Hr.
    + exists tbl', rep. split; [exact Hrun | now apply Hback].
Defined.

Lemma first_difference : forall l1 l2 : list Z,
  length l1 = length l2 -> l1 <> l2 ->
  exists k, (k < length l1)%nat /\
            (forall i, (i < k)%nat -> nth i l1 0 = nth i l2 0) /\
            nth k l1 0 <> nth k l2 0.
Proof.
  induction l1 as [| a l1 IH]; intros [| b l2] Hlen Hne; simpl in Hlen;
    try discriminate; [congruence |].
  destruct (Z.eq_dec a b) as [-> | Hab].
  - destruct (IH l2) as (k & Hk & Hsame & Hdiff); [lia | congruence |].
    exists (S k). simpl. split; [lia |]. split; [| exact Hdiff].
    intros [| i] Hi; [reflexivity | apply Hsame; lia].
  - exists O. simpl. split; [lia |]. split; [intros i Hi; lia | exact Hab].
Qed.

(** X23.  [recompute_dispatch_sequence] has no first update like that
    of [optimize_route], and on a table with the unique key it cannot
    reorder a dispatch whose stops are numbered 1, ..., n: when the order
    it computed differs from the stored one, the update raises the error
    of the violated key (at the first row that gives a stop the number
    another stop still has), nothing is written and no report is
    returned; it returns only when the computed order is the stored
    one, the table being left as it was. *)
Theorem recompute_raises_on_new_order (stop_km : Z -> Z -> Q) (d : Z)
  (tbl : DispatchStop) :
  NoDup (map Stop_id tbl) ->
  map Sequence (order_by_sequence (filter (of_dispatch d) tbl))
    = map Z.of_nat (seq 1 (length (load_stops d tbl))) ->
  load_stops d tbl <> [] ->
  (forall s1 s2, (stop_km s1 s2 == stop_km s2 s1)%Q) ->
  (forall s1 s2, (0 <= stop_km s1 s2)%Q) ->
  exists rep,
    Routing.recompute_report
      (frame_km stop_km (load_stops d tbl)) (load_stops d tbl) = Some rep /\
    (map snd (Routing.rows rep) <> load_stops d tbl ->
     recompute_dispatch_sequence stop_km d tbl = (tbl, IntegrityError)) /\
    (map snd (Routing.rows rep) = load_stops d tbl ->
     unique_key tbl = true ->
     recompute_dispatch_sequence stop_km d tbl = (tbl, Returned rep)).
Proof.
  intros Hkey Hnum Hne Hsym Hnn. unfold recompute_dispatch_sequence. cbv zeta.
  pose proof (numbered_row d tbl) as Hrow. specialize (fun i => Hrow i Hnum).
  remember (load_stops d tbl) as stops eqn:Estops.
  destruct stops as [| id0 ids]; [congruence |].
  destruct (RoutingFacts.recompute_report_value
              (frame_km stop_km (id0 :: ids)) id0 ids)
    as (best & rep & Hperm & Hrep & _ & Hrows).
  { intros i j. apply Hsym. }
  { intros i j. apply Hnn. }
  rewrite Hrep. exists rep. split; [reflexivity |].
  set (stops := id0 :: ids) in *.
  set (order := map (fun i => nth i stops 0) best) in *.
  rewrite Hrows, RoutingFacts.enumerate1_snd.
  assert (Hord : Permutation order stops)
    by now apply RoutingFacts.map_nth_perm.
  set (F := filter (of_dispatch d) tbl) in *.
  assert (HndF : NoDup (map Stop_id F)) by now apply filter_distinct_stop_ids.
  assert (Hnds : NoDup stops).
  { rewrite Estops.
    apply (Permutation_NoDup (Permutation_sym (load_stops_perm d tbl))).
    exact HndF. }
  assert (Hnd : NoDup order)
    by exact (Permutation_NoDup (Permutation_sym Hord) Hnds).
  split.
  - intros Hdiff.
    destruct (execmany_unique tbl (Routing.enumerate1 order)) as [t |] eqn:Ex;
      [exfalso | reflexivity].
    apply execmany_unique_some in Ex. destruct Ex as [_ Hall].
    destruct (first_difference order stops (Permutation_length Hord) Hdiff)
      as (k0 & Hk0 & Hsame & Hneq).
    assert (Hk0s : (k0 < length stops)%nat)
      by now rewrite <- (Permutation_length Hord).
    specialize (Hall (S k0)). rewrite enumerate1_length in Hall.
    assert (Hdup : NoDup (map Sequence
                     (filter (of_dispatch d)
                        (execmany_set_sequence tbl
                           (firstn (S k0) (Routing.enumerate1 order))))))
      by (apply unique_key_dispatch, Hall; lia).
    set (rows := firstn (S k0) (Routing.enumerate1 order)) in *.
    rewrite execmany_assign in Hdup.
    rewrite filter_map_keys in Hdup by (intro r; apply assign_keys).
    fold F in Hdup. rewrite map_map in Hdup.
    assert (Hrowsnd : NoDup (map snd rows)).
    { unfold rows. rewrite <- firstn_map, RoutingFacts.enumerate1_snd.
      now apply nodup_firstn. }
    (* the stop that receives the number k0 + 1 *)
    assert (Ha : exists ra, In ra F /\ Stop_id ra = nth k0 order 0).
    { assert (Hin : In (nth k0 order 0) (map Stop_id F)).
      { apply (order_in_dispatch d tbl order).
        - now rewrite <- Estops.
        - now apply nth_In. }
      apply in_map_iff in Hin. destruct Hin as (ra & E & Hra). now exists ra. }
    destruct Ha as (ra & Hra & Ida).
    (* the stop that still has it *)
    destruct (Hrow k0 Hk0s) as (rb & Hrb & Idb & Seqb).
    assert (Hseqa : Sequence (assign rows ra) = Z.of_nat (S k0)).
    { apply assign_hit; [exact Hrowsnd |]. rewrite Ida. unfold rows.
      rewrite <- (enumerate1_nth order k0 Hk0).
      rewrite <- (firstn_skipn (S k0) (Routing.enumerate1 order)) at 1.
      rewrite app_nth1 by (rewrite length_firstn, enumerate1_length; lia).
      apply nth_In. rewrite length_firstn, enumerate1_length. lia. }
    assert (Hseqb : assign rows rb = rb).
    { apply assign_miss. intro Hin. apply in_map_iff in Hin.
      destruct Hin as ([s id] & E & Hin). simpl in E. subst id.
      destruct (firstn_enumerate1_in order (S k0) s (Stop_id rb) Hin)
        as (i & Hi & Hil & _ & Eid).
      rewrite Idb in Eid.
      destruct (Nat.eq_dec i k0) as [-> | Hik]; [congruence |].
      rewrite Hsame in Eid by lia.
      apply (NoDup_nth stops 0) in Eid; try assumption; lia. }
    assert (E : ra = rb).
    { apply (nodup_map_inj (fun r => Sequence (assign rows r)) F Hdup);
        try assumption.
      now rewrite Hseqa, Hseqb, Seqb. }
    subst ra. congruence.
  - intros Hsame Huniq. rewrite Hsame.
    assert (Hfix : forall k,
              execmany_set_sequence tbl (firstn k (Routing.enumerate1 stops))
              = tbl).
    { intros k. rewrite execmany_assign.
      rewrite <- (map_id tbl) at 2. apply map_ext_in. intros r Hr.
      apply assign_same. intros s id Hin Eid.
      destruct (firstn_enumerate1_in stops k s id Hin)
        as (i & _ & Hi & -> & ->).
      destruct (Hrow i Hi) as (rb & Hrb & Idb & Seqb).
      apply filter_In in Hrb. destruct Hrb as [Hrb _].
      assert (r = rb)
        by (apply (nodup_map_inj Stop_id tbl Hkey); congruence).
      now subst rb. }
    rewrite execmany_unique_prefixes.
    + rewrite <- (firstn_all (Routing.enumerate1 stops)). now rewrite Hfix.
    + intros k _. now rewrite Hfix.
Qed.

Lemma recompute_raises_on_new_order_witness :
  recompute_dispatch_sequence square_stop_km 7 example_table
  = (example_table, IntegrityError).
Proof.
  destruct (recompute_raises_on_new_order square_stop_km 7 example_table)
    as (rep & Hrep & Hraises & _).
  - exact example_table_key.
  - reflexivity.
  - discriminate.
  - exact square_stop_km_sym.
  - exact square_stop_km_nonneg.
  - apply Hraises.
    assert (Horder : option_map (fun r => map snd (Routing.rows r))
                       (Routing.recompute_report
                          (frame_km square_stop_km (load_stops 7 example_table))
                          (load_stops 7 example_table))
                     = Some [101; 103; 102; 104])
      by (lazy; reflexivity).
    rewrite Hrep in Horder. simpl in Horder. injection Horder as ->.
    discriminate.
Defined.

(** The example: [optimize_route] turns the crossed order 101, 102,
    103, 104 of dispatch 7 into 101, 103, 102, 104;
    [recompute_dispatch_sequence] computes the same order, which it can
    write to the table numbered 10, 20, 30, 40 only. *)
Example example_table_rewritten :
  load_stops 7 example_table = [101; 102; 103; 104] /\
  load_stops 7 (fst (optimize_route square_stop_km 7 example_table))
    = [101; 103; 102; 104] /\
  map Sequence (fst (optimize_route square_stop_km 7 example_table))
    = [1; 1; 3; 2; 2; 4].
Proof. repeat split; reflexivity. Qed.

Example example_table_spaced_rewritten :
  map Sequence
    (fst (recompute_dispatch_sequence square_stop_km 7 example_table_spaced))
  = [1; 1; 3; 2; 2; 4] /\
  fst (recompute_dispatch_sequence square_stop_km 7 example_table)
  = example_table.
Proof. split; lazy; reflexivity. Qed.

End StoreFacts.
